(** * BOBO CSV data simulator: a shallow embedding and its properties

    The development follows the two scripts of the repository:
    - [generate_test_users.py], the roster generator;
    - [bobosim.py], the event simulator (roster loader, unknown-ID pool
      builder, record synthesizer, batch composer and run loop).

    Python values are modelled as the code has them: integers as [Z],
    strings as [string], lists as [list], the set of integers of the pool
    builder and of the roster generator as [gset Z].  The pseudo-random
    generator is an explicit state: an infinite tape of raw words, of which
    every primitive of the [random] module consumes one.  Quantifying over
    tapes quantifies over every run.  Exceptions are values of [res]. *)

From Stdlib Require Import ZArith Ascii String Lia.
From stdpp Require Import base numbers list sorting gmap strings.

Local Open Scope string_scope.
Local Open Scope list_scope.
Local Open Scope Z_scope.

(** ** Exceptions and the generator state *)

Inductive exn : Type :=
| ValueError
| IndexError
| StopIteration
| OSError
| CsvError.

Inductive res (A : Type) : Type :=
| Ok (a : A)
| Raise (e : exn).
Arguments Ok {A} a.
Arguments Raise {A} e.

(** The generator: [tape] is the sequence of raw words the run will see,
    [pos] the number of words consumed so far. *)
Record rng : Type := mkRng { tape : nat → Z; pos : nat }.

Definition next_raw (g : rng) : Z * rng :=
  (tape g (pos g), mkRng (tape g) (S (pos g))).

(** Computations that read the generator and may raise. *)
Definition M (A : Type) : Type := rng → res A * rng.

Definition ret {A} (a : A) : M A := λ g, (Ok a, g).
Definition raise {A} (e : exn) : M A := λ g, (Raise e, g).
Definition bind {A B} (m : M A) (k : A → M B) : M B :=
  λ g, match m g with
       | (Ok a, g') => k a g'
       | (Raise e, g') => (Raise e, g')
       end.

(** The notation [x ← m; k] of stdpp's [MBind] is used for sequencing. *)
#[global] Instance M_ret : MRet M := @ret.
#[global] Instance M_bind : MBind M := λ A B k m, bind m k.

(** ** The [random] module *)

Module random.

(** [_randbelow(n)] for [n > 0]: a value in [[0, n)]. *)
Definition randbelow (n : Z) : M Z :=
  λ g, let (r, g') := next_raw g in (Ok (r mod n), g').

(** [random.randint(a, b)]: [a + _randbelow(b - a + 1)], a [ValueError]
    on an empty range. *)
Definition randint (a b : Z) : M Z :=
  if 0 <? b - a + 1 then (i ← randbelow (b - a + 1); ret (a + i))
  else raise ValueError.

(** [random.choice(seq)]: [seq[_randbelow(len(seq))]], an [IndexError] on
    an empty sequence. *)
Definition choice {A} (seq : list A) : M A :=
  match seq with
  | [] => raise IndexError
  | _ =>
      i ← randbelow (Z.of_nat (length seq));
      match seq !! Z.to_nat i with
      | Some x => ret x
      | None => raise IndexError
      end
  end.

(** [random.uniform(a, b)] followed by [round(_, d)]: the float is
    abstracted by an integer number of units of [10^-d], one draw in
    [[a, b]] (both given in those units). *)
Definition uniform_rounded (a b : Z) : M Z :=
  i ← randbelow (b - a + 1); ret (a + i).

(** [random.sample(population, k)]: [k] entries at distinct positions.
    This is the loop CPython runs on a copy of the population: pick a
    position among those not selected yet, then move the last of them
    into the hole.  (Above 21 entries CPython draws positions and
    redraws the ones already selected; the possible results are the
    same.)  [m] is the number of positions not selected yet. *)
Fixpoint sample_loop {A} (k m : nat) (pool result : list A) : M (list A) :=
  match k with
  | O => ret result
  | S k' =>
      j ← randbelow (Z.of_nat m);
      match pool !! Z.to_nat j, pool !! (m - 1)%nat with
      | Some x, Some y =>
          sample_loop k' (m - 1)%nat (<[Z.to_nat j := y]> pool)
            (result ++ [x])
      | _, _ => raise IndexError
      end
  end.

Definition sample {A} (population : list A) (k : Z) : M (list A) :=
  if (0 <=? k) && (k <=? Z.of_nat (length population))
  then sample_loop (Z.to_nat k) (length population) population []
  else raise ValueError.

(** [random.choices(population, k=k)]: [k] independent draws. *)
Fixpoint choices_loop {A} (k : nat) (population : list A) : M (list A) :=
  match k with
  | O => ret []
  | S k' =>
      i ← randbelow (Z.of_nat (length population));
      match population !! Z.to_nat i with
      | Some x => rest ← choices_loop k' population; ret (x :: rest)
      | None => raise IndexError
      end
  end.

Definition choices {A} (population : list A) (k : Z) : M (list A) :=
  choices_loop (Z.to_nat k) population.

(** [x[i], x[j] = x[j], x[i]]. *)
Definition swap {A} (x : list A) (i j : nat) : option (list A) :=
  match x !! i, x !! j with
  | Some xi, Some xj => Some (<[j := xi]> (<[i := xj]> x))
  | _, _ => None
  end.

(** [random.shuffle(x)]: for [i] from [len(x) - 1] down to [1], swap
    [x[i]] with [x[j]], [j] drawn in [[0, i]]. *)
Fixpoint shuffle_from {A} (i : nat) (x : list A) : M (list A) :=
  match i with
  | O => ret x
  | S i' =>
      j ← randbelow (Z.of_nat i + 1);
      match swap x i (Z.to_nat j) with
      | Some x' => shuffle_from i' x'
      | None => raise IndexError
      end
  end.

Definition shuffle {A} (x : list A) : M (list A) :=
  shuffle_from (length x - 1)%nat x.

End random.

(** ** Strings: [str(int)] and the format specification [0<w>d] *)

Definition digit_char (d : N) : ascii :=
  ascii_of_N (48 + d).

(** Decimal digits of [n], most significant first, in front of [acc]. *)
Fixpoint dec_digits (fuel : nat) (n : N) (acc : string) : string :=
  match fuel with
  | O => acc
  | S fuel' =>
      let acc' := String (digit_char (n mod 10)) acc in
      if (n / 10 =? 0)%N then acc' else dec_digits fuel' (n / 10) acc'
  end.

(** [str(n)] for [n >= 0].  A number has no more decimal digits than
    binary ones, which bounds the recursion. *)
Definition str_of_N (n : N) : string :=
  dec_digits (S (N.to_nat (N.log2 n))) n "".

Fixpoint zeros (k : nat) : string :=
  match k with
  | O => ""
  | S k' => String "0" (zeros k')
  end.

(** [f"{n:0<w>d}"]: the sign first, then zeros up to width [w], then the
    digits.  The sign counts in the width. *)
Definition format_0d (w : nat) (n : Z) : string :=
  let ds := str_of_N (Z.abs_N n) in
  if n <? 0
  then String "-" (zeros (w - 1 - String.length ds) +:+ ds)
  else zeros (w - String.length ds) +:+ ds.

(** [str.strip()]: the white space of ASCII, as Python's [str.isspace]
    has it (tab to carriage return, the four separators, and space). *)
Definition is_space (c : ascii) : bool :=
  let n := N_of_ascii c in
  ((9 <=? n) && (n <=? 13) || (28 <=? n) && (n <=? 32))%N.

Fixpoint lstrip (s : string) : string :=
  match s with
  | String c s' => if is_space c then lstrip s' else s
  | EmptyString => EmptyString
  end.

Fixpoint rstrip (s : string) : string :=
  match s with
  | String c s' =>
      match rstrip s' with
      | EmptyString => if is_space c then EmptyString else String c EmptyString
      | r => String c r
      end
  | EmptyString => EmptyString
  end.

Definition strip (s : string) : string := rstrip (lstrip s).

Definition digit_val (c : ascii) : option Z :=
  let n := N_of_ascii c in
  if ((48 <=? n) && (n <=? 57))%N then Some (Z.of_N n - 48) else None.

(** The digits of an integer literal: decimal digits, a single underscore
    allowed between two digits.  [prev] tells whether the previous
    character was a digit. *)
Fixpoint parse_digits (s : string) (acc : Z) (prev : bool) : option Z :=
  match s with
  | EmptyString => if prev then Some acc else None
  | String c s' =>
      match digit_val c with
      | Some d => parse_digits s' (10 * acc + d) true
      | None =>
          if Ascii.eqb c "_" && prev then parse_digits s' acc false else None
      end
  end.

(** [int(s)] in base ten; [None] stands for the [ValueError].  Strings
    are sequences of ASCII characters here: the digits and the white space
    that Python knows outside ASCII are not modelled.  Nor is the length
    above which CPython refuses to read a number, 4300 digits unless the
    interpreter is told otherwise ([int_max_str_digits] below): [py_int]
    is [int] on the ASCII texts of at most that many digits. *)
Definition py_int (s : string) : option Z :=
  match strip s with
  | String c s' =>
      if Ascii.eqb c "-" then Z.opp <$> parse_digits s' 0 false
      else if Ascii.eqb c "+" then parse_digits s' 0 false
      else parse_digits (String c s') 0 false
  | EmptyString => None
  end.

(** ** [datetime] *)

Record datetime : Type := mkDatetime {
  year : Z; month : Z; day : Z;
  hour : Z; minute : Z; second : Z
}.

(** [strftime('%Y%m%d')], for the four-digit years of a present-day
    clock. *)
Definition strftime_Ymd (t : datetime) : string :=
  format_0d 4 (year t) +:+ format_0d 2 (month t) +:+ format_0d 2 (day t).

(** [strftime('%Y%m%d_%H%M%S')]. *)
Definition strftime_Ymd_HMS (t : datetime) : string :=
  strftime_Ymd t +:+ "_" +:+
  format_0d 2 (hour t) +:+ format_0d 2 (minute t) +:+ format_0d 2 (second t).

(** ** The record synthesizer: [generate_random_entry] *)

(** The ten-field row returned by [generate_random_entry]. *)
Record entry : Type := mkEntry {
  transaction_type : string;
  employee_id : string;
  payroll_id : Z;
  clocking_date : string;
  clocking_time : string;
  datetime_created : string;
  geo_status : Z;
  geo_latitude : Z;     (* units of 1e-6 degree *)
  geo_longitude : Z;    (* units of 1e-6 degree *)
  geo_accuracy : Z      (* units of 1e-2 metre *)
}.

Definition generate_random_entry
    (execution_time : datetime) (employee_id : option string) : M entry :=
  transaction_type ← random.choice ["BON"; "BOF"];
  employee_id ←
    (match employee_id with
     | None => n ← random.randint 1 99999; ret (format_0d 5 n)
     | Some id => ret id
     end);
  payroll_id ← random.randint 10000 99999;
  let clocking_date := strftime_Ymd execution_time in
  let base_hour := hour execution_time in
  let base_minute := minute execution_time in
  random_second ← random.randint 0 59;
  let clocking_time :=
    format_0d 2 base_hour +:+ format_0d 2 base_minute
      +:+ format_0d 2 random_second in
  let datetime_created := clocking_date +:+ clocking_time in
  geo_status ← random.randint 0 5;
  geo_latitude ← random.uniform_rounded (-90000000) 90000000;
  geo_longitude ← random.uniform_rounded (-180000000) 180000000;
  geo_accuracy ← random.uniform_rounded 100 10000;
  ret (mkEntry transaction_type employee_id payroll_id clocking_date
         clocking_time datetime_created geo_status geo_latitude
         geo_longitude geo_accuracy).

(** ** Process-wide state of the simulator *)

Record globals : Type := mkGlobals {
  VALID_COLLAR_IDS : list string;
  UNKNOWN_COLLAR_IDS : list string
}.

Definition initial_globals : globals := mkGlobals [] [].

(** ** The roster loader: [load_valid_collar_ids] *)

(** What iterating [csv.reader] over the roster yields: a row, or an
    exception raised while reading further (a decoding error, a field
    over the size limit of the [csv] module). *)
Inductive read_event : Type :=
| Row (fields : list string)
| ReadFails (e : exn).

(** The roster file as the loader sees it. *)
Inductive roster_file : Type :=
| Missing                               (* [csv_file.exists()] is false *)
| Unopenable (e : exn)                  (* [open] raises *)
| Readable (events : list read_event).  (* the reader's rows, then EOF *)

(** The [for row in reader] loop; [ids] is [VALID_COLLAR_IDS], appended to
    in place.  The boolean tells whether the loop ended without raising. *)
Fixpoint load_rows (events : list read_event) (ids : list string)
  : bool * list string :=
  match events with
  | [] => (true, ids)
  | ReadFails _ :: _ => (false, ids)
  | Row row :: events' =>
      match row with
      | field0 :: _ =>
          let collar_id := strip field0 in
          if String.eqb collar_id "" then load_rows events' ids
          else load_rows events' (ids ++ [collar_id])
      | [] => load_rows events' ids
      end
  end.

(** Returns the function's result and the new global state. *)
Definition load_valid_collar_ids (G : globals) (f : roster_file)
  : bool * globals :=
  match f with
  | Missing => (false, G)
  | Unopenable _ => (false, G)
  | Readable [] => (false, G)                 (* [next(reader)]: StopIteration *)
  | Readable (ReadFails _ :: _) => (false, G)
  | Readable (Row _ :: events) =>             (* the header row is skipped *)
      let (ok, ids) := load_rows events [] in
      (ok, mkGlobals ids (UNKNOWN_COLLAR_IDS G))
  end.

(** ** The unknown-ID pool builder: [generate_unknown_collar_ids] *)

(** The first loop: the integers of the valid IDs that parse. *)
Fixpoint valid_ids_set_of (ids : list string) (acc : gset Z) : gset Z :=
  match ids with
  | [] => acc
  | collar_id :: ids' =>
      match py_int collar_id with
      | Some n => valid_ids_set_of ids' (acc ∪ {[ n ]})
      | None => valid_ids_set_of ids' acc
      end
  end.

(** One [for _ in range(n)] loop over the band [[lo, hi]]. *)
Fixpoint sample_band (n : nat) (lo hi : Z) (valid_ids_set : gset Z)
    (pool : list string) : M (list string) :=
  match n with
  | O => ret pool
  | S n' =>
      unknown_id ← random.randint lo hi;
      if decide (unknown_id ∈ valid_ids_set)
      then sample_band n' lo hi valid_ids_set pool
      else sample_band n' lo hi valid_ids_set
             (pool ++ [format_0d 5 unknown_id])
  end.

Definition generate_unknown_collar_ids (G : globals) : M globals :=
  match VALID_COLLAR_IDS G with
  | [] => ret G
  | _ =>
      let valid_ids_set := valid_ids_set_of (VALID_COLLAR_IDS G) ∅ in
      pool ← sample_band 10 1 99 valid_ids_set [];
      pool ← sample_band 10 12001 15000 valid_ids_set pool;
      pool ← sample_band 20 100 12000 valid_ids_set pool;
      ret (mkGlobals (VALID_COLLAR_IDS G) pool)
  end.

(** ** The batch composer: [create_bobo_csv] *)

Record config : Type := mkConfig {
  OUTPUT_DIR : string;
  SIMULATION_INTERVAL : Z;
  MIN_ENTRIES : Z;
  MAX_ENTRIES : Z;
  MAX_FILE_COUNT : Z
}.

Definition DEFAULT_CONFIG : config := mkConfig "./output" 60 5 25 100.

(** The variables of the ID selection of one batch. *)
Record composition : Type := mkComposition {
  unknown_count : Z;
  unknown_ids : list string;
  valid_ids : list string;
  collar_ids_to_use : list string
}.

(** The block under [if VALID_COLLAR_IDS:]. *)
Definition compose_collar_ids (G : globals) (num_entries : Z)
  : M composition :=
  match VALID_COLLAR_IDS G with
  | [] => ret (mkComposition 0 [] [] [])
  | _ =>
      unknown_count ← random.randint 0 2;
      unknown_ids ←
        (if (0 <? unknown_count)
            && negb (bool_decide (UNKNOWN_COLLAR_IDS G = []))
         then random.sample (UNKNOWN_COLLAR_IDS G)
                (Z.min unknown_count
                   (Z.of_nat (length (UNKNOWN_COLLAR_IDS G))))
         else ret []);
      let remaining_entries := num_entries - Z.of_nat (length unknown_ids) in
      valid_ids ←
        (if 0 <? remaining_entries
         then random.choices (VALID_COLLAR_IDS G) remaining_entries
         else ret []);
      collar_ids_to_use ← random.shuffle (unknown_ids ++ valid_ids);
      ret (mkComposition unknown_count unknown_ids valid_ids
             collar_ids_to_use)
  end.

(** Where writing the output file raises, if it does. *)
Inductive io_fault : Type :=
| NoFault
| OpenFails
| WriteFails (row : nat)     (* [writer.writerow] of that row raises *)
| CloseFails.

#[global] Instance io_fault_eq_dec : EqDecision io_fault.
Proof. solve_decision. Defined.

Inductive message : Type :=
| MsgGenerated (filename : string) (num_entries run_counter max_files : Z)
| MsgAllEntriesUse (date hhmm : string)
| MsgCollarIds (valid_count unknown_count : Z)
| MsgErrorCreating
| MsgOutput (path : string)
| MsgMaxReached (max_files : Z)
| MsgNextGeneration (interval : Z)
| MsgUnexpectedError (e : exn)
| MsgShutdown (run_counter : Z)
| MsgCollarDataLoaded   (* "Collar ID data loaded successfully." *)
| MsgFailedToLoad       (* "Warning: Failed to load collar ID data. Will use
                           random collar IDs." *)
| MsgFailedOutputDir.

(** The [for i in range(num_entries)] loop: [n] rows to go, [i] the
    index of the next one.  The boolean tells whether every [writerow]
    returned; [written] are the rows whose [writerow] has returned so
    far.  The file is opened with the default buffering: these rows are
    its content once it is closed, and until then any part of them may
    still be in the buffers. *)
Fixpoint write_rows (n i : nat) (execution_time : datetime)
    (ids : list string) (fault : io_fault) (written : list entry)
  : M (bool * list entry) :=
  match n with
  | O => ret (true, written)
  | S n' =>
      e ← generate_random_entry execution_time (ids !! i);
      if bool_decide (fault = WriteFails i) then ret (false, written)
      else write_rows n' (S i) execution_time ids fault (written ++ [e])
  end.

Record batch : Type := mkBatch {
  csv_file : option string;      (* the value returned *)
  opened : bool;                 (* whether [open] returned a file *)
  rows : list entry;             (* the rows whose [writerow] returned:
                                    the content of the file if the batch
                                    was written to its end *)
  printed : list message;
  ids : composition
}.

Definition create_bobo_csv (G : globals) (cfg : config) (run_counter : Z)
    (execution_time : datetime) (fault : io_fault) : M batch :=
  let timestamp := strftime_Ymd_HMS execution_time in
  let filename := "BOBO_" +:+ timestamp +:+ "_output.csv" in
  (* [Path(OUTPUT_DIR) / filename], up to the normalisation of the path *)
  let output_path := OUTPUT_DIR cfg +:+ "/" +:+ filename in
  num_entries ← random.randint (MIN_ENTRIES cfg) (MAX_ENTRIES cfg);
  c ← compose_collar_ids G num_entries;
  if bool_decide (fault = OpenFails)
  then ret (mkBatch None false [] [MsgErrorCreating] c)
  else
    '(ok, written) ←
       write_rows (Z.to_nat num_entries) 0 execution_time
         (collar_ids_to_use c) fault [];
    if ok && negb (bool_decide (fault = CloseFails))
    then
      ret (mkBatch (Some output_path) true written
             ([MsgGenerated filename num_entries run_counter
                 (MAX_FILE_COUNT cfg);
               MsgAllEntriesUse (strftime_Ymd execution_time)
                 (format_0d 2 (hour execution_time)
                    +:+ format_0d 2 (minute execution_time))]
              ++ match VALID_COLLAR_IDS G with
                 | [] => []
                 | _ => [MsgCollarIds (num_entries - unknown_count c)
                           (unknown_count c)]
                 end)
             c)
    else ret (mkBatch None true written [MsgErrorCreating] c).

(** ** The run loop of [main] *)

(** What one run of the loop does, in order: the assignments to
    [run_counter], the messages printed, the files opened, each with the
    rows whose [writerow] returned, and the sleeps. *)
Inductive effect : Type :=
| Increment (run_counter : Z)
| Print (m : message)
| WriteFile (run_counter : Z) (rows : list entry)
| Sleep (seconds : Z).

(** What the outside does to the process: the clock read by each call of
    [create_bobo_csv], the fate of each output file, and whether a
    termination signal arrives during the sleep that follows a file (at
    another moment it ends the run as well, somewhere before that sleep).
    All three are indexed by the file number [run_counter]. *)
Record env : Type := mkEnv {
  now : Z → datetime;
  fault : Z → io_fault;
  signalled : Z → bool
}.

(** How the loop was left. *)
Inductive stop : Type :=
| WhileExit              (* the [while] condition was false *)
| Break                  (* the [break] of the maximum check *)
| Uncaught (e : exn)     (* the [except Exception] handler of [main] *)
| SystemExit.            (* [sys.exit(0)] of the signal handler *)

Record run : Type := mkRun {
  stopped : stop;
  final_counter : Z;
  trace : list effect
}.

Definition batch_effects (run_counter : Z) (b : batch) : list effect :=
  (if opened b then [WriteFile run_counter (rows b)] else [])
  ++ (Print <$> printed b)
  ++ match csv_file b with
     | Some path => [Print (MsgOutput path)]
     | None => []
     end.

(** The longest time, in seconds, that [time.sleep] takes: CPython turns
    its argument into a number of nanoseconds held in 64 bits.  From
    [- sleep_max] to [sleep_max] the call either refuses a negative length
    with [ValueError] or sleeps; beyond, the conversion itself fails. *)
Definition sleep_max : Z := 9223372036.

(** The [while run_counter < MAX_FILE_COUNT] loop.  [fuel] bounds the
    number of iterations unfolded; [None] means it was not enough.
    [time.sleep] is modelled on the intervals it can convert, those
    between [- sleep_max] and [sleep_max]. *)
Fixpoint run_loop (fuel : nat) (G : globals) (cfg : config) (E : env)
    (run_counter : Z) (tr : list effect) (g : rng) : option run :=
  match fuel with
  | O => None
  | S fuel' =>
      if run_counter <? MAX_FILE_COUNT cfg then
        let run_counter := run_counter + 1 in
        match create_bobo_csv G cfg run_counter (now E run_counter)
                (fault E run_counter) g with
        | (Raise e, _) =>
            Some (mkRun (Uncaught e) run_counter
                    (tr ++ [Increment run_counter;
                            Print (MsgUnexpectedError e)]))
        | (Ok b, g') =>
            let tr :=
              tr ++ Increment run_counter :: batch_effects run_counter b in
            if MAX_FILE_COUNT cfg <=? run_counter then
              Some (mkRun Break run_counter
                      (tr ++ [Print (MsgMaxReached (MAX_FILE_COUNT cfg))]))
            else
              let tr :=
                tr ++ [Print (MsgNextGeneration (SIMULATION_INTERVAL cfg))] in
              if SIMULATION_INTERVAL cfg <? 0 then
                (* [time.sleep] refuses a negative length *)
                Some (mkRun (Uncaught ValueError) run_counter
                        (tr ++ [Print (MsgUnexpectedError ValueError)]))
              else
                let tr := tr ++ [Sleep (SIMULATION_INTERVAL cfg)] in
                if signalled E run_counter then
                  Some (mkRun SystemExit run_counter tr)
                else run_loop fuel' G cfg E run_counter tr g'
        end
      else Some (mkRun WhileExit run_counter tr)
  end.

(** The start of [main]: load the roster, and build the unknown pool if
    that succeeded. *)
Definition startup (f : roster_file) : M globals :=
  let (loaded, G) := load_valid_collar_ids initial_globals f in
  if loaded then generate_unknown_collar_ids G else ret G.

(** The message of [main] on the outcome of the loader. *)
Definition startup_messages (f : roster_file) : list message :=
  if fst (load_valid_collar_ids initial_globals f)
  then [MsgCollarDataLoaded] else [MsgFailedToLoad].

(** [main], from the loading of the roster on, for a configuration that
    [load_env_config] has read; [mkdir_ok] tells whether
    [ensure_output_directory] succeeds.  Of the messages printed before
    the loop, the trace keeps the one on the outcome of the loader.  The
    handlers installed for SIGINT and SIGTERM call [sys.exit(0)], which no
    [except] clause of [main] catches.  [None]: not enough fuel. *)
Definition main (fuel : nat) (cfg : config) (f : roster_file)
    (mkdir_ok : bool) (E : env) (g : rng) : option run :=
  let tr0 := Print <$> startup_messages f in
  match startup f g with
  | (Raise e, _) => Some (mkRun (Uncaught e) 0 tr0)
  | (Ok G, g') =>
      if mkdir_ok then
        match run_loop fuel G cfg E 0 tr0 g' with
        | Some r =>
            Some (match stopped r with
                  | SystemExit => r
                  | _ => mkRun (stopped r) (final_counter r)
                           (trace r ++ [Print (MsgShutdown (final_counter r))])
                  end)
        | None => None
        end
      else Some (mkRun SystemExit 0 (tr0 ++ [Print MsgFailedOutputDir]))
  end.

(** ** The roster generator: [generate_test_users] *)

(** The [while len(collar_ids) < num_users] loop.  [None]: the loop is
    still running after [fuel] iterations. *)
Fixpoint collar_id_loop (fuel : nat) (num_users min_collar max_collar : Z)
    (collar_ids : gset Z) : M (option (gset Z)) :=
  match fuel with
  | O => ret None
  | S fuel' =>
      if Z.of_nat (size collar_ids) <? num_users then
        collar_id ← random.randint min_collar max_collar;
        collar_id_loop fuel' num_users min_collar max_collar
          (collar_ids ∪ {[ collar_id ]})
      else ret (Some collar_ids)
  end.

(** The rows written after the header: the padded ID and the e-mail. *)
Definition roster_row (collar_id : Z) : string * string :=
  (format_0d 5 collar_id,
   format_0d 0 collar_id +:+ "@bobosynctest.net").

(** The rows of the roster file, in ascending order of the IDs;
    [min(collar_ids)] of the summary raises on an empty roster, after the
    file was written.  Writing the file itself is taken to succeed. *)
Definition generate_test_users (fuel : nat)
    (num_users min_collar max_collar : Z)
  : M (option (list (string * string))) :=
  r ← collar_id_loop fuel num_users min_collar max_collar ∅;
  match r with
  | None => ret None
  | Some collar_ids =>
      let collar_ids := merge_sort Z.le (elements collar_ids) in
      match collar_ids with
      | [] => raise ValueError
      | _ => ret (Some (roster_row <$> collar_ids))
      end
  end.

(** ** The configuration: [load_env_config] *)

(** [os.getenv(key, default)] on the environment of the process, after
    [load_dotenv] has filled it. *)
Definition getenv (environ : gmap string string) (key default : string)
  : string :=
  match environ !! key with
  | Some v => v
  | None => default
  end.

(** [int(s)] as an expression that may raise. *)
Definition int_of (s : string) : res Z :=
  match py_int s with
  | Some n => Ok n
  | None => Raise ValueError
  end.

Definition load_env_config (environ : gmap string string) : res config :=
  let output_dir := getenv environ "OUTPUT_DIR" "./output" in
  match int_of (getenv environ "SIMULATION_INTERVAL" "60") with
  | Raise e => Raise e
  | Ok simulation_interval =>
      match int_of (getenv environ "MIN_ENTRIES" "5") with
      | Raise e => Raise e
      | Ok min_entries =>
          match int_of (getenv environ "MAX_ENTRIES" "25") with
          | Raise e => Raise e
          | Ok max_entries =>
              match int_of (getenv environ "MAX_FILE_COUNT" "100") with
              | Raise e => Raise e
              | Ok max_file_count =>
                  Ok (mkConfig output_dir simulation_interval min_entries
                        max_entries max_file_count)
              end
          end
      end
  end.

(** * The vocabulary of the statements *)

(** [wp m Q R g]: run from the generator state [g], the computation [m]
    returns a value and a state that satisfy [Q], or raises an exception
    and leaves a state that satisfy [R]. *)
Definition wp {A} (m : M A) (Q : A → rng → Prop) (R : exn → rng → Prop)
    (g : rng) : Prop :=
  match m g with
  | (Ok a, g') => Q a g'
  | (Raise e, g') => R e g'
  end.

(** No exception at all. *)
Definition never : exn → rng → Prop := λ _ _, False.

(** What [generate_random_entry] returns, field by field. *)
Definition entry_spec (execution_time : datetime) (id : option string)
    (e : entry) : Prop :=
  (transaction_type e = "BON" ∨ transaction_type e = "BOF")
  ∧ match id with
    | Some i => employee_id e = i
    | None => ∃ n, 1 ≤ n ≤ 99999 ∧ employee_id e = format_0d 5 n
    end
  ∧ clocking_date e = strftime_Ymd execution_time
  ∧ (∃ random_second, 0 ≤ random_second ≤ 59 ∧
       clocking_time e =
         format_0d 2 (hour execution_time)
           +:+ format_0d 2 (minute execution_time)
           +:+ format_0d 2 random_second)
  ∧ datetime_created e = clocking_date e +:+ clocking_time e.

(** What the ID selection of one batch computes. *)
Definition composition_spec (G : globals) (num_entries : Z)
    (c : composition) : Prop :=
  match VALID_COLLAR_IDS G with
  | [] => c = mkComposition 0 [] [] []
  | _ =>
      0 ≤ unknown_count c ≤ 2
      ∧ unknown_ids c ⊆+ UNKNOWN_COLLAR_IDS G
      ∧ Z.of_nat (length (unknown_ids c))
        = Z.min (unknown_count c) (Z.of_nat (length (UNKNOWN_COLLAR_IDS G)))
      ∧ (∀ v, v ∈ valid_ids c → v ∈ VALID_COLLAR_IDS G)
      ∧ Z.of_nat (length (valid_ids c))
        = Z.max 0 (num_entries - Z.of_nat (length (unknown_ids c)))
      ∧ collar_ids_to_use c ≡ₚ unknown_ids c ++ valid_ids c
  end.

(** A fault that a batch of [num_entries] rows really meets: a
    [writerow] beyond the last row is never executed. *)
Definition faulty (fault : io_fault) (num_entries : Z) : Prop :=
  match fault with
  | NoFault => False
  | OpenFails | CloseFails => True
  | WriteFails i => Z.of_nat i < num_entries
  end.

(** What one call of [create_bobo_csv] returns. *)
Definition batch_spec (G : globals) (cfg : config)
    (execution_time : datetime) (fault : io_fault) (b : batch) : Prop :=
  ∃ num_entries,
    MIN_ENTRIES cfg ≤ num_entries ≤ MAX_ENTRIES cfg
    ∧ composition_spec G num_entries (ids b)
    ∧ (∀ i e, rows b !! i = Some e →
              entry_spec execution_time (collar_ids_to_use (ids b) !! i) e)
    ∧ (length (rows b) ≤ Z.to_nat num_entries)%nat
    ∧ match csv_file b with
      | Some _ => length (rows b) = Z.to_nat num_entries
                  ∧ opened b = true ∧ ¬ faulty fault num_entries
      | None => printed b = [MsgErrorCreating] ∧ faulty fault num_entries
      end.

(** Every character of [s] satisfies [P]. *)
Fixpoint all_chars (P : ascii → bool) (s : string) : bool :=
  match s with
  | EmptyString => true
  | String c s' => P c && all_chars P s'
  end.

(** One of the ten decimal digits of ASCII. *)
Definition is_digit (c : ascii) : bool :=
  match digit_val c with Some _ => true | None => false end.

(** The values that [n] successive calls of [randint(lo, hi)] return. *)
Fixpoint band_draws (n : nat) (lo hi : Z) (g : rng) : list Z :=
  match n with
  | O => []
  | S n' =>
      match random.randint lo hi g with
      | (Ok v, g') => v :: band_draws n' lo hi g'
      | (Raise _, _) => []
      end
  end.

(** The generator after [n] draws. *)
Definition advance (n : nat) (g : rng) : rng :=
  mkRng (tape g) (pos g + n).

(** The forty draws of the pool builder, band by band. *)
Definition unknown_draws (g : rng) : list Z :=
  band_draws 10 1 99 g
  ++ band_draws 10 12001 15000 (advance 10 g)
  ++ band_draws 20 100 12000 (advance 20 g).

(** The invariant of the two pools, for the state that [startup] leaves. *)
Definition pools_disjoint (G : globals) : Prop :=
  ∀ u v, u ∈ UNKNOWN_COLLAR_IDS G → v ∈ VALID_COLLAR_IDS G →
         u ≠ v ∧ py_int u ≠ py_int v.

(** The values that [run_counter] takes, and the numbers of the files
    opened, in the order of the trace. *)
Definition increment_of (e : effect) : option Z :=
  match e with Increment k => Some k | _ => None end.

Definition file_of (e : effect) : option Z :=
  match e with WriteFile k _ => Some k | _ => None end.

Definition increments (tr : list effect) : list Z := omap increment_of tr.
Definition files_written (tr : list effect) : list Z := omap file_of tr.

(** What the loop adds to the trace, from the counter [c] to the counter
    [final] at which it stops. *)
Definition loop_suffix (max_files c final : Z) (tr : list effect) : Prop :=
  increments tr = seqZ (c + 1) (final - c)
  ∧ files_written tr `sublist_of` increments tr
  ∧ ∀ tr1 tr2, tr = tr1 ++ Increment max_files :: tr2 →
               ∀ s, Sleep s ∉ tr2.

(** What C8 asks of a run: the counter went through 1, 2, ... up to its
    final value, which is at most the maximum; no more files were opened
    than that; and nothing sleeps once the counter has reached the
    maximum. *)
Definition bounded_run (max_files : Z) (r : run) : Prop :=
  0 ≤ final_counter r ≤ Z.max 0 max_files
  ∧ increments (trace r) = seqZ 1 (final_counter r)
  ∧ (length (increments (trace r)) ≤ Z.to_nat max_files)%nat
  ∧ (length (files_written (trace r)) ≤ Z.to_nat max_files)%nat
  ∧ ∀ tr1 tr2, trace r = tr1 ++ Increment max_files :: tr2 →
               ∀ s, Sleep s ∉ tr2.

(** The roster file that [generate_test_users] writes, as [csv.reader]
    gives it back: the header, then one row of two fields per user. *)
Definition roster_csv (rows : list (string * string)) : roster_file :=
  Readable (Row ["collar_id"; "email"]
              :: ((λ r : string * string, Row [r.1; r.2]) <$> rows)).

(** The first fields of the data rows of a roster, stripped, the empty
    ones left out. *)
Definition data_ids (rows : list (list string)) : list string :=
  filter (λ s, s ≠ "") (strip <$> omap head rows).

(** The lengths of the sleeps of a trace, in order. *)
Definition sleep_of (e : effect) : option Z :=
  match e with Sleep s => Some s | _ => None end.

Definition sleeps (tr : list effect) : list Z := omap sleep_of tr.

(** The number of digits above which [int] refuses a text, as CPython
    sets it by default ([sys.int_max_str_digits]). *)
Definition int_max_str_digits : Z := 4300.

(** A number that [int] reads back from its decimal text: one of at most
    [int_max_str_digits] digits. *)
Definition int_readable (n : Z) : Prop := Z.abs n < 10 ^ int_max_str_digits.

(** The environment that holds the numbers of a configuration as
    [str] writes them. *)
Definition environ_of (cfg : config) : gmap string string :=
  <["OUTPUT_DIR" := OUTPUT_DIR cfg]>
    (<["SIMULATION_INTERVAL" := format_0d 0 (SIMULATION_INTERVAL cfg)]>
       (<["MIN_ENTRIES" := format_0d 0 (MIN_ENTRIES cfg)]>
          (<["MAX_ENTRIES" := format_0d 0 (MAX_ENTRIES cfg)]>
             (<["MAX_FILE_COUNT" := format_0d 0 (MAX_FILE_COUNT cfg)]> ∅)))).

(** A reference time as the clock gives it. *)
Definition well_formed (t : datetime) : Prop :=
  1000 ≤ year t ≤ 9999 ∧ 1 ≤ month t ≤ 12 ∧ 1 ≤ day t ≤ 31
  ∧ 0 ≤ hour t ≤ 23 ∧ 0 ≤ minute t ≤ 59 ∧ 0 ≤ second t ≤ 59.

(** The name of the output file of a batch. *)
Definition output_path_of (cfg : config) (execution_time : datetime)
  : string :=
  OUTPUT_DIR cfg +:+ "/" +:+
  ("BOBO_" +:+ strftime_Ymd_HMS execution_time +:+ "_output.csv").

#[global] Instance faulty_dec fault n : Decision (faulty fault n).
Proof. destruct fault; simpl; apply _. Defined.

(** What a batch whose write failed has done: it printed the error
    message and nothing else, and [writerow] had returned for no row when
    [open] raised, for the [j] rows before row [j] when that row raised,
    for all [num_entries] rows when the closing of the file raised. *)
Definition failed_batch (fault : io_fault) (num_entries : Z) (b : batch)
  : Prop :=
  printed b = [MsgErrorCreating]
  ∧ match fault with
    | NoFault => False
    | OpenFails => opened b = false ∧ rows b = []
    | WriteFails j => opened b = true ∧ length (rows b) = j
    | CloseFails => opened b = true ∧ length (rows b) = Z.to_nat num_entries
    end.

(** The return value, the file and the messages of [create_bobo_csv],
    case by case on the fault. *)
Definition batch_io_spec (G : globals) (cfg : config) (run_counter : Z)
    (execution_time : datetime) (fault : io_fault) (b : batch) : Prop :=
  ∃ num_entries,
    MIN_ENTRIES cfg ≤ num_entries ≤ MAX_ENTRIES cfg
    ∧ if decide (faulty fault num_entries) then
        csv_file b = None
        ∧ printed b = [MsgErrorCreating]
        ∧ match fault with
          | OpenFails => opened b = false ∧ rows b = []
          | WriteFails j => opened b = true ∧ length (rows b) = j
          | _ => opened b = true ∧ length (rows b) = Z.to_nat num_entries
          end
      else
        csv_file b = Some (output_path_of cfg execution_time)
        ∧ opened b = true
        ∧ length (rows b) = Z.to_nat num_entries
        ∧ printed b
          = [MsgGenerated
               ("BOBO_" +:+ strftime_Ymd_HMS execution_time +:+ "_output.csv")
               num_entries run_counter (MAX_FILE_COUNT cfg);
             MsgAllEntriesUse (strftime_Ymd execution_time)
               (format_0d 2 (hour execution_time)
                  +:+ format_0d 2 (minute execution_time))]
            ++ match VALID_COLLAR_IDS G with
               | [] => []
               | _ => [MsgCollarIds (num_entries - unknown_count (ids b))
                         (unknown_count (ids b))]
               end.

(** * Sample inputs *)

(** Two valid and two unknown IDs; three or four rows a batch, five
    files; a clock that stands still; a generator. *)
Definition G0 : globals := mkGlobals ["00100"; "00200"] ["00001"; "00002"].
Definition cfg0 : config := mkConfig "./output" 60 3 4 5.
Definition t0 : datetime := mkDatetime 2026 11 4 9 5 33.
Definition g0 : rng := mkRng (λ i, Z.of_nat i * 7 + 1) 0.

(** The state after loading a roster of the single ID 00100, and two
    generators: one whose every draw is the lowest value of its range, one
    whose every draw is the value after it. *)
Definition G_one : globals := mkGlobals ["00100"] [].
Definition g_zeros : rng := mkRng (λ _, 0) 0.
Definition g_ones : rng := mkRng (λ _, 1) 0.

(** A roster of two IDs. *)
Definition roster0 : roster_file :=
  Readable [Row ["collar_id"; "email"];
            Row ["00100"; "100@bobosynctest.net"];
            Row ["00200"; "200@bobosynctest.net"]].

(** The roster of the single ID 00100. *)
Definition roster_one : roster_file :=
  Readable [Row ["collar_id"; "email"];
            Row ["00100"; "100@bobosynctest.net"]].

(** A generator for one batch: any entry count, two unknown IDs, then the
    positions 0 and 1 of the pool. *)
Definition g_dup : rng :=
  mkRng (λ i, match i with 1%nat => 2 | 3%nat => 1 | _ => 0 end) 0.

(** A roster whose second data row cannot be read: the [csv] module
    raises on it, after the first data row was appended. *)
Definition roster_broken : roster_file :=
  Readable [Row ["collar_id"; "email"];
            Row ["00100"; "100@bobosynctest.net"];
            ReadFails CsvError;
            Row ["00300"; "300@bobosynctest.net"]].

(** An outside where the second file cannot be opened, and one where
    every file can be written; no signal in either. *)
Definition E0 : env :=
  mkEnv (λ _, t0) (λ k, if k =? 2 then OpenFails else NoFault) (λ _, false).
Definition E_ok : env := mkEnv (λ _, t0) (λ _, NoFault) (λ _, false).

(** A second reference time, one second after [t0]. *)
Definition t1 : datetime := mkDatetime 2026 11 4 9 5 34.

(** Configurations at the edges: no file to make, a negative interval, a
    minimum above the maximum. *)
Definition cfg_none : config := mkConfig "./output" 60 3 4 0.
Definition cfg_negative : config := mkConfig "./output" (-1) 3 4 5.
Definition cfg_swapped : config := mkConfig "./output" 60 4 3 5.

(** An outside where a signal arrives during the sleep after the second
    file. *)
Definition E_signal : env :=
  mkEnv (λ _, t0) (λ _, NoFault) (λ k, k =? 2).

(** Two environments: one without any of the variables, one with a
    minimum that is not a number. *)
Definition environ_home : gmap string string := {[ "HOME" := "/root" ]}.
Definition environ_bad : gmap string string :=
  {[ "MIN_ENTRIES" := "five"; "MAX_ENTRIES" := "9" ]}.

(** * Properties *)

(** ** Reasoning about computations in [M] *)

Section wp_rules.
Context {A B : Type}.
Implicit Types (Q : A → rng → Prop) (R : exn → rng → Prop).

Lemma wp_ret (a : A) Q R g : Q a g → wp (mret a) Q R g.
Proof. done. Qed.

Lemma wp_raise e Q R g : R e g → wp (@raise A e) Q R g.
Proof. done. Qed.

Lemma wp_bind (m : M A) (k : A → M B) (Q' : B → rng → Prop) R g :
  wp m (λ a g', wp (k a) Q' R g') R g → wp (m ≫= k) Q' R g.
Proof.
  cbv [wp mbind M_bind bind]. by destruct (m g) as [[a|e] g'].
Qed.

Lemma wp_mono (m : M A) Q Q' R R' g :
  wp m Q R g → (∀ a g', Q a g' → Q' a g') → (∀ e g', R e g' → R' e g') →
  wp m Q' R' g.
Proof.
  unfold wp. destruct (m g) as [[a|e] g']; auto.
Qed.

Lemma wp_ok (m : M A) Q g :
  wp m Q never g ↔ ∃ a g', m g = (Ok a, g') ∧ Q a g'.
Proof.
  unfold wp, never. destruct (m g) as [[a|e] g']; split.
  - eauto.
  - by intros (? & ? & [= -> ->] & ?).
  - done.
  - by intros (? & ? & [= ] & ?).
Qed.

Lemma wp_inv (m : M A) Q R g a g' :
  wp m Q R g → m g = (Ok a, g') → Q a g'.
Proof. unfold wp. intros H Hm. by rewrite Hm in H. Qed.

End wp_rules.

(** *** The primitives of [random] *)

Lemma wp_randbelow n (Q : Z → rng → Prop) R g :
  0 < n → (∀ v g', 0 ≤ v < n → Q v g') → wp (random.randbelow n) Q R g.
Proof.
  intros Hn HQ. unfold wp, random.randbelow. simpl. apply HQ.
  by apply Z.mod_pos_bound.
Qed.

Lemma wp_randint a b (Q : Z → rng → Prop) R g :
  a ≤ b → (∀ v g', a ≤ v ≤ b → Q v g') → wp (random.randint a b) Q R g.
Proof.
  intros Hab HQ. unfold random.randint.
  destruct (Z.ltb_spec 0 (b - a + 1)); [|lia].
  apply wp_bind, wp_randbelow; [done|]. intros v g' Hv.
  apply wp_ret, HQ. lia.
Qed.

(** On an empty range [randint] raises, whatever the generator. *)
Lemma randint_empty a b g : b < a → random.randint a b g = (Raise ValueError, g).
Proof.
  intros Hab. unfold random.randint.
  by destruct (Z.ltb_spec 0 (b - a + 1)); [lia|].
Qed.

Lemma wp_choice {A} (seq : list A) (Q : A → rng → Prop) R g :
  seq ≠ [] → (∀ x g', x ∈ seq → Q x g') → wp (random.choice seq) Q R g.
Proof.
  intros Hne HQ. unfold random.choice.
  destruct seq as [|x0 seq0] eqn:Hseq; [done|]. rewrite <- Hseq in *.
  assert (0 < Z.of_nat (length seq)) by (subst seq; simpl; lia).
  apply wp_bind, wp_randbelow; [done|]. intros v g' Hv.
  destruct (lookup_lt_is_Some_2 seq (Z.to_nat v)) as [x Hx]; [lia|].
  rewrite Hx. apply wp_ret, HQ. by eapply list_elem_of_lookup_2.
Qed.

Lemma wp_uniform_rounded a b (Q : Z → rng → Prop) R g :
  a ≤ b → (∀ v g', a ≤ v ≤ b → Q v g') →
  wp (random.uniform_rounded a b) Q R g.
Proof.
  intros Hab HQ. unfold random.uniform_rounded.
  apply wp_bind, wp_randbelow; [lia|]. intros v g' Hv.
  apply wp_ret, HQ. lia.
Qed.

(** *** Replacing one entry of a list, up to the order *)

Lemma insert_Permutation {A} (l : list A) (j : nat) (x y : A) :
  l !! j = Some x → x :: <[j := y]> l ≡ₚ y :: l.
Proof.
  revert j. induction l as [|a l IH]; intros [|j] Hj; try done.
  - injection Hj as ->. simpl. apply Permutation_swap.
  - simpl in *. rewrite (Permutation_swap a x). rewrite (IH j Hj).
    apply Permutation_swap.
Qed.

Lemma swap_Permutation {A} (x x' : list A) (i j : nat) :
  random.swap x i j = Some x' → x' ≡ₚ x.
Proof.
  unfold random.swap.
  destruct (x !! i) as [xi|] eqn:Hi; [|done].
  destruct (x !! j) as [xj|] eqn:Hj; [|done].
  intros [= <-].
  assert (<[i := xj]> x !! j = Some xj) as Hj'.
  { destruct (decide (i = j)) as [->|Hne].
    - apply list_lookup_insert_eq. by eapply lookup_lt_Some.
    - by rewrite list_lookup_insert_ne. }
  apply (Permutation_cons_inv (a := xj)).
  rewrite (insert_Permutation _ j xj xi Hj').
  by apply insert_Permutation.
Qed.

Lemma swap_is_Some {A} (x : list A) (i j : nat) :
  (i < length x)%nat → (j < length x)%nat → is_Some (random.swap x i j).
Proof.
  intros Hi Hj. unfold random.swap.
  destruct (lookup_lt_is_Some_2 x i Hi) as [xi ->].
  destruct (lookup_lt_is_Some_2 x j Hj) as [xj ->]. eauto.
Qed.

(** *** [shuffle], [choices] and [sample] *)

Lemma wp_shuffle_from {A} (i : nat) (x : list A) g :
  (i < length x ∨ i = 0)%nat →
  wp (random.shuffle_from i x) (λ r _, r ≡ₚ x) never g.
Proof.
  revert x g. induction i as [|i IH]; intros x g Hi; [by apply wp_ret|].
  simpl. apply wp_bind, wp_randbelow; [lia|]. intros j g' Hj.
  destruct (swap_is_Some x (S i) (Z.to_nat j)) as [x' Hx']; [lia..|].
  rewrite Hx'. pose proof (swap_Permutation _ _ _ _ Hx') as Hp.
  eapply wp_mono; [apply IH| |done].
  - rewrite (Permutation_length Hp). lia.
  - intros r ? Hr. simpl in *. by rewrite Hr.
Qed.

Lemma wp_shuffle {A} (x : list A) g :
  wp (random.shuffle x) (λ r _, r ≡ₚ x) never g.
Proof. apply wp_shuffle_from. destruct x; simpl; lia. Qed.

Lemma wp_choices {A} (population : list A) (k : Z) g :
  population ≠ [] →
  wp (random.choices population k)
     (λ r _, length r = Z.to_nat k ∧ ∀ v, v ∈ r → v ∈ population) never g.
Proof.
  intros Hne. unfold random.choices.
  assert (0 < Z.of_nat (length population)) as Hlen
    by (destruct population; [done|simpl; lia]).
  generalize (Z.to_nat k) as n. clear k. intros n. revert g.
  induction n as [|n IH]; intros g.
  - apply wp_ret. split; [done|]. by intros v ?%elem_of_nil.
  - simpl. apply wp_bind, wp_randbelow; [done|]. intros i g' Hi.
    destruct (lookup_lt_is_Some_2 population (Z.to_nat i)) as [x Hx]; [lia|].
    rewrite Hx. apply wp_bind. eapply wp_mono; [apply IH| |done].
    intros rest g'' [Hl Hin]. apply wp_ret. split; [simpl; lia|].
    intros v [->|?]%elem_of_cons; [|by auto].
    by eapply list_elem_of_lookup_2.
Qed.

Lemma wp_sample_loop {A} (k m : nat) (pool result population : list A) g :
  (k ≤ m)%nat → (m ≤ length pool)%nat →
  result ++ take m pool ≡ₚ population →
  wp (random.sample_loop k m pool result)
     (λ r _, r ⊆+ population ∧ length r = (length result + k)%nat) never g.
Proof.
  revert m pool result g.
  induction k as [|k IH]; intros m pool result g Hk Hm Hperm.
  - apply wp_ret. split; [|lia]. rewrite <- Hperm.
    by apply submseteq_inserts_r.
  - simpl. apply wp_bind, wp_randbelow; [lia|]. intros j g' Hj.
    destruct (lookup_lt_is_Some_2 pool (Z.to_nat j)) as [x Hx]; [lia|].
    destruct (lookup_lt_is_Some_2 pool (m - 1)) as [y Hy]; [lia|].
    rewrite Hx, Hy.
    eapply wp_mono; [apply IH| |done].
    + lia.
    + rewrite length_insert. lia.
    + rewrite <- Hperm, <- app_assoc. apply Permutation_app_head. simpl.
      replace m with (S (m - 1)) at 2 by lia.
      rewrite (take_S_r pool (m - 1) y Hy).
      rewrite <- Permutation_cons_append.
      destruct (decide (Z.to_nat j = m - 1)%nat) as [Heq|Hne].
      * rewrite Heq in *. rewrite take_insert_ge by lia.
        by replace y with x by congruence.
      * rewrite take_insert_lt by lia. apply insert_Permutation.
        rewrite lookup_take_lt by lia. done.
    + intros r ? [Hr Hl]. split; [done|]. rewrite Hl, length_app. simpl. lia.
Qed.

Lemma wp_sample {A} (population : list A) (k : Z) g :
  0 ≤ k ≤ Z.of_nat (length population) →
  wp (random.sample population k)
     (λ r _, r ⊆+ population ∧ length r = Z.to_nat k) never g.
Proof.
  intros Hk. unfold random.sample.
  destruct (Z.leb_spec 0 k); [|lia].
  destruct (Z.leb_spec k (Z.of_nat (length population))); [|lia]. simpl.
  eapply wp_mono; [apply (wp_sample_loop _ _ _ _ population)| |done].
  - lia.
  - done.
  - by rewrite firstn_all.
  - by intros r ? [? ?].
Qed.

(** ** The record synthesizer *)

Lemma wp_generate_random_entry execution_time id g :
  wp (generate_random_entry execution_time id)
     (λ e _, entry_spec execution_time id e) never g.
Proof.
  unfold generate_random_entry.
  apply wp_bind, wp_choice; [done|]. intros tt g1 Htt.
  apply wp_bind.
  apply (wp_mono _ (λ eid _, match id with
                             | Some i => eid = i
                             | None => ∃ n, 1 ≤ n ≤ 99999 ∧ eid = format_0d 5 n
                             end) _ never).
  { destruct id as [i|].
    - by apply wp_ret.
    - apply wp_bind, wp_randint; [lia|]. intros n g2 Hn.
      apply wp_ret. eauto. }
  2: done.
  intros eid g2 Heid.
  apply wp_bind, wp_randint; [lia|]. intros pid g3 _.
  apply wp_bind, wp_randint; [lia|]. intros sec g4 Hsec.
  apply wp_bind, wp_randint; [lia|]. intros gs g5 _.
  apply wp_bind, wp_uniform_rounded; [lia|]. intros lat g6 _.
  apply wp_bind, wp_uniform_rounded; [lia|]. intros lon g7 _.
  apply wp_bind, wp_uniform_rounded; [lia|]. intros acc g8 _.
  apply wp_ret. unfold entry_spec. simpl.
  split_and!; [|done|done|eauto|done].
  apply list_elem_of_In in Htt. destruct Htt as [<-|[<-|[]]]; auto.
Qed.

(** C1. Every call of the record synthesizer returns a record (it never
    raises), and the transaction type of that record is one of the two
    values of the enumeration: ["BON"] (on) or ["BOF"] (off). *)
Theorem transaction_type_on_or_off execution_time id g :
  ∃ e g', generate_random_entry execution_time id g = (Ok e, g')
          ∧ (transaction_type e = "BON" ∨ transaction_type e = "BOF").
Proof.
  apply wp_ok. eapply wp_mono; [apply wp_generate_random_entry| |done].
  by intros e _ [? _].
Qed.

(** ** The batch composer *)

Lemma wp_compose_collar_ids G num_entries g :
  wp (compose_collar_ids G num_entries)
     (λ c _, composition_spec G num_entries c) never g.
Proof.
  unfold compose_collar_ids, composition_spec.
  destruct (VALID_COLLAR_IDS G) as [|v0 vs] eqn:HV; [by apply wp_ret|].
  rewrite <- HV. assert (VALID_COLLAR_IDS G ≠ []) as Hne by congruence.
  clear HV v0 vs.
  apply wp_bind, wp_randint; [lia|]. intros uc g1 Huc.
  apply wp_bind.
  apply (wp_mono _ (λ us _, us ⊆+ UNKNOWN_COLLAR_IDS G
            ∧ Z.of_nat (length us)
              = Z.min uc (Z.of_nat (length (UNKNOWN_COLLAR_IDS G)))) _ never).
  { destruct (Z.ltb_spec 0 uc) as [Hpos|Hz]; simpl.
    - case_bool_decide as HU; simpl.
      + apply wp_ret. rewrite HU. split; [done|simpl; lia].
      + eapply wp_mono; [apply wp_sample; lia| |done].
        intros us ? [Hs Hl]. split; [done|]. rewrite Hl. lia.
    - apply wp_ret. split; [apply submseteq_nil_l|simpl; lia]. }
  2: done.
  intros us g2 [Hus Hlen].
  apply wp_bind.
  apply (wp_mono _ (λ vs _, (∀ v, v ∈ vs → v ∈ VALID_COLLAR_IDS G)
            ∧ Z.of_nat (length vs)
              = Z.max 0 (num_entries - Z.of_nat (length us))) _ never).
  { destruct (Z.ltb_spec 0 (num_entries - Z.of_nat (length us))).
    - eapply wp_mono; [by apply wp_choices| |done].
      intros vs ? [Hl Hin]. split; [done|]. rewrite Hl. lia.
    - apply wp_ret. split; [by intros v ?%elem_of_nil|simpl; lia]. }
  2: done.
  intros vs g3 [Hvs Hvlen].
  apply wp_bind. eapply wp_mono; [apply wp_shuffle| |done].
  intros ids ? Hperm. by apply wp_ret.
Qed.

Lemma wp_write_rows n i execution_time ids fault written g :
  wp (write_rows n i execution_time ids fault written)
     (λ '(ok, w) _, ∃ new,
        w = written ++ new
        ∧ (∀ k e, new !! k = Some e →
                  entry_spec execution_time (ids !! (i + k)%nat) e)
        ∧ (if ok then length new = n
                      ∧ ∀ j, fault = WriteFails j → ¬ (i ≤ j < i + n)%nat
           else ∃ j, fault = WriteFails j ∧ (i ≤ j < i + n)%nat
                     ∧ length new = (j - i)%nat))
     never g.
Proof.
  revert i written g. induction n as [|n IH]; intros i written g.
  - apply wp_ret. exists []. rewrite app_nil_r. split_and!; try done.
    intros; lia.
  - simpl. apply wp_bind.
    eapply wp_mono; [apply wp_generate_random_entry| |done].
    intros e g' He. simpl. case_bool_decide as Hf.
    + apply wp_ret. exists []. rewrite app_nil_r. split_and!; try done.
      exists i. split; [done|]. split; [lia|simpl; lia].
    + eapply wp_mono; [apply IH| |done].
      intros [ok w] ? (new & -> & Hnew & Hok). exists (e :: new).
      rewrite <- app_assoc. split_and!; [done| |].
      * intros [|k] e' Hk; simpl in Hk.
        -- injection Hk as <-. by rewrite Nat.add_0_r.
        -- replace (i + S k)%nat with (S i + k)%nat by lia. by apply Hnew.
      * destruct ok.
        -- destruct Hok as [Hl Hj]. split; [simpl; lia|].
           intros j Hfj Hij. destruct (decide (j = i)) as [->|]; [done|].
           apply (Hj j Hfj). lia.
        -- destruct Hok as (j & Hfj & Hij & Hl). exists j.
           split; [done|]. split; [lia|simpl; lia].
Qed.

Lemma wp_create_bobo_csv G cfg run_counter execution_time fault g :
  wp (create_bobo_csv G cfg run_counter execution_time fault)
     (λ b _, batch_spec G cfg execution_time fault b)
     (λ e _, e = ValueError ∧ MAX_ENTRIES cfg < MIN_ENTRIES cfg) g.
Proof.
  unfold create_bobo_csv.
  destruct (Z.le_gt_cases (MIN_ENTRIES cfg) (MAX_ENTRIES cfg)) as [Hle|Hgt].
  2: { cbv [wp mbind M_bind bind]. rewrite randint_empty by lia.
       split; [done|lia]. }
  apply wp_bind, wp_randint; [done|]. intros num_entries g1 Hnum.
  apply wp_bind.
  eapply wp_mono; [apply wp_compose_collar_ids| |done].
  intros c g2 Hc. simpl. case_bool_decide as Hopen.
  { apply wp_ret. exists num_entries. simpl.
    split_and!; try done; try lia. by rewrite Hopen. }
  apply wp_bind.
  eapply wp_mono; [apply wp_write_rows| |done].
  intros [ok w] g3 (new & -> & Hnew & Hok). simpl in *.
  destruct ok; simpl.
  - destruct Hok as [Hl Hj]. case_bool_decide as Hclose; simpl.
    + apply wp_ret. exists num_entries. simpl.
      split_and!; try done; try lia. by rewrite Hclose.
    + apply wp_ret. exists num_entries. simpl.
      split_and!; try done; try lia.
      destruct fault as [| |j|]; simpl; [tauto|congruence| |congruence].
      intros Hlt. apply (Hj j eq_refl). lia.
  - destruct Hok as (j & Hfj & Hij & Hl).
    apply wp_ret. exists num_entries. simpl.
    split_and!; try done; try lia. rewrite Hfj. simpl. lia.
Qed.

(** What holds of every batch that [create_bobo_csv] returns. *)
Lemma create_bobo_csv_spec G cfg run_counter execution_time fault g b g' :
  create_bobo_csv G cfg run_counter execution_time fault g = (Ok b, g') →
  batch_spec G cfg execution_time fault b.
Proof.
  intros Hrun.
  exact (wp_inv _ _ _ _ _ _
           (wp_create_bobo_csv G cfg run_counter execution_time fault g) Hrun).
Qed.

(** The call returns a batch whenever the configured range of entry
    counts is not empty. *)
Lemma create_bobo_csv_returns G cfg run_counter execution_time fault g :
  MIN_ENTRIES cfg ≤ MAX_ENTRIES cfg →
  ∃ b g', create_bobo_csv G cfg run_counter execution_time fault g
          = (Ok b, g').
Proof.
  intros Hle.
  pose proof (wp_create_bobo_csv G cfg run_counter execution_time fault g)
    as Hwp.
  unfold wp in Hwp.
  destruct (create_bobo_csv _ _ _ _ _ _) as [[b|e] g']; [eauto|lia].
Qed.

(** ** Strings *)

Lemma append_nil_l (b : string) : "" +:+ b = b.
Proof. reflexivity. Qed.

Lemma append_cons (c : ascii) (a b : string) :
  String c a +:+ b = String c (a +:+ b).
Proof. reflexivity. Qed.

Lemma length_append (a b : string) :
  String.length (a +:+ b) = (String.length a + String.length b)%nat.
Proof.
  induction a as [|c a IH]; [done|].
  rewrite append_cons. simpl. by rewrite IH.
Qed.

Lemma length_zeros k : String.length (zeros k) = k.
Proof. induction k as [|k IH]; simpl; [done|by rewrite IH]. Qed.

(** The width of the format is a minimum. *)
Lemma format_0d_length w n : (w ≤ String.length (format_0d w n))%nat.
Proof.
  unfold format_0d. destruct (n <? 0); simpl;
    rewrite length_append, length_zeros; lia.
Qed.

Lemma substring_prefix (k : nat) (a b : string) :
  (k ≤ String.length a)%nat → substring 0 k (a +:+ b) = substring 0 k a.
Proof.
  revert k. induction a as [|c a IH]; intros [|k] Hk;
    rewrite ?append_cons, ?append_nil_l; simpl in *; try done; try lia.
  - by destruct b.
  - rewrite IH; [done|lia].
Qed.

Lemma substring_all (a : string) : substring 0 (String.length a) a = a.
Proof. induction a as [|c a IH]; simpl; [done|by rewrite IH]. Qed.

Lemma append_assoc (a b c : string) : (a +:+ b) +:+ c = a +:+ b +:+ c.
Proof.
  induction a as [|x a IH]; [done|]. by rewrite !append_cons, IH.
Qed.

(** Two digits for the hours, minutes and seconds of a clock. *)
Lemma format_02d_length n :
  0 ≤ n ≤ 99 → String.length (format_0d 2 n) = 2%nat.
Proof.
  intros Hn.
  assert (forallb (λ n, Nat.eqb (String.length (format_0d 2 n)) 2)
            (seqZ 0 100) = true) as Hall by (vm_compute; reflexivity).
  rewrite forallb_forall in Hall. apply Nat.eqb_eq, Hall.
  apply list_elem_of_In, elem_of_seqZ. lia.
Qed.

(** ** One date and one minute per batch *)

(** C7. In every batch that [create_bobo_csv] returns, whatever the
    state, the configuration, the faults and the generator: any two
    records written to the file have the same [clocking_date], the one of
    the reference time of the batch, and clocking times that start with the
    same four characters; each clocking time is the hour and the minute of
    the reference time followed by a two-digit second between 0 and 59,
    so that only the seconds can differ.  For an hour and a minute of two
    digits the four characters are exactly [HHMM]. *)
Theorem batch_shares_date_and_minute
    G cfg run_counter execution_time fault g b g' i1 i2 e1 e2 :
  create_bobo_csv G cfg run_counter execution_time fault g = (Ok b, g') →
  rows b !! i1 = Some e1 →
  rows b !! i2 = Some e2 →
  let HHMM := format_0d 2 (hour execution_time)
                +:+ format_0d 2 (minute execution_time) in
  clocking_date e1 = strftime_Ymd execution_time
  ∧ clocking_date e1 = clocking_date e2
  ∧ substring 0 4 (clocking_time e1) = substring 0 4 (clocking_time e2)
  ∧ (∃ s1, 0 ≤ s1 ≤ 59 ∧ clocking_time e1 = HHMM +:+ format_0d 2 s1)
  ∧ (0 ≤ hour execution_time ≤ 23 → 0 ≤ minute execution_time ≤ 59 →
     substring 0 4 (clocking_time e1) = HHMM).
Proof.
  intros Hrun H1 H2 HHMM.
  destruct (create_bobo_csv_spec _ _ _ _ _ _ _ _ Hrun)
    as (num & _ & _ & Hrows & _).
  destruct (Hrows _ _ H1) as (_ & _ & Hd1 & (s1 & Hs1 & Ht1) & _).
  destruct (Hrows _ _ H2) as (_ & _ & Hd2 & (s2 & Hs2 & Ht2) & _).
  assert (∀ s, substring 0 4 (HHMM +:+ format_0d 2 s) = substring 0 4 HHMM)
    as Hpre.
  { intros s. apply substring_prefix. unfold HHMM. rewrite length_append.
    pose proof (format_0d_length 2 (hour execution_time)).
    pose proof (format_0d_length 2 (minute execution_time)). lia. }
  rewrite <- append_assoc in Ht1, Ht2. fold HHMM in Ht1, Ht2.
  split_and!.
  - done.
  - congruence.
  - by rewrite Ht1, Ht2, !Hpre.
  - eauto.
  - intros Hh Hm. rewrite Ht1, Hpre.
    replace 4%nat with (String.length HHMM); [apply substring_all|].
    unfold HHMM. rewrite length_append, !format_02d_length; [done|lia..].
Qed.

Lemma batch_shares_date_and_minute_witness :
  ∃ b g' e1 e2,
    create_bobo_csv G0 cfg0 1 t0 NoFault g0 = (Ok b, g')
    ∧ rows b !! 0%nat = Some e1
    ∧ rows b !! 1%nat = Some e2
    ∧ clocking_date e1 = "20261104"
    ∧ clocking_date e1 = clocking_date e2
    ∧ substring 0 4 (clocking_time e1) = substring 0 4 (clocking_time e2)
    ∧ (∃ s1, 0 ≤ s1 ≤ 59 ∧ clocking_time e1 = "0905" +:+ format_0d 2 s1)
    ∧ (0 ≤ hour t0 ≤ 23 → 0 ≤ minute t0 ≤ 59 →
       substring 0 4 (clocking_time e1) = "0905").
Proof.
  eexists _, _, _, _.
  split; [vm_compute; reflexivity|].
  split; [reflexivity|]. split; [reflexivity|].
  eapply (batch_shares_date_and_minute G0 cfg0 1 t0 NoFault g0 _ _ 0 1);
    [vm_compute; reflexivity|reflexivity|reflexivity].
Defined.

(** ** [int] reads back what the format writes *)

Lemma digit_val_digit_char d :
  (d < 10)%N → digit_val (digit_char d) = Some (Z.of_N d).
Proof.
  intros Hd. rewrite <- (N2Nat.id d).
  assert (N.to_nat d < 10)%nat as Hn by lia. revert Hn.
  generalize (N.to_nat d) as k. intros k Hk.
  do 10 (destruct k as [|k]; [reflexivity|]). lia.
Qed.

Lemma is_digit_digit_char d : (d < 10)%N → is_digit (digit_char d) = true.
Proof. intros Hd. unfold is_digit. by rewrite digit_val_digit_char. Qed.

Lemma is_digit_not_space c : is_digit c = true → is_space c = false.
Proof.
  unfold is_digit, digit_val, is_space.
  destruct (N.leb_spec 48 (N_of_ascii c)); simpl; [|done].
  destruct (N.leb_spec (N_of_ascii c) 57); simpl; [|done]. intros _.
  destruct (N.leb_spec (N_of_ascii c) 13); [lia|].
  destruct (N.leb_spec (N_of_ascii c) 32); [lia|].
  by rewrite !andb_false_r.
Qed.

Lemma all_chars_append P a b :
  all_chars P (a +:+ b) = all_chars P a && all_chars P b.
Proof.
  induction a as [|c a IH]; [done|].
  rewrite append_cons. simpl. by rewrite IH, andb_assoc.
Qed.

Lemma all_chars_zeros k : all_chars is_digit (zeros k) = true.
Proof. induction k as [|k IH]; [done|]. simpl. by rewrite IH. Qed.

Lemma all_chars_dec_digits fuel n acc :
  all_chars is_digit acc = true →
  all_chars is_digit (dec_digits fuel n acc) = true.
Proof.
  revert n acc. induction fuel as [|fuel IH]; intros n acc Hacc; [done|].
  simpl.
  assert (all_chars is_digit (String (digit_char (n mod 10)) acc) = true)
    as Hacc'.
  { simpl. rewrite Hacc, is_digit_digit_char; [done|].
    by apply N.mod_lt. }
  destruct (n / 10 =? 0)%N; [done|]. by apply IH.
Qed.

(** Stripping does nothing to a string without white space. *)
Lemma lstrip_no_space s :
  all_chars (λ c, negb (is_space c)) s = true → lstrip s = s.
Proof.
  destruct s as [|c s]; [done|]. simpl.
  by destruct (is_space c).
Qed.

Lemma rstrip_no_space s :
  all_chars (λ c, negb (is_space c)) s = true → rstrip s = s.
Proof.
  induction s as [|c s IH]; [done|]. simpl.
  intros [Hc Hs]%andb_true_iff. rewrite (IH Hs).
  destruct s; [|done]. by destruct (is_space c).
Qed.

Lemma strip_no_space s :
  all_chars (λ c, negb (is_space c)) s = true → strip s = s.
Proof.
  intros Hs. unfold strip. by rewrite lstrip_no_space, rstrip_no_space.
Qed.

Lemma all_chars_impl (P Q : ascii → bool) s :
  (∀ c, P c = true → Q c = true) →
  all_chars P s = true → all_chars Q s = true.
Proof.
  intros HPQ. induction s as [|c s IH]; [done|]. simpl.
  intros [Hc Hs]%andb_true_iff. by rewrite (HPQ c Hc), IH.
Qed.

Lemma digits_no_space s :
  all_chars is_digit s = true →
  all_chars (λ c, negb (is_space c)) s = true.
Proof.
  apply all_chars_impl. intros c Hc. by rewrite is_digit_not_space.
Qed.

(** Leading zeros do not change the value read. *)
Lemma parse_digits_zeros k s p :
  parse_digits (zeros k +:+ s) 0 p
  = parse_digits s 0 (if k is O then p else true).
Proof.
  revert p. induction k as [|k IH]; intros p; [done|].
  simpl zeros. rewrite append_cons. simpl. rewrite IH. by destruct k.
Qed.

(** The digits written for [n] read back as [n]. *)
Lemma parse_digits_dec_digits fuel n rest p :
  (n < 10 ^ N.of_nat (S fuel))%N →
  parse_digits (dec_digits (S fuel) n rest) 0 p
  = parse_digits rest (Z.of_N n) true.
Proof.
  revert n rest p.
  induction fuel as [|fuel IH]; intros n rest p Hn;
    assert (n mod 10 < 10)%N as Hmod by (by apply N.mod_lt);
    assert (Z.of_N n = 10 * Z.of_N (n / 10) + Z.of_N (n mod 10)) as Hdiv
      by (rewrite (N.div_mod n 10) at 1 by done; lia).
  - assert (n / 10 = 0)%N as Hz by (apply N.div_small; simpl in Hn; lia).
    simpl. rewrite Hz. simpl. rewrite digit_val_digit_char by done.
    by rewrite Hdiv, Hz.
  - cbn [dec_digits]. destruct (N.eqb_spec (n / 10) 0) as [Hz|Hnz].
    + simpl. rewrite digit_val_digit_char by done. by rewrite Hdiv, Hz.
    + change (parse_digits
                (dec_digits (S fuel) (n / 10)
                   (String (digit_char (n mod 10)) rest)) 0 p
              = parse_digits rest (Z.of_N n) true).
      rewrite IH.
      * simpl. rewrite digit_val_digit_char by done. by rewrite Hdiv.
      * apply N.Div0.div_lt_upper_bound.
        replace (N.of_nat (S (S fuel))) with (N.succ (N.of_nat (S fuel)))
          in Hn by lia.
        by rewrite N.pow_succ_r' in Hn.
Qed.

Lemma str_of_N_fuel n : (n < 10 ^ N.of_nat (S (N.to_nat (N.log2 n))))%N.
Proof.
  replace (N.of_nat (S (N.to_nat (N.log2 n)))) with (N.succ (N.log2 n))
    by lia.
  destruct (N.eq_dec n 0%N) as [->|Hn]; [done|].
  eapply N.lt_le_trans; [apply N.log2_spec; lia|].
  apply N.pow_le_mono_l. lia.
Qed.

Lemma parse_digits_str_of_N n p :
  parse_digits (str_of_N n) 0 p = Some (Z.of_N n).
Proof.
  unfold str_of_N. rewrite parse_digits_dec_digits by apply str_of_N_fuel.
  done.
Qed.

Lemma all_chars_str_of_N n : all_chars is_digit (str_of_N n) = true.
Proof. by apply all_chars_dec_digits. Qed.

(** [int(f"{n:0<w>d}") == n], for every integer and every width. *)
Lemma py_int_format_0d w n : py_int (format_0d w n) = Some n.
Proof.
  unfold format_0d, py_int.
  pose proof (all_chars_str_of_N (Z.abs_N n)) as Hds.
  destruct (Z.ltb_spec n 0) as [Hneg|Hpos].
  - rewrite strip_no_space.
    + simpl. rewrite parse_digits_zeros.
      rewrite (parse_digits_str_of_N (Z.abs_N n)). simpl. f_equal. lia.
    + simpl. apply digits_no_space.
      by rewrite all_chars_append, all_chars_zeros, Hds.
  - assert (all_chars is_digit (zeros (w - String.length (str_of_N (Z.abs_N n)))
                                +:+ str_of_N (Z.abs_N n)) = true) as Hall
      by (by rewrite all_chars_append, all_chars_zeros, Hds).
    rewrite strip_no_space by by apply digits_no_space.
    pose proof (parse_digits_zeros
                  (w - String.length (str_of_N (Z.abs_N n)))
                  (str_of_N (Z.abs_N n)) false) as Hparse.
    rewrite parse_digits_str_of_N in Hparse.
    destruct (zeros _ +:+ _) as [|c s] eqn:Hs; [done|].
    simpl in Hall. apply andb_true_iff in Hall as [Hc _].
    destruct (Ascii.eqb_spec c "-") as [->|_]; [done|].
    destruct (Ascii.eqb_spec c "+") as [->|_]; [done|].
    rewrite Hparse. f_equal. lia.
Qed.

(** ** The unknown-ID pool *)

Lemma randint_eq lo hi g :
  lo ≤ hi →
  ∃ v, lo ≤ v ≤ hi ∧ random.randint lo hi g = (Ok v, advance 1 g).
Proof.
  intros Hle. unfold random.randint.
  destruct (Z.ltb_spec 0 (hi - lo + 1)); [|lia].
  exists (lo + tape g (pos g) mod (hi - lo + 1)). split.
  - pose proof (Z.mod_pos_bound (tape g (pos g)) (hi - lo + 1)). lia.
  - cbv [mbind M_bind bind random.randbelow next_raw mret M_ret ret advance].
    do 3 f_equal. lia.
Qed.

Lemma advance_advance n m g : advance n (advance m g) = advance (m + n) g.
Proof. unfold advance. simpl. f_equal. lia. Qed.

Lemma length_band_draws n lo hi g :
  lo ≤ hi → length (band_draws n lo hi g) = n.
Proof.
  intros Hle. revert g. induction n as [|n IH]; intros g; [done|].
  simpl. destruct (randint_eq lo hi g Hle) as (v & _ & ->).
  simpl. by rewrite IH.
Qed.

Lemma band_draws_bounds n lo hi g v :
  lo ≤ hi → v ∈ band_draws n lo hi g → lo ≤ v ≤ hi.
Proof.
  intros Hle. revert g. induction n as [|n IH]; intros g.
  - by intros ?%elem_of_nil.
  - simpl. destruct (randint_eq lo hi g Hle) as (v' & Hv' & ->).
    intros [->|Hin]%elem_of_cons; [done|]. by eapply IH.
Qed.

(** One band: every draw that is not a valid integer is appended, in the
    order drawn; a draw that collides is dropped and not replaced. *)
Lemma sample_band_eq n lo hi (valid_ids_set : gset Z) pool g :
  lo ≤ hi →
  sample_band n lo hi valid_ids_set pool g
  = (Ok (pool ++ (format_0d 5 <$>
                    filter (λ x, x ∉ valid_ids_set) (band_draws n lo hi g))),
     advance n g).
Proof.
  intros Hle. revert pool g. induction n as [|n IH]; intros pool g.
  - simpl. rewrite app_nil_r. unfold advance.
    destruct g as [t p]. simpl. do 2 f_equal. lia.
  - simpl. cbv [mbind M_bind bind].
    destruct (randint_eq lo hi g Hle) as (v & _ & ->).
    rewrite filter_cons. destruct (decide (v ∈ valid_ids_set)) as [Hin|Hout].
    + rewrite decide_False by tauto. rewrite IH, advance_advance. done.
    + rewrite decide_True by done. rewrite IH, advance_advance.
      by rewrite <- app_assoc.
Qed.

Lemma elem_of_valid_ids_set_of ids acc n :
  n ∈ valid_ids_set_of ids acc
  ↔ n ∈ acc ∨ ∃ v, v ∈ ids ∧ py_int v = Some n.
Proof.
  revert acc. induction ids as [|v ids IH]; intros acc; simpl.
  - split; [auto|]. intros [?|(v & ?%elem_of_nil & _)]; done.
  - destruct (py_int v) as [m|] eqn:Hv; rewrite IH; split.
    + intros [[?| ->%elem_of_singleton]%elem_of_union|(v' & ? & ?)].
      * auto.
      * right. exists v. split; [left|done].
      * right. exists v'. split; [by right|done].
    + intros [?|(v' & [->|?]%elem_of_cons & Hv')].
      * left. apply elem_of_union. by left.
      * left. rewrite Hv in Hv'. injection Hv' as ->.
        apply elem_of_union. right. by apply elem_of_singleton.
      * right. eauto.
    + intros [?|(v' & ? & ?)]; [auto|].
      right. exists v'. split; [by right|done].
    + intros [?|(v' & [->|?]%elem_of_cons & Hv')]; [auto|congruence|eauto].
Qed.

(** What the pool builder returns when there are valid IDs. *)
Lemma generate_unknown_collar_ids_eq G g :
  VALID_COLLAR_IDS G ≠ [] →
  generate_unknown_collar_ids G g
  = (Ok (mkGlobals (VALID_COLLAR_IDS G)
           (format_0d 5 <$>
              filter (λ x, x ∉ valid_ids_set_of (VALID_COLLAR_IDS G) ∅)
                (unknown_draws g))),
     advance 40 g).
Proof.
  intros Hne. unfold generate_unknown_collar_ids.
  destruct (VALID_COLLAR_IDS G) as [|v0 vs] eqn:HV; [done|].
  rewrite <- HV. clear HV v0 vs Hne.
  cbv [mbind M_bind bind].
  rewrite !sample_band_eq by lia. rewrite !advance_advance. simpl app.
  unfold unknown_draws. rewrite !filter_app, !fmap_app, <- !app_assoc.
  done.
Qed.

Lemma generate_unknown_collar_ids_nil G g :
  VALID_COLLAR_IDS G = [] → generate_unknown_collar_ids G g = (Ok G, g).
Proof. intros HV. unfold generate_unknown_collar_ids. by rewrite HV. Qed.

Lemma length_unknown_draws g : length (unknown_draws g) = 40%nat.
Proof.
  unfold unknown_draws. rewrite !length_app, !length_band_draws by lia. done.
Qed.

Lemma length_filter_split {A} (P : A → Prop) `{∀ x, Decision (P x)}
    (l : list A) :
  (length (filter P l) + length (filter (λ x, ¬ P x) l))%nat = length l.
Proof.
  induction l as [|x l IH]; [done|].
  rewrite !filter_cons. destruct (decide (P x)).
  - rewrite decide_False by tauto. simpl. lia.
  - rewrite decide_True by done. simpl. lia.
Qed.

(** C2, as stated, fails: with the one valid ID 00100, a run whose draws
    are all the lowest of their band loses the twenty draws of the third
    band to collisions and ends with 20 unknown IDs, none from that band;
    a run whose draws avoid the valid ID ends with 40. *)
Lemma unknown_pool_size_varies :
  VALID_COLLAR_IDS G_one ≠ []
  ∧ ∃ G1 G2,
      fst (generate_unknown_collar_ids G_one g_zeros) = Ok G1
      ∧ fst (generate_unknown_collar_ids G_one g_ones) = Ok G2
      ∧ length (UNKNOWN_COLLAR_IDS G1) = 20%nat
      ∧ length (UNKNOWN_COLLAR_IDS G2) = 40%nat.
Proof.
  split; [done|]. eexists _, _.
  split; [vm_compute; reflexivity|]. split; [vm_compute; reflexivity|].
  split; reflexivity.
Qed.

(** C2, amended. For every non-empty list of valid IDs the pool builder
    returns, leaves the valid IDs as they are, and makes exactly forty
    draws: ten in 1..99, ten in 12001..15000 and twenty in 100..12000.  The
    pool is made of the draws that are not the integer of a valid ID, in the
    order drawn; a colliding draw is dropped and not replaced.  So the size
    of the pool is forty minus the number of colliding draws: at most
    forty, and forty exactly when there is no collision. *)
Theorem unknown_pool_size G g :
  VALID_COLLAR_IDS G ≠ [] →
  let valid_ids_set := valid_ids_set_of (VALID_COLLAR_IDS G) ∅ in
  ∃ G' g',
    generate_unknown_collar_ids G g = (Ok G', g')
    ∧ VALID_COLLAR_IDS G' = VALID_COLLAR_IDS G
    ∧ UNKNOWN_COLLAR_IDS G'
      = format_0d 5 <$> filter (λ x, x ∉ valid_ids_set) (unknown_draws g)
    ∧ length (unknown_draws g) = 40%nat
    ∧ (length (UNKNOWN_COLLAR_IDS G')
       + length (filter (λ x, x ∈ valid_ids_set) (unknown_draws g)))%nat
      = 40%nat
    ∧ (length (UNKNOWN_COLLAR_IDS G') ≤ 40)%nat.
Proof.
  intros Hne S. rewrite generate_unknown_collar_ids_eq by done.
  eexists _, _. split; [reflexivity|].
  cbn [VALID_COLLAR_IDS UNKNOWN_COLLAR_IDS]. fold S.
  split; [done|]. split; [done|]. split; [apply length_unknown_draws|].
  rewrite length_fmap.
  pose proof (length_filter_split (λ x, x ∈ S) (unknown_draws g)) as Hsplit.
  rewrite length_unknown_draws in Hsplit.
  split; lia.
Qed.

Lemma unknown_pool_size_witness :
  VALID_COLLAR_IDS G_one ≠ []
  ∧ ∃ G' g',
      generate_unknown_collar_ids G_one g_zeros = (Ok G', g')
      ∧ VALID_COLLAR_IDS G' = VALID_COLLAR_IDS G_one
      ∧ UNKNOWN_COLLAR_IDS G'
        = format_0d 5 <$>
            filter (λ x, x ∉ valid_ids_set_of (VALID_COLLAR_IDS G_one) ∅)
              (unknown_draws g_zeros)
      ∧ length (unknown_draws g_zeros) = 40%nat
      ∧ (length (UNKNOWN_COLLAR_IDS G')
         + length (filter
                     (λ x, x ∈ valid_ids_set_of (VALID_COLLAR_IDS G_one) ∅)
                     (unknown_draws g_zeros)))%nat
        = 40%nat
      ∧ (length (UNKNOWN_COLLAR_IDS G') ≤ 40)%nat.
Proof.
  assert (VALID_COLLAR_IDS G_one ≠ []) as Hne by (simpl; congruence).
  split; [exact Hne|]. exact (unknown_pool_size G_one g_zeros Hne).
Defined.

(** ** The pools are disjoint *)

Lemma startup_eq f g :
  let (loaded, G) := load_valid_collar_ids initial_globals f in
  UNKNOWN_COLLAR_IDS G = []
  ∧ startup f g
    = if loaded && negb (bool_decide (VALID_COLLAR_IDS G = []))
      then (Ok (mkGlobals (VALID_COLLAR_IDS G)
                  (format_0d 5 <$>
                     filter (λ x, x ∉ valid_ids_set_of (VALID_COLLAR_IDS G) ∅)
                       (unknown_draws g))),
            advance 40 g)
      else (Ok G, g).
Proof.
  unfold startup.
  destruct (load_valid_collar_ids initial_globals f) as [loaded G] eqn:Hload.
  assert (UNKNOWN_COLLAR_IDS G = []) as HU.
  { destruct f as [| |[|[row|e] events]]; simpl in Hload;
      try (by injection Hload as _ <-).
    destruct (load_rows events []). by injection Hload as _ <-. }
  split; [done|]. destruct loaded; simpl; [|done].
  case_bool_decide as HV; simpl.
  - by apply generate_unknown_collar_ids_nil.
  - by apply generate_unknown_collar_ids_eq.
Qed.

Lemma unknown_not_valid (valid : list string) (draws : list Z) u v :
  u ∈ format_0d 5 <$> filter (λ x, x ∉ valid_ids_set_of valid ∅) draws →
  v ∈ valid →
  u ≠ v ∧ py_int u ≠ py_int v.
Proof.
  intros (n & -> & [Hn _]%list_elem_of_filter)%list_elem_of_fmap Hv.
  rewrite elem_of_valid_ids_set_of in Hn.
  assert (py_int v ≠ Some n) as Hvn.
  { intros Hvn. apply Hn. right. eauto. }
  rewrite py_int_format_0d. split; [|congruence].
  intros <-. by rewrite py_int_format_0d in Hvn.
Qed.

Lemma startup_pools_disjoint f g G g' :
  startup f g = (Ok G, g') → pools_disjoint G.
Proof.
  pose proof (startup_eq f g) as Heq.
  destruct (load_valid_collar_ids initial_globals f) as [loaded G1].
  destruct Heq as [HU ->].
  destruct (loaded && _).
  - intros [= <- _] u v Hu Hv. simpl in *. by eapply unknown_not_valid.
  - intros [= <- _] u v Hu Hv. rewrite HU in Hu. by apply elem_of_nil in Hu.
Qed.

(** C4. Whatever the roster file and the generator, in the state that the
    start of [main] leaves (the roster loaded, and the unknown pool built
    from it), no unknown ID is a valid ID: a member of the unknown pool and
    a member of the valid list are different strings, and [int] does not
    give them the same integer. *)
Theorem unknown_pool_disjoint_from_valid f g G g' u v :
  startup f g = (Ok G, g') →
  u ∈ UNKNOWN_COLLAR_IDS G →
  v ∈ VALID_COLLAR_IDS G →
  u ≠ v ∧ py_int u ≠ py_int v.
Proof. intros Hs. by apply (startup_pools_disjoint f g G g'). Qed.

Lemma unknown_pool_disjoint_from_valid_witness :
  ∃ G g',
    startup roster0 g0 = (Ok G, g')
    ∧ "00002" ∈ UNKNOWN_COLLAR_IDS G
    ∧ "00100" ∈ VALID_COLLAR_IDS G
    ∧ "00002" ≠ "00100" ∧ py_int "00002" ≠ py_int "00100".
Proof.
  eexists _, _.
  split; [vm_compute; reflexivity|].
  split; [by left|]. split; [by left|].
  eapply (unknown_pool_disjoint_from_valid roster0 g0 _ _ "00002" "00100");
    [vm_compute; reflexivity|by left|by left].
Defined.

(** ** The IDs of a batch *)

(** With valid IDs at hand, the rows take their IDs from
    [collar_ids_to_use], in order: the list is never too short, so the
    random fallback of the row loop is not reached. *)
Lemma batch_ids_prefix G cfg execution_time fault b :
  VALID_COLLAR_IDS G ≠ [] →
  batch_spec G cfg execution_time fault b →
  employee_id <$> rows b
  = take (length (rows b)) (collar_ids_to_use (ids b)).
Proof.
  intros Hne (num & _ & Hc & Hrows & Hlen & _).
  unfold composition_spec in Hc.
  destruct (VALID_COLLAR_IDS G) as [|v0 vs]; [done|].
  destruct Hc as (_ & _ & _ & _ & Hvl & Hperm).
  assert (length (rows b) ≤ length (collar_ids_to_use (ids b)))%nat as Hle.
  { rewrite (Permutation_length Hperm), length_app. lia. }
  apply list_eq. intros i. rewrite list_lookup_fmap.
  destruct (rows b !! i) as [e|] eqn:He; simpl.
  - pose proof (lookup_lt_Some _ _ _ He) as Hi.
    rewrite lookup_take_lt by done.
    destruct (lookup_lt_is_Some_2 (collar_ids_to_use (ids b)) i) as [id Hid];
      [lia|].
    pose proof (Hrows i e He) as (_ & Heid & _). rewrite Hid in Heid |- *.
    by rewrite Heid.
  - symmetry. apply lookup_ge_None. rewrite length_take.
    apply lookup_ge_None in He. lia.
Qed.

Lemma submseteq_NoDup {A} (l k : list A) : l ⊆+ k → NoDup k → NoDup l.
Proof.
  intros [k' Hk]%submseteq_Permutation. rewrite Hk.
  by intros [? _]%NoDup_app.
Qed.

Lemma submseteq_length_filter {A} (P : A → Prop) `{∀ x, Decision (P x)}
    (l k : list A) :
  l ⊆+ k → (length (filter P l) ≤ length (filter P k))%nat.
Proof.
  intros [k' Hk]%submseteq_Permutation.
  rewrite Hk, filter_app, length_app. lia.
Qed.

Lemma filter_none {A} (P : A → Prop) `{∀ x, Decision (P x)} (l : list A) :
  (∀ x, x ∈ l → ¬ P x) → filter P l = [].
Proof.
  induction l as [|x l IH]; intros Hl; [done|].
  rewrite filter_cons, decide_False by (apply Hl; left).
  apply IH. intros y Hy. apply Hl. by right.
Qed.

(** C6. In every state that the start of [main] leaves with a non-empty
    valid list, and for every batch that [create_bobo_csv] returns there
    (any configuration, clock, fault and generator): the number of rows
    whose [employee_id] is in the unknown pool is at most
    [min(2, len(UNKNOWN_COLLAR_IDS))]; every other [employee_id] is in the
    valid list; and the IDs of the rows are the first entries of
    [collar_ids_to_use], a reordering (the shuffle) of the sampled unknown
    IDs followed by valid IDs drawn one by one from the valid list, with
    repeats allowed. *)
Theorem batch_unknown_ids_bounded
    f g_start G g1 cfg run_counter execution_time fault g b g' :
  startup f g_start = (Ok G, g1) →
  VALID_COLLAR_IDS G ≠ [] →
  create_bobo_csv G cfg run_counter execution_time fault g = (Ok b, g') →
  let batch_ids := employee_id <$> rows b in
  (0 ≤ length (filter (λ id, id ∈ UNKNOWN_COLLAR_IDS G) batch_ids)
     ≤ 2 `min` length (UNKNOWN_COLLAR_IDS G))%nat
  ∧ (∀ id, id ∈ batch_ids → id ∉ UNKNOWN_COLLAR_IDS G →
           id ∈ VALID_COLLAR_IDS G)
  ∧ batch_ids = take (length (rows b)) (collar_ids_to_use (ids b))
  ∧ collar_ids_to_use (ids b) ≡ₚ unknown_ids (ids b) ++ valid_ids (ids b)
  ∧ unknown_ids (ids b) ⊆+ UNKNOWN_COLLAR_IDS G
  ∧ (∀ v, v ∈ valid_ids (ids b) → v ∈ VALID_COLLAR_IDS G).
Proof.
  intros Hstart Hne Hrun batch_ids.
  pose proof (startup_pools_disjoint _ _ _ _ Hstart) as Hdisj.
  pose proof (create_bobo_csv_spec _ _ _ _ _ _ _ _ Hrun) as Hspec.
  pose proof (batch_ids_prefix _ _ _ _ _ Hne Hspec) as Hpre.
  fold batch_ids in Hpre.
  destruct Hspec as (num & _ & Hc & _).
  unfold composition_spec in Hc.
  destruct (VALID_COLLAR_IDS G) as [|v0 vs] eqn:HV; [done|].
  rewrite <- HV in *. clear HV v0 vs.
  destruct Hc as (Huc & Hus & Hul & Hvs & _ & Hperm).
  assert (batch_ids ⊆+ unknown_ids (ids b) ++ valid_ids (ids b)) as Hsub.
  { rewrite Hpre, <- Hperm. apply submseteq_take. }
  split_and!; try done.
  - lia.
  - etransitivity; [by apply submseteq_length_filter|].
    rewrite filter_app, length_app.
    rewrite (filter_none _ (valid_ids (ids b))).
    + pose proof (length_filter (λ id, id ∈ UNKNOWN_COLLAR_IDS G)
                    (unknown_ids (ids b))).
      simpl length. lia.
    + intros v Hv Hu. by destruct (Hdisj v v Hu (Hvs v Hv)).
  - intros id Hid Hnu.
    apply (elem_of_submseteq _ _ _ Hid) in Hsub.
    apply elem_of_app in Hsub as [Hu|Hv]; [|by apply Hvs].
    destruct Hnu. exact (elem_of_submseteq _ _ _ Hu Hus).
Qed.

Lemma batch_unknown_ids_bounded_witness :
  ∃ G g1 b g',
    startup roster0 g0 = (Ok G, g1)
    ∧ VALID_COLLAR_IDS G ≠ []
    ∧ create_bobo_csv G cfg0 1 t0 NoFault g0 = (Ok b, g')
    ∧ (0 ≤ length (filter (λ id, id ∈ UNKNOWN_COLLAR_IDS G)
                     (employee_id <$> rows b))
         ≤ 2 `min` length (UNKNOWN_COLLAR_IDS G))%nat
    ∧ (∀ id, id ∈ employee_id <$> rows b → id ∉ UNKNOWN_COLLAR_IDS G →
             id ∈ VALID_COLLAR_IDS G)
    ∧ employee_id <$> rows b
      = take (length (rows b)) (collar_ids_to_use (ids b))
    ∧ collar_ids_to_use (ids b) ≡ₚ unknown_ids (ids b) ++ valid_ids (ids b)
    ∧ unknown_ids (ids b) ⊆+ UNKNOWN_COLLAR_IDS G
    ∧ (∀ v, v ∈ valid_ids (ids b) → v ∈ VALID_COLLAR_IDS G).
Proof.
  eexists _, _, _, _.
  split; [vm_compute; reflexivity|].
  split; [discriminate|].
  split; [vm_compute; reflexivity|].
  eapply (batch_unknown_ids_bounded roster0 g0 _ _ cfg0 1 t0 NoFault g0);
    [vm_compute; reflexivity|discriminate|vm_compute; reflexivity].
Defined.

(** ** Unknown IDs are sampled without replacement *)

(** C10, as stated, fails: the pool builder appends every draw that is
    not a valid integer, also one it has appended before.  With the roster
    of the single ID 00100 and draws that are the lowest of their band, the
    pool holds 00001 ten times, then 12001 ten times; a batch that samples
    the positions 0 and 1 of that pool injects the same unknown ID twice. *)
Lemma injected_unknown_ids_repeat :
  ∃ G g1 b g',
    startup roster_one g_zeros = (Ok G, g1)
    ∧ create_bobo_csv G cfg0 1 t0 NoFault g_dup = (Ok b, g')
    ∧ unknown_ids (ids b) = ["00001"; "00001"]
    ∧ ¬ NoDup (unknown_ids (ids b)).
Proof.
  eexists _, _, _, _.
  split; [vm_compute; reflexivity|].
  split; [vm_compute; reflexivity|].
  split; [reflexivity|].
  intros Hnd. apply NoDup_cons in Hnd as [Hnotin _]. apply Hnotin. left.
Qed.

(** C10, amended. In every batch that [create_bobo_csv] returns, the
    unknown IDs injected are entries of the unknown pool taken without
    replacement: as a multiset they are contained in the pool, so no entry
    of the pool is used twice.  They are pairwise distinct whenever the
    pool itself holds no ID twice.  The valid IDs of the batch are drawn
    one by one from the valid list and may repeat. *)
Theorem injected_unknown_ids_without_replacement
    G cfg run_counter execution_time fault g b g' :
  create_bobo_csv G cfg run_counter execution_time fault g = (Ok b, g') →
  unknown_ids (ids b) ⊆+ UNKNOWN_COLLAR_IDS G
  ∧ (NoDup (UNKNOWN_COLLAR_IDS G) → NoDup (unknown_ids (ids b)))
  ∧ (∀ v, v ∈ valid_ids (ids b) → v ∈ VALID_COLLAR_IDS G).
Proof.
  intros Hrun.
  destruct (create_bobo_csv_spec _ _ _ _ _ _ _ _ Hrun) as (num & _ & Hc & _).
  unfold composition_spec in Hc.
  assert (unknown_ids (ids b) ⊆+ UNKNOWN_COLLAR_IDS G
          ∧ ∀ v, v ∈ valid_ids (ids b) → v ∈ VALID_COLLAR_IDS G) as [Hus Hvs].
  { destruct (VALID_COLLAR_IDS G) as [|v0 vs].
    - rewrite Hc. simpl. split; [apply submseteq_nil_l|].
      by intros v ?%elem_of_nil.
    - by destruct Hc as (_ & ? & _ & ? & _). }
  split_and!; [done| |done]. by apply submseteq_NoDup.
Qed.

Lemma injected_unknown_ids_without_replacement_witness :
  ∃ b g',
    create_bobo_csv G0 cfg0 1 t0 NoFault g0 = (Ok b, g')
    ∧ unknown_ids (ids b) ⊆+ UNKNOWN_COLLAR_IDS G0
    ∧ (NoDup (UNKNOWN_COLLAR_IDS G0) → NoDup (unknown_ids (ids b)))
    ∧ (∀ v, v ∈ valid_ids (ids b) → v ∈ VALID_COLLAR_IDS G0).
Proof.
  eexists _, _. split; [vm_compute; reflexivity|].
  eapply (injected_unknown_ids_without_replacement G0 cfg0 1 t0 NoFault g0).
  vm_compute; reflexivity.
Defined.

(** ** The roster that cannot be read *)

(** Without a roster file the valid list stays empty. *)
Lemma load_missing_roster G :
  load_valid_collar_ids G Missing = (false, G)
  ∧ ∀ e, load_valid_collar_ids G (Unopenable e) = (false, G).
Proof. done. Qed.

(** With an empty valid list every row gets an ID of its own draw, five
    digits for a number in 1..99999. *)
Lemma random_ids_without_valid_list
    G cfg run_counter execution_time fault g b g' i e :
  VALID_COLLAR_IDS G = [] →
  create_bobo_csv G cfg run_counter execution_time fault g = (Ok b, g') →
  rows b !! i = Some e →
  ∃ n, 1 ≤ n ≤ 99999 ∧ employee_id e = format_0d 5 n.
Proof.
  intros HV Hrun He.
  destruct (create_bobo_csv_spec _ _ _ _ _ _ _ _ Hrun)
    as (num & _ & Hc & Hrows & _).
  unfold composition_spec in Hc. rewrite HV in Hc.
  specialize (Hrows i e He). rewrite Hc in Hrows. simpl in Hrows.
  by destruct Hrows as (_ & ? & _).
Qed.

(** C5 fails on the code for a roster that becomes unreadable after its
    first rows.  The loader returns [False] and [main] announces random
    collar IDs, but the IDs read before the failure stay in
    [VALID_COLLAR_IDS]: the valid list is not empty after the call, no
    unknown pool is built, and every row of the batches takes its ID from
    that list instead of a random draw. *)
Theorem unreadable_roster_keeps_partial_ids :
  load_valid_collar_ids initial_globals roster_broken
  = (false, mkGlobals ["00100"] [])
  ∧ fst (startup roster_broken g0) = Ok (mkGlobals ["00100"] [])
  ∧ ∃ r rows tr,
      main 6 cfg0 roster_broken true E_ok g0 = Some r
      ∧ trace r
        = Print MsgFailedToLoad :: Increment 1 :: WriteFile 1 rows :: tr
      ∧ employee_id <$> rows = ["00100"; "00100"; "00100"; "00100"].
Proof.
  split; [reflexivity|]. split; [reflexivity|].
  eexists _, _, _. split; [vm_compute; reflexivity|].
  split; reflexivity.
Qed.

(** ** The run loop *)

Lemma run_loop_unfold fuel G cfg E run_counter tr g :
  run_loop (S fuel) G cfg E run_counter tr g
  = if run_counter <? MAX_FILE_COUNT cfg then
      match create_bobo_csv G cfg (run_counter + 1) (now E (run_counter + 1))
              (fault E (run_counter + 1)) g with
      | (Raise e, _) =>
          Some (mkRun (Uncaught e) (run_counter + 1)
                  (tr ++ [Increment (run_counter + 1);
                          Print (MsgUnexpectedError e)]))
      | (Ok b, g') =>
          let tr1 := tr ++ Increment (run_counter + 1)
                          :: batch_effects (run_counter + 1) b in
          if MAX_FILE_COUNT cfg <=? run_counter + 1 then
            Some (mkRun Break (run_counter + 1)
                    (tr1 ++ [Print (MsgMaxReached (MAX_FILE_COUNT cfg))]))
          else
            let tr2 :=
              tr1 ++ [Print (MsgNextGeneration (SIMULATION_INTERVAL cfg))] in
            if SIMULATION_INTERVAL cfg <? 0 then
              Some (mkRun (Uncaught ValueError) (run_counter + 1)
                      (tr2 ++ [Print (MsgUnexpectedError ValueError)]))
            else if signalled E (run_counter + 1) then
              Some (mkRun SystemExit (run_counter + 1)
                      (tr2 ++ [Sleep (SIMULATION_INTERVAL cfg)]))
            else run_loop fuel G cfg E (run_counter + 1)
                   (tr2 ++ [Sleep (SIMULATION_INTERVAL cfg)]) g'
      end
    else Some (mkRun WhileExit run_counter tr).
Proof. reflexivity. Qed.

Lemma increments_app tr1 tr2 :
  increments (tr1 ++ tr2) = increments tr1 ++ increments tr2.
Proof. apply omap_app. Qed.

Lemma files_written_app tr1 tr2 :
  files_written (tr1 ++ tr2) = files_written tr1 ++ files_written tr2.
Proof. apply omap_app. Qed.

Lemma batch_effects_increments k b : increments (batch_effects k b) = [].
Proof.
  unfold batch_effects, increments. rewrite !omap_app.
  assert (omap increment_of (Print <$> printed b) = []) as ->
    by (by induction (printed b)).
  by destruct (opened b), (csv_file b).
Qed.

Lemma batch_effects_files k b :
  files_written (batch_effects k b) `sublist_of` [k].
Proof.
  unfold batch_effects, files_written. rewrite !omap_app.
  assert (omap file_of (Print <$> printed b) = []) as ->
    by (by induction (printed b)).
  destruct (opened b), (csv_file b); simpl;
    first [done | apply sublist_nil_l].
Qed.

Lemma batch_effects_no_sleep k b s : Sleep s ∉ batch_effects k b.
Proof.
  unfold batch_effects. rewrite !not_elem_of_app. split_and!.
  - destruct (opened b); [|apply not_elem_of_nil].
    by intros [= ]%list_elem_of_singleton.
  - by intros (m & [= ] & _)%list_elem_of_fmap.
  - destruct (csv_file b); [|apply not_elem_of_nil].
    by intros [= ]%list_elem_of_singleton.
Qed.

Lemma elem_of_increments k tr : Increment k ∈ tr → k ∈ increments tr.
Proof. intros Hin. apply list_elem_of_omap. by exists (Increment k). Qed.

(** A marker that is not in the first part of a trace is in the rest. *)
Lemma split_after {A} (x : A) (X Y t1 t2 : list A) :
  x ∉ X → X ++ Y = t1 ++ x :: t2 → ∃ t, Y = t ++ x :: t2.
Proof.
  revert t1. induction X as [|a X IH]; intros t1 Hx Heq; [by exists t1|].
  apply not_elem_of_cons in Hx as [Hne Hx].
  destruct t1 as [|a' t1]; simplify_eq/=. by eapply IH.
Qed.

Lemma loop_suffix_nil max_files c : loop_suffix max_files c c [].
Proof.
  split_and!.
  - by rewrite seqZ_nil by lia.
  - done.
  - by intros [|] ? ?.
Qed.

Lemma loop_suffix_last max_files c b tail :
  increments tail = [] → files_written tail = [] →
  (c + 1 = max_files → ∀ s, Sleep s ∉ tail) →
  loop_suffix max_files c (c + 1)
    (Increment (c + 1) :: batch_effects (c + 1) b ++ tail).
Proof.
  intros Hinc Hfiles Hsleep.
  assert (increments (batch_effects (c + 1) b ++ tail) = []) as Hrest
    by (by rewrite increments_app, Hinc, batch_effects_increments).
  change (Increment (c + 1) :: batch_effects (c + 1) b ++ tail)
    with ([Increment (c + 1)] ++ batch_effects (c + 1) b ++ tail).
  split_and!.
  - rewrite increments_app, Hrest, seqZ_cons, seqZ_nil by lia. done.
  - rewrite increments_app, Hrest, !files_written_app, Hfiles, app_nil_r.
    apply batch_effects_files.
  - intros [|e t1] tr2 Heq s; simplify_eq/=.
    + apply not_elem_of_app. split; [apply batch_effects_no_sleep|].
      apply Hsleep. congruence.
    + assert (max_files ∈ increments (batch_effects (c + 1) b ++ tail))
        as Hin by (rewrite H0; apply elem_of_increments, elem_of_app;
                   right; left).
      rewrite Hrest in Hin. by apply elem_of_nil in Hin.
Qed.

Lemma loop_suffix_next max_files c final b m s tr :
  c + 1 < max_files → c + 1 ≤ final →
  loop_suffix max_files (c + 1) final tr →
  loop_suffix max_files c final
    (Increment (c + 1) :: (batch_effects (c + 1) b ++ [Print m; Sleep s])
       ++ tr).
Proof.
  intros Hlt Hle (Hinc & Hfiles & Hsleep).
  assert (increments (batch_effects (c + 1) b ++ [Print m; Sleep s]) = [])
    as Hmid by (by rewrite increments_app, batch_effects_increments).
  change (Increment (c + 1)
            :: (batch_effects (c + 1) b ++ [Print m; Sleep s]) ++ tr)
    with ([Increment (c + 1)]
            ++ (batch_effects (c + 1) b ++ [Print m; Sleep s]) ++ tr).
  assert (files_written (batch_effects (c + 1) b ++ [Print m; Sleep s])
            `sublist_of` [c + 1]) as Hmidf
    by (rewrite files_written_app, app_nil_r; apply batch_effects_files).
  generalize dependent (batch_effects (c + 1) b ++ [Print m; Sleep s]).
  intros mid Hmid Hmidf.
  split_and!.
  - rewrite !increments_app, Hmid, Hinc. simpl.
    rewrite (seqZ_cons (c + 1)) by lia. do 2 f_equal; lia.
  - rewrite !increments_app, Hmid, !files_written_app. simpl.
    by apply (sublist_app _ [c + 1]).
  - intros [|e t1] tr2 Heq s'; simplify_eq/=; [lia|].
    apply split_after in H0 as [t Ht]; [by eapply Hsleep|].
    intros Hin%elem_of_increments. rewrite Hmid in Hin.
    by apply elem_of_nil in Hin.
Qed.

(** The trace of the loop, from any counter and with any fuel. *)
Lemma run_loop_trace fuel G cfg E c tr g r :
  run_loop fuel G cfg E c tr g = Some r →
  ∃ tr', trace r = tr ++ tr'
         ∧ c ≤ final_counter r ≤ Z.max c (MAX_FILE_COUNT cfg)
         ∧ loop_suffix (MAX_FILE_COUNT cfg) c (final_counter r) tr'.
Proof.
  revert c tr g. induction fuel as [|fuel IH]; intros c tr g Hrun; [done|].
  rewrite run_loop_unfold in Hrun.
  destruct (Z.ltb_spec c (MAX_FILE_COUNT cfg)) as [Hlt|Hge].
  2: { injection Hrun as <-. exists []. simpl. rewrite app_nil_r.
       split_and!; [done|lia|lia|apply loop_suffix_nil]. }
  destruct (create_bobo_csv _ _ _ _ _ _) as [[b|e] g1].
  2: { injection Hrun as <-. eexists. simpl. split_and!; [done|lia|lia|].
       apply (loop_suffix_last _ c (mkBatch None false [] [] (mkComposition 0 [] [] []))
                [Print (MsgUnexpectedError e)]); [done|done|].
       intros _ s [= ]%list_elem_of_singleton. }
  cbv zeta in Hrun.
  destruct (Z.leb_spec (MAX_FILE_COUNT cfg) (c + 1)) as [Hmax|Hmore].
  { injection Hrun as <-. eexists. simpl.
    split_and!; [by rewrite <- app_assoc|lia|lia|].
    apply loop_suffix_last; [done|done|].
    intros _ s [= ]%list_elem_of_singleton. }
  destruct (Z.ltb_spec (SIMULATION_INTERVAL cfg) 0) as [Hneg|Hpos].
  { injection Hrun as <-. eexists. simpl.
    split_and!; [by rewrite <- !app_assoc|lia|lia|].
    apply loop_suffix_last; [done|done|lia]. }
  destruct (signalled E (c + 1)).
  { injection Hrun as <-. eexists. simpl.
    split_and!; [by rewrite <- !app_assoc|lia|lia|].
    apply loop_suffix_last; [done|done|lia]. }
  apply IH in Hrun as (tr' & Htr & Hfinal & Hsuffix).
  eexists. split_and!.
  - rewrite Htr, <- !app_assoc. simpl. reflexivity.
  - lia.
  - lia.
  - pose proof (loop_suffix_next (MAX_FILE_COUNT cfg) c (final_counter r) b
                  (MsgNextGeneration (SIMULATION_INTERVAL cfg))
                  (SIMULATION_INTERVAL cfg) tr' Hmore) as Hnext.
    rewrite <- app_assoc in Hnext. simpl in Hnext. apply Hnext; [lia|done].
Qed.

(** The loop stops: a fuel above the number of files left is enough. *)
Lemma run_loop_returns fuel G cfg E c tr g :
  (Z.to_nat (MAX_FILE_COUNT cfg - c) < fuel)%nat →
  ∃ r, run_loop fuel G cfg E c tr g = Some r.
Proof.
  revert c tr g. induction fuel as [|fuel IH]; intros c tr g Hfuel; [lia|].
  rewrite run_loop_unfold.
  destruct (Z.ltb_spec c (MAX_FILE_COUNT cfg)) as [Hlt|Hge]; [|eauto].
  destruct (create_bobo_csv _ _ _ _ _ _) as [[b|e] g1]; [|eauto].
  cbv zeta.
  destruct (_ <=? _); [eauto|]. destruct (_ <? _); [eauto|].
  destruct (signalled _ _); [eauto|]. apply IH. lia.
Qed.

Lemma run_loop_bounded fuel G cfg E tr0 g r :
  increments tr0 = [] → files_written tr0 = [] →
  run_loop fuel G cfg E 0 tr0 g = Some r →
  bounded_run (MAX_FILE_COUNT cfg) r.
Proof.
  intros Hinc0 Hfiles0
    (tr' & Htr & Hfinal & Hinc & Hfiles & Hsleep)%run_loop_trace.
  rewrite Z.sub_0_r in Hinc. simpl in Hinc.
  unfold bounded_run.
  rewrite Htr, increments_app, files_written_app, Hinc0, Hfiles0. simpl.
  assert (length (increments tr') ≤ Z.to_nat (MAX_FILE_COUNT cfg))%nat
    as Hlen by (rewrite Hinc, length_seqZ; lia).
  pose proof (sublist_length _ _ Hfiles).
  split_and!; try done; try lia.
  intros tr1 tr2 Heq s.
  apply split_after in Heq as [t Ht]; [by eapply Hsleep|].
  intros Hin%elem_of_increments. rewrite Hinc0 in Hin.
  by apply elem_of_nil in Hin.
Qed.

Lemma bounded_run_print max_files r m :
  bounded_run max_files r →
  bounded_run max_files
    (mkRun (stopped r) (final_counter r) (trace r ++ [Print m])).
Proof.
  intros (Hfinal & Hinc & Hlen & Hfiles & Hsleep). unfold bounded_run.
  simpl. rewrite increments_app, files_written_app, !app_nil_r.
  split_and!; try done; try lia.
  intros tr1 tr2 Heq s.
  destruct tr2 as [|x tr2 _] using rev_ind.
  - apply app_inj_tail in Heq as [_ [= ]].
  - replace (tr1 ++ Increment max_files :: tr2 ++ [x])
      with ((tr1 ++ Increment max_files :: tr2) ++ [x]) in Heq
      by (by rewrite <- app_assoc).
    apply app_inj_tail in Heq as [Heq <-].
    apply not_elem_of_app. split; [by eapply Hsleep|].
    by intros [= ]%list_elem_of_singleton.
Qed.

Lemma startup_returns f g : ∃ G g', startup f g = (Ok G, g').
Proof.
  pose proof (startup_eq f g) as Heq.
  destruct (load_valid_collar_ids initial_globals f) as [loaded G].
  destruct Heq as [_ ->]. destruct (_ && _); eauto.
Qed.

(** C8. For every configuration, roster, environment and generator,
    [main] stops (a fuel above [MAX_FILE_COUNT] is enough), and in its
    run: the counter takes the values 1, 2, ... up to its final value, one
    per iteration, and that final value is at most [MAX_FILE_COUNT], so
    that the loop body runs at most [MAX_FILE_COUNT] times and at most
    that many files are opened; and after the counter has taken the value
    [MAX_FILE_COUNT] there is no sleep in the rest of the run. *)
Theorem main_never_exceeds_max_file_count fuel cfg f mkdir_ok E g :
  (Z.to_nat (MAX_FILE_COUNT cfg) < fuel)%nat →
  ∃ r, main fuel cfg f mkdir_ok E g = Some r
       ∧ 0 ≤ final_counter r ≤ Z.max 0 (MAX_FILE_COUNT cfg)
       ∧ increments (trace r) = seqZ 1 (final_counter r)
       ∧ (length (increments (trace r)) ≤ Z.to_nat (MAX_FILE_COUNT cfg))%nat
       ∧ (length (files_written (trace r))
          ≤ Z.to_nat (MAX_FILE_COUNT cfg))%nat
       ∧ ∀ tr1 tr2, trace r = tr1 ++ Increment (MAX_FILE_COUNT cfg) :: tr2 →
                    ∀ s, Sleep s ∉ tr2.
Proof.
  intros Hfuel. unfold main.
  destruct (startup_returns f g) as (G & g' & ->). cbv zeta.
  destruct mkdir_ok.
  - destruct (run_loop_returns fuel G cfg E 0
                (Print <$> startup_messages f) g') as [r Hr];
      [by rewrite Z.sub_0_r|].
    rewrite Hr. apply run_loop_bounded in Hr;
      [|unfold startup_messages; destruct (fst _); done..].
    eexists. split; [done|].
    destruct (stopped r) eqn:Hstop; try exact Hr;
      rewrite <- Hstop; by apply bounded_run_print.
  - eexists. split; [done|]. unfold startup_messages.
    destruct (fst _); simpl; (split_and!; try done; try lia);
      intros [|? [|? [|]]] ? [= ].
Qed.

Lemma main_never_exceeds_max_file_count_witness :
  (Z.to_nat (MAX_FILE_COUNT cfg0) < 6)%nat
  ∧ ∃ r, main 6 cfg0 roster0 true E0 g0 = Some r
         ∧ 0 ≤ final_counter r ≤ Z.max 0 (MAX_FILE_COUNT cfg0)
         ∧ increments (trace r) = seqZ 1 (final_counter r)
         ∧ (length (increments (trace r))
            ≤ Z.to_nat (MAX_FILE_COUNT cfg0))%nat
         ∧ (length (files_written (trace r))
            ≤ Z.to_nat (MAX_FILE_COUNT cfg0))%nat
         ∧ ∀ tr1 tr2,
             trace r = tr1 ++ Increment (MAX_FILE_COUNT cfg0) :: tr2 →
             ∀ s, Sleep s ∉ tr2.
Proof.
  assert (Z.to_nat (MAX_FILE_COUNT cfg0) < 6)%nat as Hfuel
    by (vm_compute; lia).
  split; [exact Hfuel|].
  exact (main_never_exceeds_max_file_count 6 cfg0 roster0 true E0 g0 Hfuel).
Defined.

(** ** A failed write does not stop the loop *)

(** The entry count that a call draws decides whether its fault is met:
    the call returns [None] exactly when it is, and then it has printed
    the error message and nothing else. *)
Lemma create_bobo_csv_drawn G cfg run_counter execution_time fault g b g' :
  create_bobo_csv G cfg run_counter execution_time fault g = (Ok b, g') →
  ∃ num_entries g1,
    random.randint (MIN_ENTRIES cfg) (MAX_ENTRIES cfg) g
    = (Ok num_entries, g1)
    ∧ MIN_ENTRIES cfg ≤ num_entries ≤ MAX_ENTRIES cfg
    ∧ (csv_file b = None ↔ faulty fault num_entries)
    ∧ (csv_file b = None → failed_batch fault num_entries b).
Proof.
  intros Hrun.
  destruct (Z.le_gt_cases (MIN_ENTRIES cfg) (MAX_ENTRIES cfg)) as [Hle|Hgt].
  2: { unfold create_bobo_csv in Hrun. cbv [mbind M_bind bind] in Hrun.
       by rewrite randint_empty in Hrun by lia. }
  destruct (randint_eq (MIN_ENTRIES cfg) (MAX_ENTRIES cfg) g Hle)
    as (num_entries & Hnum & Hdraw).
  exists num_entries, (advance 1 g). split; [done|]. split; [done|].
  refine (wp_inv _
            (λ b _, (csv_file b = None ↔ faulty fault num_entries)
                    ∧ (csv_file b = None → failed_batch fault num_entries b))
            never _ _ _ _ Hrun).
  unfold create_bobo_csv. apply wp_bind. unfold wp at 1. rewrite Hdraw.
  apply wp_bind.
  eapply wp_mono; [apply wp_compose_collar_ids| |done].
  intros c g2 _. simpl. case_bool_decide as Hopen.
  { apply (wp_ret _ _ never). subst fault. by simpl. }
  apply wp_bind.
  eapply wp_mono; [apply wp_write_rows| |done].
  intros [ok w] g3 (new & -> & _ & Hok). simpl in *.
  destruct ok; simpl.
  - destruct Hok as [Hl Hj]. case_bool_decide as Hclose; simpl.
    + apply (wp_ret _ _ never). subst fault. by simpl.
    + apply (wp_ret _ _ never). simpl. split; [|done]. split; [done|].
      destruct fault as [| |j|]; simpl; [tauto|congruence| |congruence].
      intros Hlt. destruct (Hj j eq_refl). lia.
  - destruct Hok as (j & Hfj & Hij & Hl).
    apply (wp_ret _ _ never). subst fault. simpl. split.
    + split; [lia|done].
    + intros _. split; [done|]. simpl. split; [done|lia].
Qed.

(** What a failed batch leaves in the trace: the file if it was opened,
    then the error message, and nothing else. *)
Lemma failed_batch_effects fault num_entries k b :
  csv_file b = None → failed_batch fault num_entries b →
  ∃ w, batch_effects k b = w ++ [Print MsgErrorCreating]
       ∧ (w = [] ∨ w = [WriteFile k (rows b)]).
Proof.
  intros Hfile [Hprinted _]. unfold batch_effects.
  rewrite Hfile, Hprinted, app_nil_r. destruct (opened b); eauto.
Qed.

Lemma elem_of_increments_inv k tr : k ∈ increments tr → Increment k ∈ tr.
Proof.
  intros (e & He & Hk)%list_elem_of_omap.
  destruct e; simplify_eq/=. done.
Qed.

(** With a sound configuration and no signal, the loop runs up to the
    maximum whatever the faults: every file number has its iteration, and
    each iteration but the last is followed by the next. *)
Lemma run_loop_iterations fuel G cfg E c tr g :
  MIN_ENTRIES cfg ≤ MAX_ENTRIES cfg →
  0 ≤ SIMULATION_INTERVAL cfg →
  (∀ i, signalled E i = false) →
  c < MAX_FILE_COUNT cfg →
  (Z.to_nat (MAX_FILE_COUNT cfg - c) < fuel)%nat →
  ∃ r tr',
    run_loop fuel G cfg E c tr g = Some r
    ∧ stopped r = Break
    ∧ final_counter r = MAX_FILE_COUNT cfg
    ∧ trace r = tr ++ tr'
    ∧ increments tr' = seqZ (c + 1) (MAX_FILE_COUNT cfg - c)
    ∧ ∀ k, c < k ≤ MAX_FILE_COUNT cfg →
           ∃ tr1 b tr2 g1 g2,
             create_bobo_csv G cfg k (now E k) (fault E k) g1 = (Ok b, g2)
             ∧ tr' = tr1 ++ Increment k :: batch_effects k b ++ tr2
             ∧ (k < MAX_FILE_COUNT cfg → Increment (k + 1) ∈ tr2).
Proof.
  intros Hcfg Hint Hsig. revert c tr g.
  induction fuel as [|fuel IH]; intros c tr g Hlt Hfuel; [lia|].
  rewrite run_loop_unfold.
  destruct (Z.ltb_spec c (MAX_FILE_COUNT cfg)); [|lia].
  destruct (create_bobo_csv_returns G cfg (c + 1) (now E (c + 1))
              (fault E (c + 1)) g Hcfg) as (b & g1 & Hb).
  rewrite Hb. cbv zeta.
  destruct (Z.leb_spec (MAX_FILE_COUNT cfg) (c + 1)) as [Hmax|Hmore].
  - eexists _, _. split; [done|]. simpl.
    split_and!; [done|lia|by rewrite <- app_assoc| |].
    + change (Increment (c + 1) :: ?l) with ([Increment (c + 1)] ++ l).
      rewrite !increments_app, batch_effects_increments. simpl.
      rewrite seqZ_cons, seqZ_nil by lia. done.
    + intros k Hk. assert (k = c + 1) as -> by lia.
      exists [], b, [Print (MsgMaxReached (MAX_FILE_COUNT cfg))], g, g1.
      split_and!; [done|done|lia].
  - destruct (Z.ltb_spec (SIMULATION_INTERVAL cfg) 0); [lia|].
    rewrite Hsig.
    edestruct (IH (c + 1)) as (r & tr' & Hrun & Hstop & Hfinal & Htr & Hinc
                              & Hiter); [done|lia|].
    rewrite Hrun. eexists _, _. split; [done|].
    split_and!; [done|done| | |].
    + rewrite Htr, <- !app_assoc. simpl. reflexivity.
    + change (Increment (c + 1) :: ?l) with ([Increment (c + 1)] ++ l).
      rewrite !increments_app, batch_effects_increments.
      change (increments (_ :: _ :: tr')) with (increments tr').
      rewrite Hinc. simpl.
      rewrite (seqZ_cons (c + 1)) by lia. do 2 f_equal; lia.
    + intros k Hk.
      destruct (decide (k = c + 1)) as [->|Hne].
      * eexists [], b, _, g, g1. split_and!.
        -- done.
        -- simpl. reflexivity.
        -- intros _. do 2 right. apply elem_of_increments_inv.
           rewrite Hinc. apply elem_of_seqZ. lia.
      * destruct (Hiter k) as (tr1 & bk & tr2 & gk & gk' & Hbk & -> & Hnext);
          [lia|].
        eexists (Increment (c + 1) :: batch_effects (c + 1) b
                   ++ [Print (MsgNextGeneration (SIMULATION_INTERVAL cfg));
                       Sleep (SIMULATION_INTERVAL cfg)] ++ tr1),
                bk, tr2, gk, gk'.
        split_and!; [done| |done].
        simpl. rewrite <- !app_assoc. simpl. reflexivity.
Qed.

(** C9. Take a configuration with a non-empty range of entry counts and
    an interval that [time.sleep] takes, and a run without termination
    signal: a run that would go on after a batch that was written.
    Whatever files fail to be written, the loop stops by reaching the
    maximum, its counter having taken every value from 1 to
    [MAX_FILE_COUNT]: a failed batch counts as one of them.  For every file
    number [k] the run shows, after the counter took the value [k], what
    the call of [create_bobo_csv] for that file did.  The call fails, that
    is returns [None], whenever it meets the fault of the file: [open] or
    the closing of the file raises, or [writerow] raises on one of the
    rows that the batch has, whichever row it is.  Of a call that failed
    the run shows the file if it was opened, then the error message and
    nothing else; and, failed or not, if [k] is not the last number the
    counter takes the value [k + 1] later on: the loop went on to the next
    iteration. *)
Theorem write_failure_counts_and_continues fuel G cfg E g k :
  MIN_ENTRIES cfg ≤ MAX_ENTRIES cfg →
  0 ≤ SIMULATION_INTERVAL cfg ≤ sleep_max →
  (∀ i, signalled E i = false) →
  (Z.to_nat (MAX_FILE_COUNT cfg) < fuel)%nat →
  1 ≤ k ≤ MAX_FILE_COUNT cfg →
  ∃ r tr1 b tr2 g1 g2 num_entries g1',
    run_loop fuel G cfg E 0 [] g = Some r
    ∧ stopped r = Break
    ∧ final_counter r = MAX_FILE_COUNT cfg
    ∧ increments (trace r) = seqZ 1 (MAX_FILE_COUNT cfg)
    ∧ create_bobo_csv G cfg k (now E k) (fault E k) g1 = (Ok b, g2)
    ∧ random.randint (MIN_ENTRIES cfg) (MAX_ENTRIES cfg) g1
      = (Ok num_entries, g1')
    ∧ trace r = tr1 ++ Increment k :: batch_effects k b ++ tr2
    ∧ (faulty (fault E k) num_entries → csv_file b = None)
    ∧ (csv_file b = None →
         ∃ w, batch_effects k b = w ++ [Print MsgErrorCreating]
              ∧ (w = [] ∨ w = [WriteFile k (rows b)]))
    ∧ (k < MAX_FILE_COUNT cfg → Increment (k + 1) ∈ tr2).
Proof.
  intros Hcfg [Hint _] Hsig Hfuel Hk.
  destruct (run_loop_iterations fuel G cfg E 0 [] g Hcfg Hint Hsig)
    as (r & tr' & Hrun & Hstop & Hfinal & Htr & Hinc & Hiter);
    [lia|by rewrite Z.sub_0_r|].
  simpl in Htr. subst tr'. rewrite Z.sub_0_r in Hinc.
  destruct (Hiter k) as (tr1 & b & tr2 & g1 & g2 & Hb & Htr & Hnext); [lia|].
  destruct (create_bobo_csv_drawn _ _ _ _ _ _ _ _ Hb)
    as (num_entries & g1' & Hdraw & _ & Hiff & Hfailed).
  exists r, tr1, b, tr2, g1, g2, num_entries, g1'.
  split_and!; try done.
  - apply Hiff.
  - intros Hnone. eapply failed_batch_effects; eauto.
Qed.

Lemma write_failure_counts_and_continues_witness :
  MIN_ENTRIES cfg0 ≤ MAX_ENTRIES cfg0
  ∧ 0 ≤ SIMULATION_INTERVAL cfg0 ≤ sleep_max
  ∧ (∀ i, signalled E0 i = false)
  ∧ (Z.to_nat (MAX_FILE_COUNT cfg0) < 6)%nat
  ∧ 1 ≤ 2 ≤ MAX_FILE_COUNT cfg0
  ∧ ∃ r tr1 b tr2 g1 g2 num_entries g1',
      run_loop 6 G0 cfg0 E0 0 [] g0 = Some r
      ∧ stopped r = Break
      ∧ final_counter r = MAX_FILE_COUNT cfg0
      ∧ increments (trace r) = seqZ 1 (MAX_FILE_COUNT cfg0)
      ∧ create_bobo_csv G0 cfg0 2 (now E0 2) (fault E0 2) g1 = (Ok b, g2)
      ∧ random.randint (MIN_ENTRIES cfg0) (MAX_ENTRIES cfg0) g1
        = (Ok num_entries, g1')
      ∧ trace r = tr1 ++ Increment 2 :: batch_effects 2 b ++ tr2
      ∧ (faulty (fault E0 2) num_entries → csv_file b = None)
      ∧ (csv_file b = None →
           ∃ w, batch_effects 2 b = w ++ [Print MsgErrorCreating]
                ∧ (w = [] ∨ w = [WriteFile 2 (rows b)]))
      ∧ (2 < MAX_FILE_COUNT cfg0 → Increment (2 + 1) ∈ tr2).
Proof.
  assert (MIN_ENTRIES cfg0 ≤ MAX_ENTRIES cfg0) as H1 by (vm_compute; congruence).
  assert (0 ≤ SIMULATION_INTERVAL cfg0 ≤ sleep_max) as H2
    by (vm_compute; split; congruence).
  assert (∀ i, signalled E0 i = false) as H3 by reflexivity.
  assert (Z.to_nat (MAX_FILE_COUNT cfg0) < 6)%nat as H4 by (vm_compute; lia).
  assert (1 ≤ 2 ≤ MAX_FILE_COUNT cfg0) as H5 by (vm_compute; split; congruence).
  split_and!; try assumption.
  exact (write_failure_counts_and_continues 6 G0 cfg0 E0 g0 2 H1 H2 H3 H4 H5).
Defined.

(** ** The roster generator and a count above the range *)

(** A set of integers of [[lo, hi]] has at most [hi - lo + 1] members. *)
Lemma size_in_range (X : gset Z) (lo hi : Z) :
  lo ≤ hi → (∀ x, x ∈ X → lo ≤ x ≤ hi) → Z.of_nat (size X) ≤ hi - lo + 1.
Proof.
  intros Hle HX.
  assert (X ⊆ list_to_set (seqZ lo (hi - lo + 1))) as Hsub.
  { intros x Hx. apply elem_of_list_to_set, elem_of_seqZ.
    specialize (HX x Hx). lia. }
  apply subseteq_size in Hsub.
  rewrite size_list_to_set, length_seqZ in Hsub by apply NoDup_seqZ. lia.
Qed.

(** Over a non-empty range the loop only ever holds IDs of the range; when
    the count is above the size of the range, no number of iterations
    brings it to its end, and nothing is raised. *)
Lemma collar_id_loop_never_ends fuel num_users lo hi (collar_ids : gset Z) g :
  lo ≤ hi → hi - lo + 1 < num_users →
  (∀ x, x ∈ collar_ids → lo ≤ x ≤ hi) →
  fst (collar_id_loop fuel num_users lo hi collar_ids g) = Ok None.
Proof.
  intros Hle Hnum. revert collar_ids g.
  induction fuel as [|fuel IH]; intros collar_ids g Hin; [done|].
  simpl. pose proof (size_in_range collar_ids lo hi Hle Hin).
  destruct (Z.ltb_spec (Z.of_nat (size collar_ids)) num_users); [|lia].
  cbv [mbind M_bind bind].
  destruct (randint_eq lo hi g Hle) as (v & Hv & ->).
  apply IH. intros x [?| ->%elem_of_singleton]%elem_of_union; auto.
Qed.

(** C3, as stated, fails: asked for two users with IDs in [[1, 1]], the
    roster generator returns nothing and raises nothing, however many
    iterations of its loop are run and whatever the generator. *)
Lemma roster_generator_loops_forever :
  ¬ ∃ fuel g, fst (generate_test_users fuel 2 1 1 g) ≠ Ok None.
Proof.
  intros (fuel & g & Hne). apply Hne.
  unfold generate_test_users. cbv [mbind M_bind bind].
  pose proof (collar_id_loop_never_ends fuel 2 1 1 ∅ g) as Hloop.
  destruct (collar_id_loop fuel 2 1 1 ∅ g) as [out g'].
  simpl in Hloop. rewrite Hloop; [done|lia|lia|].
  by intros x ?%elem_of_empty.
Qed.

(** C3, amended. When the count is above the size of the range
    [[min_collar, max_collar]], the roster generator has no guard and
    signals no configuration error.  Over a non-empty range it never
    leaves its sampling loop: after any number of iterations, and whatever
    the generator, the loop is still running and nothing was raised.  Over
    an empty range the first draw raises the [ValueError] of [randint]. *)
Theorem roster_generator_count_above_range
    fuel num_users min_collar max_collar g :
  Z.max 0 (max_collar - min_collar + 1) < num_users →
  (min_collar ≤ max_collar →
   fst (generate_test_users fuel num_users min_collar max_collar g)
   = Ok None)
  ∧ (max_collar < min_collar →
     fst (generate_test_users (S fuel) num_users min_collar max_collar g)
     = Raise ValueError).
Proof.
  intros Hnum. unfold generate_test_users. cbv [mbind M_bind bind]. split.
  - intros Hle.
    pose proof (collar_id_loop_never_ends fuel num_users min_collar
                  max_collar ∅ g) as Hloop.
    destruct (collar_id_loop _ _ _ _ _ _) as [out g'].
    simpl in Hloop. rewrite Hloop; [done|lia|lia|].
    by intros x ?%elem_of_empty.
  - intros Hgt. cbn [collar_id_loop].
    assert ((Z.of_nat (size (∅ : gset Z)) <? num_users) = true) as ->
      by (rewrite size_empty; apply Z.ltb_lt; lia).
    cbv [mbind M_bind bind]. by rewrite randint_empty.
Qed.

Lemma roster_generator_count_above_range_witness :
  Z.max 0 (101 - 100 + 1) < 3
  ∧ fst (generate_test_users 50 3 100 101 g0) = Ok None.
Proof.
  assert (Z.max 0 (101 - 100 + 1) < 3) as Hnum by (vm_compute; reflexivity).
  split; [exact Hnum|].
  apply (roster_generator_count_above_range 50 3 100 101 g0 Hnum). lia.
Defined.

(** * Further properties of the code *)

(** ** The width of a formatted number *)

Lemma length_dec_digits fuel n acc k :
  (n < 10 ^ N.of_nat (S k))%N →
  (String.length (dec_digits (S fuel) n acc) ≤ S k + String.length acc)%nat.
Proof.
  revert n acc k. induction fuel as [|fuel IH]; intros n acc k Hn.
  - simpl. destruct (_ =? _)%N; simpl; lia.
  - cbn [dec_digits]. destruct (N.eqb_spec (n / 10) 0) as [Hz|Hnz].
    + simpl. lia.
    + destruct k as [|k].
      { exfalso. apply Hnz, N.div_small. simpl in Hn. lia. }
      change (String.length
                (dec_digits (S fuel) (n / 10)
                   (String (digit_char (n mod 10)) acc))
              ≤ S (S k) + String.length acc)%nat.
      etransitivity; [apply (IH _ _ k)|simpl; lia].
      apply N.Div0.div_lt_upper_bound.
      replace (N.of_nat (S (S k))) with (N.succ (N.of_nat (S k))) in Hn
        by lia.
      by rewrite N.pow_succ_r' in Hn.
Qed.

Lemma length_str_of_N n k :
  (n < 10 ^ N.of_nat (S k))%N → (String.length (str_of_N n) ≤ S k)%nat.
Proof.
  intros Hn. unfold str_of_N.
  pose proof (length_dec_digits (N.to_nat (N.log2 n)) n "" k Hn). simpl in *.
  lia.
Qed.

(** A number that fits the width is written on exactly that width, in
    digits only. *)
Lemma format_0d_exact w n :
  0 ≤ n < 10 ^ Z.of_nat (S w) →
  String.length (format_0d (S w) n) = S w
  ∧ all_chars is_digit (format_0d (S w) n) = true.
Proof.
  intros Hn. unfold format_0d.
  destruct (Z.ltb_spec n 0); [lia|].
  assert (String.length (str_of_N (Z.abs_N n)) ≤ S w)%nat as Hlen.
  { apply length_str_of_N. apply N2Z.inj_lt.
    rewrite N2Z.inj_pow, N2Z.inj_abs_N, nat_N_Z. simpl N.to_nat. lia. }
  split.
  - rewrite length_append, length_zeros. lia.
  - by rewrite all_chars_append, all_chars_zeros, all_chars_str_of_N.
Qed.

#[global] Instance format_0d_inj w : Inj (=) (=) (format_0d w).
Proof.
  intros n m Heq. apply (f_equal py_int) in Heq.
  rewrite !py_int_format_0d in Heq. congruence.
Qed.

(** ** The roster generator *)

Lemma size_add_le (X : gset Z) (x : Z) : (size (X ∪ {[ x ]}) ≤ S (size X))%nat.
Proof.
  rewrite size_union_alt.
  assert (size ({[ x ]} ∖ X) ≤ size ({[ x ]} : gset Z))%nat as Hle
    by (apply subseteq_size; by intros y [? _]%elem_of_difference).
  rewrite size_singleton in Hle. lia.
Qed.

(** The loop leaves with exactly [num_users] IDs, all of them drawn in
    the range. *)
Lemma collar_id_loop_result fuel num_users lo hi (X Y : gset Z) g g' :
  Z.of_nat (size X) ≤ num_users →
  (∀ x, x ∈ X → lo ≤ x ≤ hi) →
  collar_id_loop fuel num_users lo hi X g = (Ok (Some Y), g') →
  Z.of_nat (size Y) = num_users ∧ ∀ x, x ∈ Y → lo ≤ x ≤ hi.
Proof.
  revert X g. induction fuel as [|fuel IH]; intros X g Hsize Hin; [done|].
  simpl. destruct (Z.ltb_spec (Z.of_nat (size X)) num_users) as [Hlt|Hge].
  - cbv [mbind M_bind bind].
    destruct (Z.le_gt_cases lo hi) as [Hle|Hgt].
    + destruct (randint_eq lo hi g Hle) as (v & Hv & ->).
      apply IH.
      * pose proof (size_add_le X v). lia.
      * intros x [?| ->%elem_of_singleton]%elem_of_union; auto.
    + by rewrite randint_empty by lia.
  - intros [= <- _]. split; [lia|done].
Qed.

(** What [generate_test_users] returns when it returns. *)
Lemma generate_test_users_result fuel num_users lo hi g rows g' :
  generate_test_users fuel num_users lo hi g = (Ok (Some rows), g') →
  ∃ ids,
    rows = roster_row <$> ids
    ∧ length ids = Z.to_nat num_users ∧ 0 < num_users
    ∧ NoDup ids ∧ StronglySorted Z.le ids
    ∧ ∀ x, x ∈ ids → lo ≤ x ≤ hi.
Proof.
  unfold generate_test_users. cbv [mbind M_bind bind].
  destruct (collar_id_loop fuel num_users lo hi ∅ g) as [[[Y|]|e] g1] eqn:Hl;
    try done.
  destruct (Z.le_gt_cases num_users 0) as [Hle|Hpos].
  { (* the loop is left at once, with the empty set *)
    destruct fuel as [|fuel]; [done|]. cbn [collar_id_loop] in Hl.
    assert ((Z.of_nat (size (∅ : gset Z)) <? num_users) = false) as Hz
      by (rewrite size_empty; apply Z.ltb_ge; lia).
    rewrite Hz in Hl. injection Hl as <- _. by rewrite elements_empty. }
  apply collar_id_loop_result in Hl as [Hsize Hin];
    [|rewrite size_empty; lia|by intros x ?%elem_of_empty].
  pose proof (merge_sort_Permutation Z.le (elements Y)) as Hperm.
  destruct (merge_sort Z.le (elements Y)) as [|i0 ids0] eqn:Hsort.
  { apply Permutation_nil_l in Hperm. unfold size, set_size in Hsize.
    simpl in Hsize. rewrite <- Hperm in Hsize. simpl in Hsize. lia. }
  rewrite <- Hsort in *. clear Hsort i0 ids0.
  intros [= <- _]. eexists. split; [done|].
  split_and!; try done.
  - rewrite Hperm. unfold size, set_size in Hsize. simpl in Hsize. lia.
  - rewrite Hperm. apply NoDup_elements.
  - apply StronglySorted_merge_sort; apply _.
  - intros x Hx. rewrite Hperm in Hx. by apply Hin, elem_of_elements.
Qed.

(** X1. When the roster generator returns, the roster has exactly
    [num_users] rows, and no collar ID is written twice. *)
Theorem roster_count_and_uniqueness fuel num_users lo hi g rows g' :
  generate_test_users fuel num_users lo hi g = (Ok (Some rows), g') →
  Z.of_nat (length rows) = num_users ∧ NoDup (fst <$> rows).
Proof.
  intros (ids & -> & Hlen & Hpos & Hnd & _)%generate_test_users_result.
  split.
  - rewrite length_fmap. lia.
  - assert (fst <$> (roster_row <$> ids) = format_0d 5 <$> ids) as ->
      by (by rewrite <- list_fmap_compose).
    by apply (NoDup_fmap_2 (format_0d 5)).
Qed.

Lemma roster_count_and_uniqueness_witness :
  ∃ rows g',
    generate_test_users 10 3 100 120 g0 = (Ok (Some rows), g')
    ∧ Z.of_nat (length rows) = 3 ∧ NoDup (fst <$> rows).
Proof.
  eexists _, _. split; [vm_compute; reflexivity|].
  eapply (roster_count_and_uniqueness 10 3 100 120 g0).
  vm_compute; reflexivity.
Defined.

(** X2. When the roster generator returns, its rows are the rows of
    collar IDs that lie in [[min_collar, max_collar]] and come in ascending
    order; read with [int], the first field of a row gives the ID back. *)
Theorem roster_sorted_and_in_range fuel num_users lo hi g rows g' :
  generate_test_users fuel num_users lo hi g = (Ok (Some rows), g') →
  ∃ ids,
    rows = roster_row <$> ids
    ∧ StronglySorted Z.le ids
    ∧ (∀ x, x ∈ ids → lo ≤ x ≤ hi)
    ∧ py_int <$> (fst <$> rows) = Some <$> ids.
Proof.
  intros (ids & -> & _ & _ & _ & Hsorted & Hin)%generate_test_users_result.
  exists ids. split_and!; try done.
  rewrite <- !list_fmap_compose. apply list_fmap_ext.
  intros i x _. simpl. apply py_int_format_0d.
Qed.

Lemma roster_sorted_and_in_range_witness :
  ∃ rows g',
    generate_test_users 10 3 100 120 g0 = (Ok (Some rows), g')
    ∧ ∃ ids,
        rows = roster_row <$> ids
        ∧ StronglySorted Z.le ids
        ∧ (∀ x, x ∈ ids → 100 ≤ x ≤ 120)
        ∧ py_int <$> (fst <$> rows) = Some <$> ids.
Proof.
  eexists _, _. split; [vm_compute; reflexivity|].
  eapply (roster_sorted_and_in_range 10 3 100 120 g0).
  vm_compute; reflexivity.
Defined.

(** X3. Asked for no user at all (a count of zero or below), the roster
    generator raises: the loop is left at once with no ID, and
    [min(collar_ids)] of the summary fails on the empty list. *)
Theorem roster_of_no_user_raises fuel num_users lo hi g :
  num_users ≤ 0 →
  fst (generate_test_users (S fuel) num_users lo hi g) = Raise ValueError.
Proof.
  intros Hle. unfold generate_test_users. cbv [mbind M_bind bind].
  cbn [collar_id_loop].
  assert ((Z.of_nat (size (∅ : gset Z)) <? num_users) = false) as ->
    by (rewrite size_empty; apply Z.ltb_ge; lia).
  cbv [mret M_ret ret]. cbn beta iota. by rewrite elements_empty.
Qed.

Lemma roster_of_no_user_raises_witness :
  0 ≤ 0 ∧ fst (generate_test_users (S 4) 0 100 12000 g0) = Raise ValueError.
Proof.
  assert (0 ≤ 0) as H by lia.
  split; [exact H|]. exact (roster_of_no_user_raises 4 0 100 12000 g0 H).
Defined.

(** X4. For a collar ID between 0 and 99999 the first field of the
    roster row is exactly five characters, all decimal digits, and the
    e-mail starts with the ID without padding, so that [int] reads the same
    number from both. *)
Theorem roster_row_five_digits collar_id :
  0 ≤ collar_id ≤ 99999 →
  String.length (roster_row collar_id).1 = 5%nat
  ∧ all_chars is_digit (roster_row collar_id).1 = true
  ∧ py_int (roster_row collar_id).1 = Some collar_id
  ∧ ∃ unpadded,
      (roster_row collar_id).2 = unpadded +:+ "@bobosynctest.net"
      ∧ py_int unpadded = Some collar_id.
Proof.
  intros Hid. unfold roster_row. simpl.
  destruct (format_0d_exact 4 collar_id) as [Hlen Hdig]; [simpl; lia|].
  split_and!; [done|done|apply py_int_format_0d|].
  eexists. split; [done|apply py_int_format_0d].
Qed.

Lemma roster_row_five_digits_witness :
  0 ≤ 742 ≤ 99999
  ∧ String.length (roster_row 742).1 = 5%nat
  ∧ all_chars is_digit (roster_row 742).1 = true
  ∧ py_int (roster_row 742).1 = Some 742
  ∧ ∃ unpadded,
      (roster_row 742).2 = unpadded +:+ "@bobosynctest.net"
      ∧ py_int unpadded = Some 742.
Proof.
  assert (0 ≤ 742 ≤ 99999) as H by lia.
  split; [exact H|]. exact (roster_row_five_digits 742 H).
Defined.

(** ** The roster loader *)

Lemma load_rows_readable (rows : list (list string)) (ids : list string) :
  load_rows (Row <$> rows) ids = (true, ids ++ data_ids rows).
Proof.
  revert ids. induction rows as [|row rows IH]; intros ids.
  - simpl. by rewrite app_nil_r.
  - unfold data_ids in *. destruct row as [|field0 fields]; simpl.
    + apply IH.
    + rewrite filter_cons.
      destruct (String.eqb_spec (strip field0) "") as [Heq|Hne].
      * rewrite decide_False by (by intros ?). apply IH.
      * rewrite decide_True by done. rewrite IH. by rewrite <- app_assoc.
Qed.

(** X5. On a roster that is read to its end, the loader returns [True]
    and replaces [VALID_COLLAR_IDS] by the first fields of the rows after
    the header, stripped, in the order of the file; rows without a field
    and first fields that are blank are left out, repeated IDs are kept.
    The unknown pool is not touched. *)
Theorem loader_reads_first_fields G header rows :
  load_valid_collar_ids G (Readable (Row header :: (Row <$> rows)))
  = (true, mkGlobals (data_ids rows) (UNKNOWN_COLLAR_IDS G)).
Proof.
  unfold load_valid_collar_ids. by rewrite load_rows_readable.
Qed.

Lemma load_rows_true events ids ids' :
  load_rows events ids = (true, ids') → ∃ rows, events = Row <$> rows.
Proof.
  revert ids. induction events as [|[row|e] events IH]; intros ids Hload.
  - by exists [].
  - simpl in Hload.
    assert (∃ ids1, load_rows events ids1 = (true, ids')) as [ids1 H1].
    { destruct row as [|f0 ?]; [eauto|]. destruct (String.eqb _ _); eauto. }
    destruct (IH _ H1) as [rows ->]. by exists (row :: rows).
  - done.
Qed.

(** X6. The loader returns [True] exactly when the roster file exists,
    can be opened, has a first row, and is read to its end without an
    exception; an empty roster after the header counts as loaded. *)
Theorem loader_returns_true_iff G f :
  (load_valid_collar_ids G f).1 = true
  ↔ ∃ header rows, f = Readable (Row header :: (Row <$> rows)).
Proof.
  split.
  - destruct f as [| |[|[header|e] events]]; simpl; try done.
    destruct (load_rows events []) as [ok ids] eqn:Hload. simpl.
    intros ->. apply load_rows_true in Hload as [rows ->]. eauto.
  - intros (header & rows & ->). unfold load_valid_collar_ids.
    by rewrite load_rows_readable.
Qed.

(** *** Stripping twice *)

Lemma rstrip_rstrip s : rstrip (rstrip s) = rstrip s.
Proof.
  induction s as [|c s IH]; [done|]. simpl.
  destruct (rstrip s) as [|d r] eqn:Hr.
  - destruct (is_space c) eqn:Hc; [done|]. simpl. by rewrite Hc.
  - simpl in *. by rewrite IH.
Qed.

Lemma lstrip_head s :
  lstrip s = "" ∨ ∃ c s', lstrip s = String c s' ∧ is_space c = false.
Proof.
  induction s as [|c s IH]; [by left|]. simpl.
  destruct (is_space c) eqn:Hc; [done|]. right. eauto.
Qed.

Lemma rstrip_head c s :
  is_space c = false → ∃ r, rstrip (String c s) = String c r.
Proof.
  intros Hc. simpl. destruct (rstrip s); [|eauto]. rewrite Hc. eauto.
Qed.

Lemma strip_strip s : strip (strip s) = strip s.
Proof.
  unfold strip. destruct (lstrip_head s) as [->|(c & s' & -> & Hc)]; [done|].
  destruct (rstrip_head c s' Hc) as [r Hr]. rewrite Hr.
  simpl lstrip. rewrite Hc, <- Hr. apply rstrip_rstrip.
Qed.

Lemma load_rows_stripped events ids :
  Forall (λ v, v ≠ "" ∧ strip v = v) ids →
  Forall (λ v, v ≠ "" ∧ strip v = v) (load_rows events ids).2.
Proof.
  revert ids. induction events as [|[row|e] events IH]; intros ids Hids;
    simpl; try done.
  destruct row as [|f0 fields]; [by apply IH|].
  destruct (String.eqb_spec (strip f0) "") as [Heq|Hne]; [by apply IH|].
  apply IH, Forall_app. split; [done|].
  apply Forall_singleton. split; [done|apply strip_strip].
Qed.

(** X7. Whatever the roster file, and whether the loader succeeds or
    fails part way, every ID it leaves in [VALID_COLLAR_IDS] is non-empty
    and has no white space at either end: stripping it again changes
    nothing. *)
Theorem loaded_ids_are_stripped f v :
  v ∈ VALID_COLLAR_IDS (load_valid_collar_ids initial_globals f).2 →
  v ≠ "" ∧ strip v = v.
Proof.
  assert (Forall (λ v, v ≠ "" ∧ strip v = v)
            (VALID_COLLAR_IDS (load_valid_collar_ids initial_globals f).2))
    as Hall.
  { destruct f as [| |[|[header|e] events]]; simpl; try by constructor.
    pose proof (load_rows_stripped events [] (Forall_nil_2 _)) as Hrows.
    by destruct (load_rows events []). }
  rewrite Forall_forall in Hall. apply Hall.
Qed.

Lemma loaded_ids_are_stripped_witness :
  "00100" ∈ VALID_COLLAR_IDS (load_valid_collar_ids initial_globals roster0).2
  ∧ "00100" ≠ "" ∧ strip "00100" = "00100".
Proof.
  assert ("00100" ∈ VALID_COLLAR_IDS
                      (load_valid_collar_ids initial_globals roster0).2)
    as H by (vm_compute; left).
  split; [exact H|]. exact (loaded_ids_are_stripped roster0 "00100" H).
Defined.

Lemma strip_format_0d w n : strip (format_0d w n) = format_0d w n.
Proof.
  apply strip_no_space. unfold format_0d.
  pose proof (all_chars_str_of_N (Z.abs_N n)) as Hds.
  destruct (n <? 0).
  - simpl. apply digits_no_space.
    by rewrite all_chars_append, all_chars_zeros, Hds.
  - apply digits_no_space.
    by rewrite all_chars_append, all_chars_zeros, Hds.
Qed.

Lemma format_0d_not_empty w n : format_0d w n ≠ "".
Proof.
  intros Hnil. pose proof (py_int_format_0d w n) as Hp.
  by rewrite Hnil in Hp.
Qed.

Lemma data_ids_cons field0 fields rows :
  strip field0 ≠ "" →
  data_ids ((field0 :: fields) :: rows) = strip field0 :: data_ids rows.
Proof.
  intros Hne. unfold data_ids. simpl. by rewrite filter_cons, decide_True.
Qed.

(** The file written for a list of IDs, loaded. *)
Lemma roster_csv_loads G ids :
  load_valid_collar_ids G (roster_csv (roster_row <$> ids))
  = (true, mkGlobals (format_0d 5 <$> ids) (UNKNOWN_COLLAR_IDS G)).
Proof.
  unfold roster_csv.
  assert (((λ r : string * string, Row [r.1; r.2]) <$> (roster_row <$> ids))
          = Row <$> ((λ i, [format_0d 5 i;
                            format_0d 0 i +:+ "@bobosynctest.net"]) <$> ids))
    as -> by (by rewrite <- !list_fmap_compose).
  unfold load_valid_collar_ids. rewrite load_rows_readable, app_nil_l.
  do 2 f_equal. induction ids as [|i ids IH]; [done|].
  rewrite !fmap_cons, data_ids_cons;
    rewrite strip_format_0d; [|apply format_0d_not_empty].
  by rewrite IH.
Qed.

Lemma valid_ids_set_of_formatted ids :
  valid_ids_set_of (format_0d 5 <$> ids) ∅ = list_to_set ids.
Proof.
  apply set_eq. intros n.
  rewrite elem_of_valid_ids_set_of, elem_of_list_to_set. split.
  - intros [?%elem_of_empty|(v & (m & -> & Hm)%list_elem_of_fmap & Hv)];
      [done|].
    rewrite py_int_format_0d in Hv. by injection Hv as <-.
  - intros Hn. right. exists (format_0d 5 n).
    split; [by apply list_elem_of_fmap_2|apply py_int_format_0d].
Qed.

(** X8. The roster that the generator writes is the roster that the
    simulator loads: the loader returns [True] on it, [VALID_COLLAR_IDS]
    becomes the column of the padded IDs, in the order written, and the
    integers that the pool builder reads from them are exactly
    [num_users] numbers of the range [[min_collar, max_collar]]. *)
Theorem generated_roster_loads fuel num_users lo hi g rows g' :
  generate_test_users fuel num_users lo hi g = (Ok (Some rows), g') →
  load_valid_collar_ids initial_globals (roster_csv rows)
  = (true, mkGlobals (fst <$> rows) [])
  ∧ Z.of_nat (size (valid_ids_set_of (fst <$> rows) ∅)) = num_users
  ∧ ∀ n, n ∈ valid_ids_set_of (fst <$> rows) ∅ → lo ≤ n ≤ hi.
Proof.
  intros (ids & -> & Hlen & Hpos & Hnd & _ & Hin)%generate_test_users_result.
  rewrite roster_csv_loads.
  assert (fst <$> (roster_row <$> ids) = format_0d 5 <$> ids) as ->
    by (by rewrite <- list_fmap_compose).
  rewrite valid_ids_set_of_formatted. split_and!.
  - done.
  - rewrite size_list_to_set by done. lia.
  - intros n Hn%elem_of_list_to_set. by apply Hin.
Qed.

Lemma generated_roster_loads_witness :
  ∃ rows g',
    generate_test_users 10 3 100 120 g0 = (Ok (Some rows), g')
    ∧ load_valid_collar_ids initial_globals (roster_csv rows)
      = (true, mkGlobals (fst <$> rows) [])
    ∧ Z.of_nat (size (valid_ids_set_of (fst <$> rows) ∅)) = 3
    ∧ ∀ n, n ∈ valid_ids_set_of (fst <$> rows) ∅ → 100 ≤ n ≤ 120.
Proof.
  eexists _, _. split; [vm_compute; reflexivity|].
  eapply (generated_roster_loads 10 3 100 120 g0).
  vm_compute; reflexivity.
Defined.

(** ** The shape of the unknown IDs *)

Lemma unknown_draws_bounds g v : v ∈ unknown_draws g → 1 ≤ v ≤ 15000.
Proof.
  unfold unknown_draws.
  intros [H|[H|H]%elem_of_app]%elem_of_app;
    apply band_draws_bounds in H; lia.
Qed.

(** X9. Whatever the roster and the generator, every ID of the unknown
    pool that the start of [main] builds is five characters long, all
    decimal digits, and is the number of a draw between 1 and 15000. *)
Theorem unknown_ids_are_five_digits f g G g' u :
  startup f g = (Ok G, g') →
  u ∈ UNKNOWN_COLLAR_IDS G →
  String.length u = 5%nat
  ∧ all_chars is_digit u = true
  ∧ ∃ n, 1 ≤ n ≤ 15000 ∧ py_int u = Some n.
Proof.
  pose proof (startup_eq f g) as Heq.
  destruct (load_valid_collar_ids initial_globals f) as [loaded G1].
  destruct Heq as [HU ->]. destruct (loaded && _).
  - intros [= <- _]. simpl.
    intros (n & -> & [_ Hn]%list_elem_of_filter)%list_elem_of_fmap.
    apply unknown_draws_bounds in Hn.
    destruct (format_0d_exact 4 n) as [Hlen Hdig]; [simpl; lia|].
    split_and!; [done|done|]. exists n. split; [done|apply py_int_format_0d].
  - intros [= <- _]. rewrite HU. by intros ?%elem_of_nil.
Qed.

Lemma unknown_ids_are_five_digits_witness :
  ∃ G g',
    startup roster0 g0 = (Ok G, g')
    ∧ "00002" ∈ UNKNOWN_COLLAR_IDS G
    ∧ String.length "00002" = 5%nat
    ∧ all_chars is_digit "00002" = true
    ∧ ∃ n, 1 ≤ n ≤ 15000 ∧ py_int "00002" = Some n.
Proof.
  eexists _, _. split; [vm_compute; reflexivity|]. split; [by left|].
  eapply (unknown_ids_are_five_digits roster0 g0 _ _ "00002");
    [vm_compute; reflexivity|by left].
Defined.

Lemma filter_all {A} (P : A → Prop) `{∀ x, Decision (P x)} (l : list A) :
  (∀ x, x ∈ l → P x) → filter P l = l.
Proof.
  induction l as [|x l IH]; intros Hl; [done|].
  rewrite filter_cons, decide_True by (apply Hl; left).
  f_equal. apply IH. intros y Hy. apply Hl. by right.
Qed.

(** With valid integers in 100..12000 only, the two outer bands are
    kept whole. *)
Lemma outer_bands_kept G g :
  VALID_COLLAR_IDS G ≠ [] →
  (∀ v n, v ∈ VALID_COLLAR_IDS G → py_int v = Some n → 100 ≤ n ≤ 12000) →
  ∃ G' g',
    generate_unknown_collar_ids G g = (Ok G', g')
    ∧ take 20 (UNKNOWN_COLLAR_IDS G')
      = format_0d 5 <$> (band_draws 10 1 99 g
                          ++ band_draws 10 12001 15000 (advance 10 g))
    ∧ (20 ≤ length (UNKNOWN_COLLAR_IDS G') ≤ 40)%nat.
Proof.
  intros Hne Hrange. rewrite generate_unknown_collar_ids_eq by done.
  eexists _, _. split; [done|]. cbn [UNKNOWN_COLLAR_IDS].
  set (S := valid_ids_set_of (VALID_COLLAR_IDS G) ∅).
  assert (∀ x, x ∈ S → 100 ≤ x ≤ 12000) as HS.
  { intros x [?%elem_of_empty|(v & Hv & Hx)]%elem_of_valid_ids_set_of;
      [done|eauto]. }
  unfold unknown_draws. rewrite !filter_app.
  rewrite (filter_all _ (band_draws 10 1 99 g)).
  2: { intros x Hx%band_draws_bounds Hin%HS; lia. }
  rewrite (filter_all _ (band_draws 10 12001 15000 _)).
  2: { intros x Hx%band_draws_bounds Hin%HS; lia. }
  pose proof (length_filter (λ x, x ∉ S)
                (band_draws 20 100 12000 (advance 20 g))) as Hlen.
  rewrite length_band_draws in Hlen by lia.
  rewrite app_assoc, fmap_app. split.
  - rewrite take_app_length'; [done|].
    rewrite length_fmap, length_app, !length_band_draws by lia. done.
  - rewrite length_app, !length_fmap, length_app, !length_band_draws by lia.
    lia.
Qed.

(** X10. When the integers of the valid IDs all lie in 100..12000 (the
    range of the roster that [generate_test_users.py] writes), the draws of
    the two outer bands never collide: the pool starts with the twenty IDs
    drawn in 1..99 and in 12001..15000, in that order, so it has between
    20 and 40 entries and is never empty. *)
Theorem unknown_pool_outer_bands_kept G g :
  VALID_COLLAR_IDS G ≠ [] →
  (∀ v n, v ∈ VALID_COLLAR_IDS G → py_int v = Some n → 100 ≤ n ≤ 12000) →
  ∃ G' g',
    generate_unknown_collar_ids G g = (Ok G', g')
    ∧ take 20 (UNKNOWN_COLLAR_IDS G')
      = format_0d 5 <$> (band_draws 10 1 99 g
                          ++ band_draws 10 12001 15000 (advance 10 g))
    ∧ (20 ≤ length (UNKNOWN_COLLAR_IDS G') ≤ 40)%nat.
Proof. apply outer_bands_kept. Qed.

(** ** The fields of a record *)

Lemma wp_conj {A} (m : M A) (Q1 Q2 : A → rng → Prop) R g :
  wp m Q1 R g → wp m Q2 R g → wp m (λ a g', Q1 a g' ∧ Q2 a g') R g.
Proof. unfold wp. destruct (m g) as [[a|e] g']; auto. Qed.

Lemma wp_generate_random_entry_ranges execution_time id g :
  wp (generate_random_entry execution_time id)
     (λ e _, 10000 ≤ payroll_id e ≤ 99999 ∧ 0 ≤ geo_status e ≤ 5) never g.
Proof.
  unfold generate_random_entry.
  apply wp_bind, wp_choice; [done|]. intros tt g1 _.
  apply wp_bind.
  apply (wp_mono _ (λ _ _, True) _ never); [|intros eid g2 _|done].
  { destruct id as [i|]; [by apply wp_ret|].
    apply wp_bind, wp_randint; [lia|]. intros n g2 _. by apply wp_ret. }
  apply wp_bind, wp_randint; [lia|]. intros pid g3 Hpid.
  apply wp_bind, wp_randint; [lia|]. intros sec g4 _.
  apply wp_bind, wp_randint; [lia|]. intros gs g5 Hgs.
  apply wp_bind, wp_uniform_rounded; [lia|]. intros lat g6 _.
  apply wp_bind, wp_uniform_rounded; [lia|]. intros lon g7 _.
  apply wp_bind, wp_uniform_rounded; [lia|]. intros acc g8 _.
  by apply wp_ret.
Qed.

Lemma unknown_pool_outer_bands_kept_witness :
  VALID_COLLAR_IDS G_one ≠ []
  ∧ (∀ v n, v ∈ VALID_COLLAR_IDS G_one → py_int v = Some n →
            100 ≤ n ≤ 12000)
  ∧ ∃ G' g',
      generate_unknown_collar_ids G_one g_ones = (Ok G', g')
      ∧ take 20 (UNKNOWN_COLLAR_IDS G')
        = format_0d 5 <$> (band_draws 10 1 99 g_ones
                            ++ band_draws 10 12001 15000 (advance 10 g_ones))
      ∧ (20 ≤ length (UNKNOWN_COLLAR_IDS G') ≤ 40)%nat.
Proof.
  assert (VALID_COLLAR_IDS G_one ≠ []) as H1 by (simpl; congruence).
  assert (∀ v n, v ∈ VALID_COLLAR_IDS G_one → py_int v = Some n →
                 100 ≤ n ≤ 12000) as H2.
  { intros v n Hv Hn. simpl in Hv. apply list_elem_of_singleton in Hv.
    subst v. vm_compute in Hn. injection Hn as <-. lia. }
  split; [exact H1|]. split; [exact H2|].
  exact (unknown_pool_outer_bands_kept G_one g_ones H1 H2).
Defined.

Lemma format_02d_digits n :
  0 ≤ n ≤ 99 →
  String.length (format_0d 2 n) = 2%nat
  ∧ all_chars is_digit (format_0d 2 n) = true.
Proof. intros Hn. apply (format_0d_exact 1). simpl. lia. Qed.

(** X11. For a reference time as the clock gives it (a year of four
    digits), every record that the synthesizer returns has a payroll
    number between 10000 and 99999 and a geo status between 0 and 5; its
    [clocking_date] is eight digits, its [clocking_time] six, and
    [datetime_created] is the one followed by the other, fourteen digits
    in all. *)
Theorem record_fields_shape execution_time id g :
  well_formed execution_time →
  ∃ e g',
    generate_random_entry execution_time id g = (Ok e, g')
    ∧ 10000 ≤ payroll_id e ≤ 99999
    ∧ 0 ≤ geo_status e ≤ 5
    ∧ String.length (clocking_date e) = 8%nat
    ∧ String.length (clocking_time e) = 6%nat
    ∧ datetime_created e = clocking_date e +:+ clocking_time e
    ∧ String.length (datetime_created e) = 14%nat
    ∧ all_chars is_digit (datetime_created e) = true.
Proof.
  intros (Hy & Hmo & Hd & Hh & Hmi & _).
  apply wp_ok.
  eapply wp_mono;
    [apply wp_conj; [apply wp_generate_random_entry
                    |apply wp_generate_random_entry_ranges]| |done].
  intros e g' [(_ & _ & Hdate & (sec & Hsec & Htime) & Hcreated) [Hp Hg]].
  destruct (format_0d_exact 3 (year execution_time)) as [Ly Dy];
    [simpl; lia|].
  destruct (format_02d_digits (month execution_time)) as [Lmo Dmo]; [lia|].
  destruct (format_02d_digits (day execution_time)) as [Ld Dd]; [lia|].
  destruct (format_02d_digits (hour execution_time)) as [Lh Dh]; [lia|].
  destruct (format_02d_digits (minute execution_time)) as [Lmi Dmi]; [lia|].
  destruct (format_02d_digits sec) as [Ls Ds]; [lia|].
  assert (String.length (clocking_date e) = 8%nat) as Hld
    by (rewrite Hdate; unfold strftime_Ymd;
        rewrite !length_append, Ly, Lmo, Ld; done).
  assert (String.length (clocking_time e) = 6%nat) as Hlt
    by (rewrite Htime, !length_append, Lh, Lmi, Ls; done).
  split_and!; try done; try lia.
  - rewrite Hcreated, length_append, Hld, Hlt. done.
  - rewrite Hcreated, Hdate, Htime. unfold strftime_Ymd.
    by rewrite !all_chars_append, Dy, Dmo, Dd, Dh, Dmi, Ds.
Qed.

Lemma record_fields_shape_witness :
  well_formed t0
  ∧ ∃ e g',
      generate_random_entry t0 None g0 = (Ok e, g')
      ∧ 10000 ≤ payroll_id e ≤ 99999
      ∧ 0 ≤ geo_status e ≤ 5
      ∧ String.length (clocking_date e) = 8%nat
      ∧ String.length (clocking_time e) = 6%nat
      ∧ datetime_created e = clocking_date e +:+ clocking_time e
      ∧ String.length (datetime_created e) = 14%nat
      ∧ all_chars is_digit (datetime_created e) = true.
Proof.
  assert (well_formed t0) as H by (unfold well_formed; simpl; lia).
  split; [exact H|]. exact (record_fields_shape t0 None g0 H).
Defined.

(** X12. A record made without an ID gets one of its own: five decimal
    digits that read as a number between 1 and 99999, so never [00000].
    A record made with an ID carries that ID unchanged. *)
Theorem record_employee_id execution_time id g :
  ∃ e g',
    generate_random_entry execution_time id g = (Ok e, g')
    ∧ match id with
      | Some i => employee_id e = i
      | None =>
          String.length (employee_id e) = 5%nat
          ∧ all_chars is_digit (employee_id e) = true
          ∧ ∃ n, 1 ≤ n ≤ 99999 ∧ py_int (employee_id e) = Some n
      end.
Proof.
  apply wp_ok. eapply wp_mono; [apply wp_generate_random_entry| |done].
  intros e g' (_ & Hid & _). destruct id as [i|]; [done|].
  destruct Hid as (n & Hn & ->).
  destruct (format_0d_exact 4 n) as [Hlen Hdig]; [simpl; lia|].
  split_and!; [done|done|]. exists n. split; [done|apply py_int_format_0d].
Qed.

(** ** What a batch leaves behind *)

Lemma wp_create_bobo_csv_io G cfg run_counter execution_time fault g :
  wp (create_bobo_csv G cfg run_counter execution_time fault)
     (λ b _, batch_io_spec G cfg run_counter execution_time fault b)
     (λ e _, e = ValueError ∧ MAX_ENTRIES cfg < MIN_ENTRIES cfg) g.
Proof.
  unfold create_bobo_csv.
  destruct (Z.le_gt_cases (MIN_ENTRIES cfg) (MAX_ENTRIES cfg)) as [Hle|Hgt].
  2: { cbv [wp mbind M_bind bind]. rewrite randint_empty by lia.
       split; [done|lia]. }
  apply wp_bind, wp_randint; [done|]. intros num_entries g1 Hnum.
  apply wp_bind.
  eapply wp_mono; [apply wp_compose_collar_ids| |done].
  intros c g2 _. simpl. case_bool_decide as Hopen.
  { apply wp_ret. exists num_entries. split; [done|]. subst fault.
    by rewrite decide_True. }
  apply wp_bind.
  eapply wp_mono; [apply wp_write_rows| |done].
  intros [ok w] g3 (new & -> & _ & Hok). simpl in *.
  destruct ok; simpl.
  - destruct Hok as [Hl Hj]. case_bool_decide as Hclose; simpl.
    + apply wp_ret. exists num_entries. split; [done|]. subst fault.
      by rewrite decide_True.
    + apply wp_ret. exists num_entries. split; [done|].
      rewrite decide_False; [done|].
      destruct fault as [| |j|]; simpl; [tauto|congruence| |congruence].
      intros Hlt. apply (Hj j eq_refl). lia.
  - destruct Hok as (j & Hfj & Hij & Hl).
    apply wp_ret. exists num_entries. split; [done|]. subst fault.
    rewrite decide_True by (simpl; lia). simpl.
    split_and!; try done. lia.
Qed.

Lemma create_bobo_csv_io G cfg run_counter execution_time fault g b g' :
  create_bobo_csv G cfg run_counter execution_time fault g = (Ok b, g') →
  batch_io_spec G cfg run_counter execution_time fault b.
Proof.
  intros Hrun.
  exact (wp_inv _ _ _ _ _ _
           (wp_create_bobo_csv_io G cfg run_counter execution_time fault g)
           Hrun).
Qed.

(** X13. A batch that is written to its end has as many rows as the
    entry count drawn in [[MIN_ENTRIES, MAX_ENTRIES]] (none when that
    count is zero or negative), and its summary reports that count: the
    numbers of valid and unknown IDs it prints add up to it, even when
    fewer unknown IDs than announced were there to inject. *)
Theorem written_batch_row_count
    G cfg run_counter execution_time fault g b g' path :
  create_bobo_csv G cfg run_counter execution_time fault g = (Ok b, g') →
  csv_file b = Some path →
  Z.max 0 (MIN_ENTRIES cfg) ≤ Z.of_nat (length (rows b))
    ≤ Z.max 0 (MAX_ENTRIES cfg)
  ∧ (∀ v u, MsgCollarIds v u ∈ printed b →
            Z.max 0 (v + u) = Z.of_nat (length (rows b))
            ∧ 0 ≤ u ≤ 2
            ∧ Z.of_nat (length (unknown_ids (ids b))) ≤ u).
Proof.
  intros Hrun Hfile.
  destruct (create_bobo_csv_spec _ _ _ _ _ _ _ _ Hrun)
    as (num' & _ & Hc & _).
  destruct (create_bobo_csv_io _ _ _ _ _ _ _ _ Hrun) as (num & Hnum & Hio).
  destruct (decide (faulty fault num)); [destruct Hio; congruence|].
  destruct Hio as (_ & _ & Hlen & Hprinted). split; [lia|].
  intros v u Hin. rewrite Hprinted in Hin. unfold composition_spec in Hc.
  destruct (VALID_COLLAR_IDS G) as [|v0 vs].
  - simpl in Hin. by repeat (apply elem_of_cons in Hin as [[= ]|Hin]);
      apply elem_of_nil in Hin.
  - destruct Hc as (Huc & _ & Hul & _).
    repeat (apply elem_of_cons in Hin as [Heq|Hin]); try done.
    + injection Heq as -> ->. split_and!; lia.
    + by apply elem_of_nil in Hin.
Qed.

Lemma written_batch_row_count_witness :
  ∃ b g' path,
    create_bobo_csv G0 cfg0 1 t0 NoFault g0 = (Ok b, g')
    ∧ csv_file b = Some path
    ∧ Z.max 0 (MIN_ENTRIES cfg0) ≤ Z.of_nat (length (rows b))
        ≤ Z.max 0 (MAX_ENTRIES cfg0)
    ∧ (∀ v u, MsgCollarIds v u ∈ printed b →
              Z.max 0 (v + u) = Z.of_nat (length (rows b))
              ∧ 0 ≤ u ≤ 2
              ∧ Z.of_nat (length (unknown_ids (ids b))) ≤ u).
Proof.
  eexists _, _, _. split; [vm_compute; reflexivity|]. split; [reflexivity|].
  eapply (written_batch_row_count G0 cfg0 1 t0 NoFault g0);
    [vm_compute; reflexivity|reflexivity].
Defined.

(** X14. A batch meets its fault when [open] or the closing of the file
    raises, or [writerow] raises on a row that the batch has, given the
    entry count it draws.  The call then returns [None], having printed
    the error message and nothing else, and before the fault [writerow]
    had returned for no row when [open] raised, for the [j] rows before
    row [j] when that row raised, for every row when the closing raised.
    How much of these rows has reached the disk is left to the buffers of
    the file and is not stated. *)
Theorem failed_batch_rows_handed_over
    G cfg run_counter execution_time fault g :
  MIN_ENTRIES cfg ≤ MAX_ENTRIES cfg →
  ∃ num_entries g1 b g',
    random.randint (MIN_ENTRIES cfg) (MAX_ENTRIES cfg) g
    = (Ok num_entries, g1)
    ∧ create_bobo_csv G cfg run_counter execution_time fault g = (Ok b, g')
    ∧ (faulty fault num_entries →
         csv_file b = None ∧ failed_batch fault num_entries b).
Proof.
  intros Hcfg.
  destruct (create_bobo_csv_returns G cfg run_counter execution_time fault g
              Hcfg) as (b & g' & Hrun).
  destruct (create_bobo_csv_drawn _ _ _ _ _ _ _ _ Hrun)
    as (num_entries & g1 & Hdraw & _ & Hiff & Hfailed).
  exists num_entries, g1, b, g'. split_and!; try done.
  intros Hfault%Hiff. auto.
Qed.

Lemma failed_batch_rows_handed_over_witness :
  MIN_ENTRIES cfg0 ≤ MAX_ENTRIES cfg0
  ∧ ∃ num_entries g1 b g',
      random.randint (MIN_ENTRIES cfg0) (MAX_ENTRIES cfg0) g0
      = (Ok num_entries, g1)
      ∧ create_bobo_csv G0 cfg0 1 t0 (WriteFails 1) g0 = (Ok b, g')
      ∧ (faulty (WriteFails 1) num_entries →
           csv_file b = None ∧ failed_batch (WriteFails 1) num_entries b).
Proof.
  assert (MIN_ENTRIES cfg0 ≤ MAX_ENTRIES cfg0) as H1 by (simpl; lia).
  split; [exact H1|].
  exact (failed_batch_rows_handed_over G0 cfg0 1 t0 (WriteFails 1) g0 H1).
Defined.

(** ** One file name per second *)

Lemma append_inj_length (a a' b b' : string) :
  String.length a = String.length a' →
  a +:+ b = a' +:+ b' → a = a' ∧ b = b'.
Proof.
  revert a'. induction a as [|c a IH]; intros [|c' a'] Hlen Heq;
    simpl in Hlen; try done.
  rewrite !append_cons in Heq. injection Heq as -> Heq.
  destruct (IH a') as [-> ->]; [lia|done|done].
Qed.

Lemma strftime_Ymd_HMS_inj t1 t2 :
  well_formed t1 → well_formed t2 →
  strftime_Ymd_HMS t1 +:+ "_output.csv" = strftime_Ymd_HMS t2 +:+ "_output.csv" →
  t1 = t2.
Proof.
  intros (Hy1 & Hmo1 & Hd1 & Hh1 & Hmi1 & Hs1)
         (Hy2 & Hmo2 & Hd2 & Hh2 & Hmi2 & Hs2).
  unfold strftime_Ymd_HMS, strftime_Ymd. rewrite !append_assoc.
  assert (∀ n, 1000 ≤ n ≤ 9999 → String.length (format_0d 4 n) = 4%nat)
    as L4 by (intros n Hn; apply (format_0d_exact 3); simpl; lia).
  assert (∀ n, 0 ≤ n ≤ 99 → String.length (format_0d 2 n) = 2%nat)
    as L2 by (intros n Hn; by apply format_02d_length).
  intros Heq.
  apply append_inj_length in Heq as [Hy Heq]; [|rewrite !L4; lia].
  apply append_inj_length in Heq as [Hmo Heq]; [|rewrite !L2; lia].
  apply append_inj_length in Heq as [Hd Heq]; [|rewrite !L2; lia].
  apply append_inj_length in Heq as [_ Heq]; [|done].
  apply append_inj_length in Heq as [Hh Heq]; [|rewrite !L2; lia].
  apply append_inj_length in Heq as [Hmi Heq]; [|rewrite !L2; lia].
  apply append_inj_length in Heq as [Hs _]; [|rewrite !L2; lia].
  apply (inj (format_0d 4)) in Hy. apply (inj (format_0d 2)) in Hmo.
  apply (inj (format_0d 2)) in Hd. apply (inj (format_0d 2)) in Hh.
  apply (inj (format_0d 2)) in Hmi. apply (inj (format_0d 2)) in Hs.
  destruct t1, t2; simpl in *; congruence.
Qed.

(** X15. The name of an output file is made of the output directory and
    of the reference time of its batch, to the second, and of nothing
    else: within a run, two batches that are written get the same path
    exactly when their reference times are the same second, so that files
    of different seconds never collide and a second batch in the same
    second writes over the first. *)
Theorem output_path_per_second
    G1 G2 cfg rc1 rc2 t1 t2 fault1 fault2 g1 g2 b1 b2 g1' g2' p1 p2 :
  well_formed t1 → well_formed t2 →
  create_bobo_csv G1 cfg rc1 t1 fault1 g1 = (Ok b1, g1') →
  create_bobo_csv G2 cfg rc2 t2 fault2 g2 = (Ok b2, g2') →
  csv_file b1 = Some p1 → csv_file b2 = Some p2 →
  p1 = p2 ↔ t1 = t2.
Proof.
  intros Hw1 Hw2 Hrun1 Hrun2 Hp1 Hp2.
  destruct (create_bobo_csv_io _ _ _ _ _ _ _ _ Hrun1) as (n1 & _ & Hio1).
  destruct (create_bobo_csv_io _ _ _ _ _ _ _ _ Hrun2) as (n2 & _ & Hio2).
  destruct (decide (faulty fault1 n1)); [destruct Hio1; congruence|].
  destruct (decide (faulty fault2 n2)); [destruct Hio2; congruence|].
  destruct Hio1 as (Hf1 & _). destruct Hio2 as (Hf2 & _).
  assert (p1 = output_path_of cfg t1) as -> by congruence.
  assert (p2 = output_path_of cfg t2) as -> by congruence.
  split; [|by intros ->]. unfold output_path_of. intros Heq.
  apply (inj (String.app _)) in Heq. apply (inj (String.app _)) in Heq.
  apply (inj (String.app _)) in Heq. by apply strftime_Ymd_HMS_inj.
Qed.

Lemma output_path_per_second_witness :
  well_formed t0 ∧ well_formed t1
  ∧ ∃ b1 b2 g1' g2' p1 p2,
      create_bobo_csv G0 cfg0 1 t0 NoFault g0 = (Ok b1, g1')
      ∧ create_bobo_csv G0 cfg0 2 t1 NoFault g0 = (Ok b2, g2')
      ∧ csv_file b1 = Some p1 ∧ csv_file b2 = Some p2
      ∧ (p1 = p2 ↔ t0 = t1).
Proof.
  assert (well_formed t0) as H0 by (unfold well_formed; simpl; lia).
  assert (well_formed t1) as H1 by (unfold well_formed; simpl; lia).
  split; [exact H0|]. split; [exact H1|].
  eexists _, _, _, _, _, _.
  split; [vm_compute; reflexivity|]. split; [vm_compute; reflexivity|].
  split; [reflexivity|]. split; [reflexivity|].
  eapply (output_path_per_second G0 G0 cfg0 1 2 t0 t1 NoFault NoFault g0 g0
            _ _ _ _ _ _ H0 H1);
    [vm_compute; reflexivity|vm_compute; reflexivity|reflexivity
    |reflexivity].
Defined.

(** ** Which IDs reach the file *)

(** X16. With valid IDs at hand and at least two entries a batch, a
    batch that is written to its end holds every unknown ID that was
    sampled for it: its [employee_id] column is a reordering of the
    sampled unknown IDs and of the valid IDs drawn to fill the batch. *)
Theorem written_batch_holds_all_sampled_ids
    G cfg run_counter execution_time fault g b g' path :
  VALID_COLLAR_IDS G ≠ [] →
  2 ≤ MIN_ENTRIES cfg →
  create_bobo_csv G cfg run_counter execution_time fault g = (Ok b, g') →
  csv_file b = Some path →
  employee_id <$> rows b ≡ₚ unknown_ids (ids b) ++ valid_ids (ids b)
  ∧ (length (unknown_ids (ids b)) + length (valid_ids (ids b)))%nat
    = length (rows b).
Proof.
  intros Hne Hmin Hrun Hfile.
  pose proof (create_bobo_csv_spec _ _ _ _ _ _ _ _ Hrun) as Hspec.
  pose proof (batch_ids_prefix _ _ _ _ _ Hne Hspec) as Hpre.
  destruct Hspec as (num & Hnum & Hc & _ & _ & Hf).
  rewrite Hfile in Hf. destruct Hf as (Hlen & _).
  unfold composition_spec in Hc.
  destruct (VALID_COLLAR_IDS G) as [|v0 vs]; [done|].
  destruct Hc as (Huc & _ & Hul & _ & Hvl & Hperm).
  assert (length (rows b) = length (collar_ids_to_use (ids b))) as Heq
    by (rewrite (Permutation_length Hperm), length_app; lia).
  split.
  - rewrite Hpre, Heq, firstn_all. done.
  - rewrite Heq, (Permutation_length Hperm), length_app. done.
Qed.

Lemma written_batch_holds_all_sampled_ids_witness :
  VALID_COLLAR_IDS G0 ≠ []
  ∧ 2 ≤ MIN_ENTRIES cfg0
  ∧ ∃ b g' path,
      create_bobo_csv G0 cfg0 1 t0 NoFault g0 = (Ok b, g')
      ∧ csv_file b = Some path
      ∧ employee_id <$> rows b ≡ₚ unknown_ids (ids b) ++ valid_ids (ids b)
      ∧ (length (unknown_ids (ids b)) + length (valid_ids (ids b)))%nat
        = length (rows b).
Proof.
  assert (VALID_COLLAR_IDS G0 ≠ []) as H1 by (simpl; congruence).
  assert (2 ≤ MIN_ENTRIES cfg0) as H2 by (simpl; lia).
  split; [exact H1|]. split; [exact H2|].
  eexists _, _, _. split; [vm_compute; reflexivity|]. split; [reflexivity|].
  eapply (written_batch_holds_all_sampled_ids G0 cfg0 1 t0 NoFault g0 _ _ _
            H1 H2);
    [vm_compute; reflexivity|reflexivity].
Defined.

(** X17. With valid IDs at hand and an empty unknown pool, no unknown
    ID is sampled and every row of a batch carries an ID of the valid
    list, whatever number of unknown IDs was drawn for the summary. *)
Theorem batch_of_valid_ids_only
    G cfg run_counter execution_time fault g b g' i e :
  VALID_COLLAR_IDS G ≠ [] →
  UNKNOWN_COLLAR_IDS G = [] →
  create_bobo_csv G cfg run_counter execution_time fault g = (Ok b, g') →
  rows b !! i = Some e →
  unknown_ids (ids b) = [] ∧ employee_id e ∈ VALID_COLLAR_IDS G.
Proof.
  intros Hne HU Hrun He.
  pose proof (create_bobo_csv_spec _ _ _ _ _ _ _ _ Hrun) as Hspec.
  pose proof (batch_ids_prefix _ _ _ _ _ Hne Hspec) as Hpre.
  destruct Hspec as (num & _ & Hc & _).
  unfold composition_spec in Hc.
  destruct (VALID_COLLAR_IDS G) as [|v0 vs] eqn:HV; [done|].
  rewrite <- HV in *.
  destruct Hc as (_ & Hus & _ & Hvs & _ & Hperm).
  rewrite HU in Hus. apply submseteq_nil_r in Hus.
  split; [done|]. rewrite Hus in Hperm. simpl in Hperm.
  apply Hvs. rewrite <- Hperm.
  assert (employee_id e ∈ employee_id <$> rows b) as Hin
    by (apply list_elem_of_fmap_2; by eapply list_elem_of_lookup_2).
  rewrite Hpre in Hin. apply elem_of_take in Hin as (j & Hj & _).
  by eapply list_elem_of_lookup_2.
Qed.

Lemma batch_of_valid_ids_only_witness :
  VALID_COLLAR_IDS G_one ≠ []
  ∧ UNKNOWN_COLLAR_IDS G_one = []
  ∧ ∃ b g' e,
      create_bobo_csv G_one cfg0 1 t0 NoFault g0 = (Ok b, g')
      ∧ rows b !! 0%nat = Some e
      ∧ unknown_ids (ids b) = [] ∧ employee_id e ∈ VALID_COLLAR_IDS G_one.
Proof.
  assert (VALID_COLLAR_IDS G_one ≠ []) as H1 by (simpl; congruence).
  assert (UNKNOWN_COLLAR_IDS G_one = []) as H2 by reflexivity.
  split; [exact H1|]. split; [exact H2|].
  eexists _, _, _. split; [vm_compute; reflexivity|]. split; [reflexivity|].
  eapply (batch_of_valid_ids_only G_one cfg0 1 t0 NoFault g0 _ _ 0 _ H1 H2);
    [vm_compute; reflexivity|reflexivity].
Defined.

(** ** Complete and interrupted runs *)

Lemma sleeps_app tr1 tr2 : sleeps (tr1 ++ tr2) = sleeps tr1 ++ sleeps tr2.
Proof. apply omap_app. Qed.

Lemma prints_no_effect (msgs : list message) :
  increments (Print <$> msgs) = []
  ∧ files_written (Print <$> msgs) = []
  ∧ sleeps (Print <$> msgs) = [].
Proof. by induction msgs. Qed.

Lemma batch_effects_sleeps k b : sleeps (batch_effects k b) = [].
Proof.
  unfold batch_effects. rewrite !sleeps_app.
  destruct (prints_no_effect (printed b)) as (_ & _ & ->).
  by destruct (opened b), (csv_file b).
Qed.

(** The file of a batch is opened unless [open] fails. *)
Lemma batch_effects_files_written G cfg execution_time fault k b :
  batch_io_spec G cfg k execution_time fault b →
  files_written (batch_effects k b)
  = if decide (fault = OpenFails) then [] else [k].
Proof.
  intros (num & _ & Hio). unfold batch_effects.
  rewrite !files_written_app.
  destruct (prints_no_effect (printed b)) as (_ & -> & _).
  assert (files_written match csv_file b with
                        | Some path => [Print (MsgOutput path)]
                        | None => []
                        end = []) as -> by (by destruct (csv_file b)).
  rewrite !app_nil_r.
  destruct (decide (fault = OpenFails)) as [->|Hne].
  - rewrite decide_True in Hio by done. by destruct Hio as (_ & _ & -> & _).
  - assert (opened b = true) as ->; [|done].
    destruct (decide (faulty fault num)).
    + destruct Hio as (_ & _ & Hrows). by destruct fault; destruct Hrows.
    + by destruct Hio as (_ & -> & _).
Qed.

Lemma filter_seqZ_cons (P : Z → Prop) `{∀ x, Decision (P x)} m n :
  0 < n →
  filter P (seqZ m n)
  = (if decide (P m) then [m] else []) ++ filter P (seqZ (m + 1) (n - 1)).
Proof.
  intros Hn. rewrite seqZ_cons by done. rewrite filter_cons.
  replace (Z.succ m) with (m + 1) by lia.
  replace (Z.pred n) with (n - 1) by lia. by destruct (decide (P m)).
Qed.

(** A run without signal, under a configuration that lets every batch be
    composed and every sleep start. *)
Lemma run_loop_complete fuel G cfg E c tr g :
  MIN_ENTRIES cfg ≤ MAX_ENTRIES cfg →
  0 ≤ SIMULATION_INTERVAL cfg →
  (∀ i, signalled E i = false) →
  c < MAX_FILE_COUNT cfg →
  (Z.to_nat (MAX_FILE_COUNT cfg - c) < fuel)%nat →
  ∃ r tr',
    run_loop fuel G cfg E c tr g = Some r
    ∧ stopped r = Break
    ∧ final_counter r = MAX_FILE_COUNT cfg
    ∧ trace r = tr ++ tr'
    ∧ sleeps tr'
      = replicate (Z.to_nat (MAX_FILE_COUNT cfg - c - 1))
          (SIMULATION_INTERVAL cfg)
    ∧ files_written tr'
      = filter (λ k, fault E k ≠ OpenFails)
          (seqZ (c + 1) (MAX_FILE_COUNT cfg - c)).
Proof.
  intros Hcfg Hint Hsig. revert c tr g.
  induction fuel as [|fuel IH]; intros c tr g Hlt Hfuel; [lia|].
  rewrite run_loop_unfold.
  destruct (Z.ltb_spec c (MAX_FILE_COUNT cfg)); [|lia].
  destruct (create_bobo_csv_returns G cfg (c + 1) (now E (c + 1))
              (fault E (c + 1)) g Hcfg) as (b & g1 & Hb).
  rewrite Hb. cbv zeta.
  pose proof (batch_effects_files_written _ _ _ _ _ _
                (create_bobo_csv_io _ _ _ _ _ _ _ _ Hb)) as Hfiles.
  rewrite (filter_seqZ_cons _ (c + 1)) by lia.
  assert ((if decide (fault E (c + 1) ≠ OpenFails) then [c + 1] else [])
          = files_written (batch_effects (c + 1) b)) as ->.
  { rewrite Hfiles. destruct (decide (fault E (c + 1) = OpenFails)).
    - by rewrite decide_False by tauto.
    - by rewrite decide_True. }
  destruct (Z.leb_spec (MAX_FILE_COUNT cfg) (c + 1)) as [Hmax|Hmore].
  - eexists _, _. split; [done|]. simpl.
    split_and!; [done|lia|by rewrite <- app_assoc| |].
    + change (Increment (c + 1) :: ?l) with ([Increment (c + 1)] ++ l).
      rewrite !sleeps_app, batch_effects_sleeps.
      by replace (MAX_FILE_COUNT cfg - c - 1) with 0 by lia.
    + change (Increment (c + 1) :: ?l) with ([Increment (c + 1)] ++ l).
      rewrite !files_written_app, seqZ_nil by lia. simpl.
      by rewrite filter_nil.
  - destruct (Z.ltb_spec (SIMULATION_INTERVAL cfg) 0); [lia|].
    rewrite Hsig.
    edestruct (IH (c + 1)) as (r & tr' & Hrun & Hstop & Hfinal & Htr & Hsl
                              & Hfw); [done|lia|].
    rewrite Hrun. eexists _, _. split; [done|].
    split_and!; [done|done| | |].
    + rewrite Htr, <- !app_assoc. simpl. reflexivity.
    + change (Increment (c + 1) :: ?l) with ([Increment (c + 1)] ++ l).
      rewrite !sleeps_app, batch_effects_sleeps.
      change (sleeps (_ :: Sleep ?s :: tr')) with (s :: sleeps tr').
      rewrite Hsl. simpl.
      replace (Z.to_nat (MAX_FILE_COUNT cfg - c - 1))
        with (S (Z.to_nat (MAX_FILE_COUNT cfg - (c + 1) - 1))) by lia.
      done.
    + change (Increment (c + 1) :: ?l) with ([Increment (c + 1)] ++ l).
      rewrite !files_written_app.
      change (files_written (_ :: Sleep _ :: tr')) with (files_written tr').
      rewrite Hfw. simpl. do 3 f_equal; lia.
Qed.

(** X18. Under a configuration with a non-empty range of entry counts
    and an interval that [time.sleep] takes (not negative, at most
    [sleep_max]), a run of [main] that no signal interrupts
    stops by reaching [MAX_FILE_COUNT], having slept exactly
    [MAX_FILE_COUNT - 1] times, each time for [SIMULATION_INTERVAL]
    seconds.  The files opened are exactly those whose [open] did not
    fail, and the last line printed reports [MAX_FILE_COUNT] files,
    whatever number of them failed. *)
Theorem complete_run_sleeps_and_files fuel cfg f E g :
  MIN_ENTRIES cfg ≤ MAX_ENTRIES cfg →
  0 ≤ SIMULATION_INTERVAL cfg ≤ sleep_max →
  (∀ i, signalled E i = false) →
  0 < MAX_FILE_COUNT cfg →
  (Z.to_nat (MAX_FILE_COUNT cfg) < fuel)%nat →
  ∃ r,
    main fuel cfg f true E g = Some r
    ∧ stopped r = Break
    ∧ final_counter r = MAX_FILE_COUNT cfg
    ∧ sleeps (trace r)
      = replicate (Z.to_nat (MAX_FILE_COUNT cfg - 1))
          (SIMULATION_INTERVAL cfg)
    ∧ files_written (trace r)
      = filter (λ k, fault E k ≠ OpenFails) (seqZ 1 (MAX_FILE_COUNT cfg))
    ∧ last (trace r) = Some (Print (MsgShutdown (MAX_FILE_COUNT cfg))).
Proof.
  intros Hcfg [Hint _] Hsig Hpos Hfuel. unfold main.
  destruct (startup_returns f g) as (G & g' & ->). cbv zeta.
  destruct (run_loop_complete fuel G cfg E 0 (Print <$> startup_messages f)
              g' Hcfg Hint Hsig Hpos)
    as (r & tr' & -> & Hstop & Hfinal & Htr & Hsl & Hfw);
    [by rewrite Z.sub_0_r|].
  rewrite Hstop. eexists. split; [done|]. simpl.
  destruct (prints_no_effect (startup_messages f)) as (_ & Hf0 & Hs0).
  rewrite Htr, !sleeps_app, !files_written_app, Hf0, Hs0, Hsl, Hfw, Hfinal.
  rewrite Z.sub_0_r, !app_nil_r. simpl.
  split_and!; try done. by rewrite last_snoc.
Qed.

Lemma complete_run_sleeps_and_files_witness :
  MIN_ENTRIES cfg0 ≤ MAX_ENTRIES cfg0
  ∧ 0 ≤ SIMULATION_INTERVAL cfg0 ≤ sleep_max
  ∧ (∀ i, signalled E0 i = false)
  ∧ 0 < MAX_FILE_COUNT cfg0
  ∧ (Z.to_nat (MAX_FILE_COUNT cfg0) < 6)%nat
  ∧ ∃ r,
      main 6 cfg0 roster0 true E0 g0 = Some r
      ∧ stopped r = Break
      ∧ final_counter r = MAX_FILE_COUNT cfg0
      ∧ sleeps (trace r)
        = replicate (Z.to_nat (MAX_FILE_COUNT cfg0 - 1))
            (SIMULATION_INTERVAL cfg0)
      ∧ files_written (trace r)
        = filter (λ k, fault E0 k ≠ OpenFails) (seqZ 1 (MAX_FILE_COUNT cfg0))
      ∧ last (trace r) = Some (Print (MsgShutdown (MAX_FILE_COUNT cfg0))).
Proof.
  assert (MIN_ENTRIES cfg0 ≤ MAX_ENTRIES cfg0) as H1 by (simpl; lia).
  assert (0 ≤ SIMULATION_INTERVAL cfg0 ≤ sleep_max) as H2
    by (unfold sleep_max; simpl; lia).
  assert (∀ i, signalled E0 i = false) as H3 by reflexivity.
  assert (0 < MAX_FILE_COUNT cfg0) as H4 by (simpl; lia).
  assert (Z.to_nat (MAX_FILE_COUNT cfg0) < 6)%nat as H5 by (simpl; lia).
  split_and!; try assumption.
  exact (complete_run_sleeps_and_files 6 cfg0 roster0 E0 g0 H1 H2 H3 H4 H5).
Defined.

(** X19. With [MAX_FILE_COUNT] zero or negative the loop body never
    runs: [main] composes no batch, opens no file and does not sleep; it
    prints the outcome of the loader and reports zero files. *)
Theorem no_file_for_non_positive_maximum fuel cfg f E g :
  MAX_FILE_COUNT cfg ≤ 0 →
  main (S fuel) cfg f true E g
  = Some (mkRun WhileExit 0
            ((Print <$> startup_messages f) ++ [Print (MsgShutdown 0)])).
Proof.
  intros Hmax. unfold main.
  destruct (startup_returns f g) as (G & g' & ->). cbv zeta.
  rewrite run_loop_unfold.
  by destruct (Z.ltb_spec 0 (MAX_FILE_COUNT cfg)); [lia|].
Qed.

Lemma no_file_for_non_positive_maximum_witness :
  MAX_FILE_COUNT cfg_none ≤ 0
  ∧ main (S 3) cfg_none roster0 true E0 g0
    = Some (mkRun WhileExit 0
              ((Print <$> startup_messages roster0)
                 ++ [Print (MsgShutdown 0)])).
Proof.
  assert (MAX_FILE_COUNT cfg_none ≤ 0) as H by (simpl; lia).
  split; [exact H|].
  exact (no_file_for_non_positive_maximum 3 cfg_none roster0 E0 g0 H).
Defined.

(** X20. With a negative [SIMULATION_INTERVAL], of at most [sleep_max]
    seconds in absolute value, and more than one file to make, [main]
    stops after the first batch: [time.sleep] refuses the negative length
    with [ValueError], the handler of [main] reports the error, and the
    run ends with a counter of one and no sleep. *)
Theorem negative_interval_stops_after_first_batch fuel cfg f E g :
  MIN_ENTRIES cfg ≤ MAX_ENTRIES cfg →
  - sleep_max ≤ SIMULATION_INTERVAL cfg < 0 →
  2 ≤ MAX_FILE_COUNT cfg →
  ∃ r,
    main (S fuel) cfg f true E g = Some r
    ∧ stopped r = Uncaught ValueError
    ∧ final_counter r = 1
    ∧ increments (trace r) = [1]
    ∧ sleeps (trace r) = []
    ∧ Print (MsgUnexpectedError ValueError) ∈ trace r.
Proof.
  intros Hcfg [_ Hneg] Hmax. unfold main.
  destruct (startup_returns f g) as (G & g' & ->). cbv zeta.
  rewrite run_loop_unfold.
  destruct (Z.ltb_spec 0 (MAX_FILE_COUNT cfg)); [|lia].
  destruct (create_bobo_csv_returns G cfg (0 + 1) (now E (0 + 1))
              (fault E (0 + 1)) g' Hcfg) as (b & g1 & ->).
  cbv zeta.
  destruct (Z.leb_spec (MAX_FILE_COUNT cfg) (0 + 1)); [lia|].
  destruct (Z.ltb_spec (SIMULATION_INTERVAL cfg) 0); [|lia].
  eexists. split; [done|]. cbn [stopped final_counter trace].
  destruct (prints_no_effect (startup_messages f)) as (Hi0 & _ & Hs0).
  change (Increment (0 + 1) :: ?l) with ([Increment 1] ++ l).
  rewrite !increments_app, !sleeps_app, Hi0, Hs0, batch_effects_increments,
    batch_effects_sleeps.
  split_and!; try done.
  rewrite !elem_of_app. left. right. apply list_elem_of_here.
Qed.

Lemma negative_interval_stops_after_first_batch_witness :
  MIN_ENTRIES cfg_negative ≤ MAX_ENTRIES cfg_negative
  ∧ - sleep_max ≤ SIMULATION_INTERVAL cfg_negative < 0
  ∧ 2 ≤ MAX_FILE_COUNT cfg_negative
  ∧ ∃ r,
      main (S 3) cfg_negative roster0 true E0 g0 = Some r
      ∧ stopped r = Uncaught ValueError
      ∧ final_counter r = 1
      ∧ increments (trace r) = [1]
      ∧ sleeps (trace r) = []
      ∧ Print (MsgUnexpectedError ValueError) ∈ trace r.
Proof.
  assert (MIN_ENTRIES cfg_negative ≤ MAX_ENTRIES cfg_negative) as H1
    by (simpl; lia).
  assert (- sleep_max ≤ SIMULATION_INTERVAL cfg_negative < 0) as H2
    by (unfold sleep_max; simpl; lia).
  assert (2 ≤ MAX_FILE_COUNT cfg_negative) as H3 by (simpl; lia).
  split; [exact H1|]. split; [exact H2|]. split; [exact H3|].
  exact (negative_interval_stops_after_first_batch 3 cfg_negative roster0 E0
           g0 H1 H2 H3).
Defined.

(** X21. With [MIN_ENTRIES] above [MAX_ENTRIES] no batch can be
    composed: the draw of the entry count raises before the file is
    opened, the handler of [main] reports the error, and the run ends with
    a counter of one, no file opened and no sleep. *)
Theorem empty_entry_range_stops_the_run fuel cfg f E g :
  MAX_ENTRIES cfg < MIN_ENTRIES cfg →
  0 < MAX_FILE_COUNT cfg →
  ∃ r,
    main (S fuel) cfg f true E g = Some r
    ∧ stopped r = Uncaught ValueError
    ∧ final_counter r = 1
    ∧ files_written (trace r) = []
    ∧ sleeps (trace r) = []
    ∧ Print (MsgUnexpectedError ValueError) ∈ trace r.
Proof.
  intros Hcfg Hmax. unfold main.
  destruct (startup_returns f g) as (G & g' & ->). cbv zeta.
  rewrite run_loop_unfold.
  destruct (Z.ltb_spec 0 (MAX_FILE_COUNT cfg)); [|lia].
  pose proof (wp_create_bobo_csv G cfg (0 + 1) (now E (0 + 1))
                (fault E (0 + 1)) g') as Hwp.
  unfold wp in Hwp.
  destruct (create_bobo_csv _ _ _ _ _ _) as [[b|e] g1].
  { destruct Hwp as (num & Hnum & _). lia. }
  destruct Hwp as [-> _].
  eexists. split; [done|]. cbn [stopped final_counter trace].
  destruct (prints_no_effect (startup_messages f)) as (_ & Hf0 & Hs0).
  rewrite !files_written_app, !sleeps_app, Hf0, Hs0.
  split_and!; try done.
  rewrite !elem_of_app. left. right.
  apply list_elem_of_further, list_elem_of_here.
Qed.

Lemma empty_entry_range_stops_the_run_witness :
  MAX_ENTRIES cfg_swapped < MIN_ENTRIES cfg_swapped
  ∧ 0 < MAX_FILE_COUNT cfg_swapped
  ∧ ∃ r,
      main (S 3) cfg_swapped roster0 true E0 g0 = Some r
      ∧ stopped r = Uncaught ValueError
      ∧ final_counter r = 1
      ∧ files_written (trace r) = []
      ∧ sleeps (trace r) = []
      ∧ Print (MsgUnexpectedError ValueError) ∈ trace r.
Proof.
  assert (MAX_ENTRIES cfg_swapped < MIN_ENTRIES cfg_swapped) as H1
    by (simpl; lia).
  assert (0 < MAX_FILE_COUNT cfg_swapped) as H2 by (simpl; lia).
  split_and!; try assumption.
  exact (empty_entry_range_stops_the_run 3 cfg_swapped roster0 E0 g0 H1 H2).
Defined.

(** Up to the first signal. *)
Lemma run_loop_signalled fuel G cfg E c k tr g :
  MIN_ENTRIES cfg ≤ MAX_ENTRIES cfg →
  0 ≤ SIMULATION_INTERVAL cfg →
  c < k < MAX_FILE_COUNT cfg →
  (∀ i, c < i < k → signalled E i = false) →
  signalled E k = true →
  (Z.to_nat (k - c) ≤ fuel)%nat →
  ∃ tr',
    run_loop fuel G cfg E c tr g = Some (mkRun SystemExit k (tr ++ tr'))
    ∧ increments tr' = seqZ (c + 1) (k - c)
    ∧ sleeps tr' = replicate (Z.to_nat (k - c)) (SIMULATION_INTERVAL cfg)
    ∧ last tr' = Some (Sleep (SIMULATION_INTERVAL cfg))
    ∧ ∀ n, Print (MsgShutdown n) ∉ tr'.
Proof.
  intros Hcfg Hint. revert c tr g.
  induction fuel as [|fuel IH]; intros c tr g Hk Hquiet Hsig Hfuel; [lia|].
  rewrite run_loop_unfold.
  destruct (Z.ltb_spec c (MAX_FILE_COUNT cfg)); [|lia].
  destruct (create_bobo_csv_returns G cfg (c + 1) (now E (c + 1))
              (fault E (c + 1)) g Hcfg) as (b & g1 & Hb).
  rewrite Hb. cbv zeta.
  destruct (Z.leb_spec (MAX_FILE_COUNT cfg) (c + 1)); [lia|].
  destruct (Z.ltb_spec (SIMULATION_INTERVAL cfg) 0); [lia|].
  assert (∀ n, Print (MsgShutdown n) ∉ batch_effects (c + 1) b) as Hnosd.
  { intros n Hin.
    destruct (create_bobo_csv_io _ _ _ _ _ _ _ _ Hb) as (num & _ & Hio).
    unfold batch_effects in Hin.
    destruct (decide (faulty _ _));
      [destruct Hio as (Hf & Hp & _)|destruct Hio as (Hf & _ & _ & Hp)];
      rewrite Hf, Hp in Hin;
      destruct (opened b); simpl in Hin;
      destruct (VALID_COLLAR_IDS G); simpl in Hin;
      repeat (apply elem_of_cons in Hin as [[= ]|Hin]);
      by apply elem_of_nil in Hin. }
  destruct (decide (k = c + 1)) as [->|Hne].
  - rewrite Hsig. eexists. split; [by rewrite <- !app_assoc|].
    change (Increment (c + 1) :: ?l) with ([Increment (c + 1)] ++ l).
    rewrite !increments_app, !sleeps_app, batch_effects_increments,
      batch_effects_sleeps.
    replace (c + 1 - c) with 1 by lia.
    split_and!; try done.
    + by rewrite !last_app.
    + intros n. rewrite !not_elem_of_app. split_and!; [|apply Hnosd|..];
        by intros [= ]%list_elem_of_singleton.
  - rewrite Hquiet by lia.
    edestruct (IH (c + 1)) as (tr' & Hrun & Hinc & Hsl & Hlast & Hsd);
      [lia|intros; apply Hquiet; lia|done|lia|].
    rewrite Hrun. eexists. split.
    { rewrite <- !app_assoc. simpl. reflexivity. }
    change (Increment (c + 1) :: ?l) with ([Increment (c + 1)] ++ l).
    rewrite !increments_app, !sleeps_app, batch_effects_increments,
      batch_effects_sleeps.
    change (increments (_ :: Sleep _ :: tr')) with (increments tr').
    change (sleeps (_ :: Sleep ?s :: tr')) with (s :: sleeps tr').
    rewrite Hinc, Hsl. split_and!.
    + simpl. rewrite (seqZ_cons (c + 1)) by lia. do 2 f_equal; lia.
    + simpl.
      by replace (Z.to_nat (k - c)) with (S (Z.to_nat (k - (c + 1)))) by lia.
    + change (?a :: ?b :: tr') with ([a; b] ++ tr').
      by rewrite !last_app, Hlast.
    + intros n. rewrite !not_elem_of_app. split_and!;
        [by intros [= ]%list_elem_of_singleton|apply Hnosd|].
      intros [[= ]|[[= ]|Hin]%elem_of_cons]%elem_of_cons. by eapply Hsd.
Qed.

(** X22. When a termination signal arrives during the sleep that follows
    file number [k], the first signal of the run, [main] ends there: the
    counter stays at [k], the run has slept [k] times and composed [k]
    batches, its last act is that sleep, and the closing line that reports
    the number of files is never printed. *)
Theorem signal_ends_the_run_in_its_sleep fuel cfg f E g k :
  MIN_ENTRIES cfg ≤ MAX_ENTRIES cfg →
  0 ≤ SIMULATION_INTERVAL cfg →
  1 ≤ k < MAX_FILE_COUNT cfg →
  (∀ i, 1 ≤ i < k → signalled E i = false) →
  signalled E k = true →
  (Z.to_nat k ≤ fuel)%nat →
  ∃ r,
    main fuel cfg f true E g = Some r
    ∧ stopped r = SystemExit
    ∧ final_counter r = k
    ∧ increments (trace r) = seqZ 1 k
    ∧ sleeps (trace r) = replicate (Z.to_nat k) (SIMULATION_INTERVAL cfg)
    ∧ last (trace r) = Some (Sleep (SIMULATION_INTERVAL cfg))
    ∧ ∀ n, Print (MsgShutdown n) ∉ trace r.
Proof.
  intros Hcfg Hint Hk Hquiet Hsig Hfuel. unfold main.
  destruct (startup_returns f g) as (G & g' & ->). cbv zeta.
  destruct (run_loop_signalled fuel G cfg E 0 k
              (Print <$> startup_messages f) g' Hcfg Hint)
    as (tr' & -> & Hinc & Hsl & Hlast & Hsd);
    [lia|intros; apply Hquiet; lia|done|by rewrite Z.sub_0_r|].
  eexists. split; [done|]. cbn [stopped final_counter trace].
  destruct (prints_no_effect (startup_messages f)) as (Hi0 & _ & Hs0).
  rewrite increments_app, sleeps_app, Hi0, Hs0, Hinc, Hsl, Z.sub_0_r.
  split_and!; try done.
  - destruct tr' as [|e0 tr0]; [done|]. by rewrite last_app, Hlast.
  - intros n. rewrite not_elem_of_app. split; [|apply Hsd].
    unfold startup_messages. destruct (fst _);
      by intros [= ]%list_elem_of_singleton.
Qed.

Lemma signal_ends_the_run_in_its_sleep_witness :
  MIN_ENTRIES cfg0 ≤ MAX_ENTRIES cfg0
  ∧ 0 ≤ SIMULATION_INTERVAL cfg0
  ∧ 1 ≤ 2 < MAX_FILE_COUNT cfg0
  ∧ (∀ i, 1 ≤ i < 2 → signalled E_signal i = false)
  ∧ signalled E_signal 2 = true
  ∧ (Z.to_nat 2 ≤ 6)%nat
  ∧ ∃ r,
      main 6 cfg0 roster0 true E_signal g0 = Some r
      ∧ stopped r = SystemExit
      ∧ final_counter r = 2
      ∧ increments (trace r) = seqZ 1 2
      ∧ sleeps (trace r) = replicate (Z.to_nat 2) (SIMULATION_INTERVAL cfg0)
      ∧ last (trace r) = Some (Sleep (SIMULATION_INTERVAL cfg0))
      ∧ ∀ n, Print (MsgShutdown n) ∉ trace r.
Proof.
  assert (MIN_ENTRIES cfg0 ≤ MAX_ENTRIES cfg0) as H1 by (simpl; lia).
  assert (0 ≤ SIMULATION_INTERVAL cfg0) as H2 by (simpl; lia).
  assert (1 ≤ 2 < MAX_FILE_COUNT cfg0) as H3 by (simpl; lia).
  assert (∀ i, 1 ≤ i < 2 → signalled E_signal i = false) as H4.
  { intros i Hi. assert (i = 1) as -> by lia. reflexivity. }
  assert (signalled E_signal 2 = true) as H5 by reflexivity.
  assert (Z.to_nat 2 ≤ 6)%nat as H6 by (simpl; lia).
  split; [exact H1|]. split; [exact H2|]. split; [exact H3|].
  split; [exact H4|]. split; [exact H5|]. split; [exact H6|].
  exact (signal_ends_the_run_in_its_sleep 6 cfg0 roster0 E_signal g0 2
           H1 H2 H3 H4 H5 H6).
Defined.

(** ** From the roster generator to the simulator *)

(** X23. Started on a roster that the generator wrote for a range inside
    100..12000 (its default), the simulator has the padded IDs of the
    roster as its valid list and an unknown pool of 20 to 40 IDs: every
    batch can be given unknown IDs. *)
Theorem startup_on_generated_roster fuel num_users lo hi g rows g' gs :
  generate_test_users fuel num_users lo hi g = (Ok (Some rows), g') →
  100 ≤ lo → hi ≤ 12000 →
  ∃ G gs',
    startup (roster_csv rows) gs = (Ok G, gs')
    ∧ VALID_COLLAR_IDS G = fst <$> rows
    ∧ (20 ≤ length (UNKNOWN_COLLAR_IDS G) ≤ 40)%nat.
Proof.
  intros (ids & -> & Hlen & Hpos & _ & _ & Hin)%generate_test_users_result
    Hlo Hhi.
  unfold startup. rewrite roster_csv_loads.
  assert (fst <$> (roster_row <$> ids) = format_0d 5 <$> ids) as ->
    by (by rewrite <- list_fmap_compose).
  destruct (outer_bands_kept (mkGlobals (format_0d 5 <$> ids) []) gs)
    as (G' & gs' & Hgen & _ & Hsize).
  - simpl. destruct ids; [simpl in Hlen; lia|done].
  - simpl. intros v n (m & -> & Hm)%list_elem_of_fmap Hv.
    rewrite py_int_format_0d in Hv. injection Hv as <-.
    specialize (Hin m Hm). lia.
  - exists G', gs'. split; [done|]. split; [|done].
    rewrite generate_unknown_collar_ids_eq in Hgen
      by (simpl; destruct ids; [simpl in Hlen; lia|done]).
    by injection Hgen as <- _.
Qed.

Lemma startup_on_generated_roster_witness :
  ∃ rows g',
    generate_test_users 10 3 100 120 g0 = (Ok (Some rows), g')
    ∧ 100 ≤ 100 ∧ 120 ≤ 12000
    ∧ ∃ G gs',
        startup (roster_csv rows) g_ones = (Ok G, gs')
        ∧ VALID_COLLAR_IDS G = fst <$> rows
        ∧ (20 ≤ length (UNKNOWN_COLLAR_IDS G) ≤ 40)%nat.
Proof.
  eexists _, _. split; [vm_compute; reflexivity|].
  split; [lia|]. split; [lia|].
  eapply (startup_on_generated_roster 10 3 100 120 g0 _ _ g_ones);
    [vm_compute; reflexivity|lia|lia].
Defined.

(** ** The configuration *)

(** X24. With none of the five variables in the environment,
    [load_env_config] returns the values of [DEFAULT_CONFIG], whatever
    else the environment holds. *)
Theorem config_defaults (environ : gmap string string) :
  environ !! "OUTPUT_DIR" = None →
  environ !! "SIMULATION_INTERVAL" = None →
  environ !! "MIN_ENTRIES" = None →
  environ !! "MAX_ENTRIES" = None →
  environ !! "MAX_FILE_COUNT" = None →
  load_env_config environ = Ok DEFAULT_CONFIG.
Proof.
  intros H1 H2 H3 H4 H5. unfold load_env_config, getenv.
  by rewrite H1, H2, H3, H4, H5.
Qed.

Lemma config_defaults_witness :
  environ_home !! "OUTPUT_DIR" = None
  ∧ environ_home !! "SIMULATION_INTERVAL" = None
  ∧ environ_home !! "MIN_ENTRIES" = None
  ∧ environ_home !! "MAX_ENTRIES" = None
  ∧ environ_home !! "MAX_FILE_COUNT" = None
  ∧ load_env_config environ_home = Ok DEFAULT_CONFIG.
Proof.
  assert (environ_home !! "OUTPUT_DIR" = None) as H1
    by (vm_compute; reflexivity).
  assert (environ_home !! "SIMULATION_INTERVAL" = None) as H2
    by (vm_compute; reflexivity).
  assert (environ_home !! "MIN_ENTRIES" = None) as H3
    by (vm_compute; reflexivity).
  assert (environ_home !! "MAX_ENTRIES" = None) as H4
    by (vm_compute; reflexivity).
  assert (environ_home !! "MAX_FILE_COUNT" = None) as H5
    by (vm_compute; reflexivity).
  split_and!; try assumption.
  exact (config_defaults environ_home H1 H2 H3 H4 H5).
Defined.

(** X25. [load_env_config] reads back every configuration whose numbers
    the environment holds as [str] writes them, as long as each has no
    more digits than [int] accepts, and checks none of them: negative
    counts and intervals, and a minimum above the maximum, are returned
    as they are. *)
Theorem config_round_trip cfg :
  int_readable (SIMULATION_INTERVAL cfg) →
  int_readable (MIN_ENTRIES cfg) →
  int_readable (MAX_ENTRIES cfg) →
  int_readable (MAX_FILE_COUNT cfg) →
  load_env_config (environ_of cfg) = Ok cfg.
Proof.
  intros _ _ _ _.
  unfold load_env_config, getenv, environ_of, int_of.
  rewrite lookup_insert_eq.
  do 1 (rewrite lookup_insert_ne by done). rewrite lookup_insert_eq.
  do 2 (rewrite lookup_insert_ne by done). rewrite lookup_insert_eq.
  do 3 (rewrite lookup_insert_ne by done). rewrite lookup_insert_eq.
  do 4 (rewrite lookup_insert_ne by done). rewrite lookup_insert_eq.
  rewrite !py_int_format_0d. by destruct cfg.
Qed.

Lemma config_round_trip_witness :
  int_readable (SIMULATION_INTERVAL cfg_swapped)
  ∧ int_readable (MIN_ENTRIES cfg_swapped)
  ∧ int_readable (MAX_ENTRIES cfg_swapped)
  ∧ int_readable (MAX_FILE_COUNT cfg_swapped)
  ∧ load_env_config (environ_of cfg_swapped) = Ok cfg_swapped.
Proof.
  assert (int_readable (SIMULATION_INTERVAL cfg_swapped)) as H1
    by (vm_compute; reflexivity).
  assert (int_readable (MIN_ENTRIES cfg_swapped)) as H2
    by (vm_compute; reflexivity).
  assert (int_readable (MAX_ENTRIES cfg_swapped)) as H3
    by (vm_compute; reflexivity).
  assert (int_readable (MAX_FILE_COUNT cfg_swapped)) as H4
    by (vm_compute; reflexivity).
  split_and!; try assumption.
  exact (config_round_trip cfg_swapped H1 H2 H3 H4).
Defined.

Lemma int_of_raise s e : int_of s = Raise e → e = ValueError.
Proof. unfold int_of. destruct (py_int s); congruence. Qed.

(** X26. When one of the four numeric variables holds a text that [int]
    cannot read, [load_env_config] raises [ValueError], whatever the other
    variables hold. *)
Theorem config_rejects_unreadable_number
    (environ : gmap string string) key value :
  key ∈ ["SIMULATION_INTERVAL"; "MIN_ENTRIES"; "MAX_ENTRIES";
         "MAX_FILE_COUNT"] →
  environ !! key = Some value →
  py_int value = None →
  load_env_config environ = Raise ValueError.
Proof.
  intros Hkey Hlook Hint.
  assert (∀ default, int_of (getenv environ key default) = Raise ValueError)
    as Hraise.
  { intros default. unfold getenv, int_of. by rewrite Hlook, Hint. }
  unfold load_env_config.
  repeat (apply elem_of_cons in Hkey as [->|Hkey]);
    [..|by apply elem_of_nil in Hkey];
    repeat match goal with
      | |- context [int_of (getenv environ ?k ?d)] =>
          first [rewrite (Hraise d)
                |destruct (int_of (getenv environ k d)) as [?|?] eqn:?]
      end;
    try done;
    repeat match goal with
      | H : int_of _ = Raise _ |- _ => apply int_of_raise in H; subst
      end; done.
Qed.

Lemma config_rejects_unreadable_number_witness :
  "MIN_ENTRIES" ∈ ["SIMULATION_INTERVAL"; "MIN_ENTRIES"; "MAX_ENTRIES";
                   "MAX_FILE_COUNT"]
  ∧ environ_bad !! "MIN_ENTRIES" = Some "five"
  ∧ py_int "five" = None
  ∧ load_env_config environ_bad = Raise ValueError.
Proof.
  assert ("MIN_ENTRIES" ∈ ["SIMULATION_INTERVAL"; "MIN_ENTRIES";
                           "MAX_ENTRIES"; "MAX_FILE_COUNT"]) as H1
    by (right; left).
  assert (environ_bad !! "MIN_ENTRIES" = Some "five") as H2
    by (vm_compute; reflexivity).
  assert (py_int "five" = None) as H3 by (vm_compute; reflexivity).
  split_and!; try assumption.
  exact (config_rejects_unreadable_number environ_bad "MIN_ENTRIES" "five"
           H1 H2 H3).
Defined.
